(** * work21-agents: the estimation engine of [app/services/analyst_service.py]

    A shallow embedding of [AnalystService.estimate_cost] and
    [AnalystService.estimate_timeline], with the properties the project
    specification states about them.

    Conventions of the embedding
    - A task is the JSON object produced by the task generator.  Each key may
      be missing; [hours] and [depends_on] may also hold JSON [null], the two
      places where the code treats [null] differently from a missing key.
      [id], [title] and [role] hold strings when present, and [hours] an
      integer ([int] of a float or of a numeric string is left out).
    - Python exceptions are values of [exn]; a computation is a [result].
      The [while remaining:] loop runs on fuel, [OutOfFuel] is the only
      outcome that is not a Python outcome.
    - [dict] is Python's insertion-ordered dictionary.  Dictionaries that the
      code only reads by key ([deps_map], [role_next_free]) are [gmap]s.
    - A Python [set] of strings iterates in an order fixed by string hashes,
      not by insertion.  The order is a parameter [set_iter] of the model.
    - A [datetime] is a proleptic Gregorian ordinal ([date.toordinal]) and a
      time of day in microseconds.  [strftime] writes the year with four
      digits, which the C library does from the year 1000 on; the properties
      about dates are stated for such years ([valid_datetime]).
    - A Python [str] that the code takes apart is the list of its code
      points; the regular expressions of the module are patterns of a small
      backtracking matcher ([rmatch]).  [json.loads] and the call of the
      language model are not part of the embedding: the reply and the parser
      are parameters.
    - Money is integral, as in [DEFAULT_RATES_PER_HOUR]; the float accumulator
      [total] of [estimate_cost] is exact on integers below 2^53 and is kept
      as the integer it denotes.  [round(duration_days * 0.2)] is taken on
      the exact product (see [buffer_days]). *)

From Stdlib Require Import ZArith String Ascii List Lia.
From stdpp Require Import base option list gmap strings.

Local Open Scope Z_scope.
#[global] Set Warnings "-clear-no-such-hyp".

(** [lia] reasons about [/] and [mod] through their Euclidean equations. *)
Ltac Zify.zify_post_hook ::= Z.to_euclidean_division_equations.

(** ** Outcomes of a Python computation *)

Inductive exn : Set :=
| KeyError | TypeError | ValueError | ZeroDivisionError | OverflowError.

Inductive result (A : Type) : Type :=
| Return (a : A)
| Raise (e : exn)
| OutOfFuel.
Arguments Return {A} a.
Arguments Raise {A} e.
Arguments OutOfFuel {A}.

Definition bind {A B} (m : result A) (f : A → result B) : result B :=
  match m with
  | Return a => f a
  | Raise e => Raise e
  | OutOfFuel => OutOfFuel
  end.

Notation "'do' x <- m ; k" := (bind m (λ x, k))
  (at level 10, x name, m at level 100, k at level 200,
   format "'[v' 'do'  x  <-  m ; '/' k ']'").

(** [for x in l: acc = f(acc, x)], stopping at the first exception. *)
Fixpoint foldM {A B} (f : A → B → result A) (acc : A) (l : list B) : result A :=
  match l with
  | [] => Return acc
  | x :: l' => do acc' <- f acc x; foldM f acc' l'
  end.

(** [[x for x in l if p(x)]] where the test may raise. *)
Fixpoint filterM {A} (p : A → result bool) (l : list A) : result (list A) :=
  match l with
  | [] => Return []
  | x :: l' =>
      do b <- p x;
      do rest <- filterM p l';
      Return (if b : bool then x :: rest else rest)
  end.

(** [d[k]] on an optional binding. *)
Definition subscript {A} (o : option A) : result A :=
  match o with
  | Some a => Return a
  | None => Raise KeyError
  end.

(** ** Insertion-ordered dictionaries *)

Section dict.
Context {V : Type}.

Definition dict := list (string * V).

Fixpoint dict_get (d : dict) (k : string) : option V :=
  match d with
  | [] => None
  | (k', v) :: d' => if decide (k = k') then Some v else dict_get d' k
  end.

(** [d[k] = v]: a known key keeps its position, a new key goes last. *)
Fixpoint dict_set (d : dict) (k : string) (v : V) : dict :=
  match d with
  | [] => [(k, v)]
  | (k', v') :: d' =>
      if decide (k = k') then (k, v) :: d' else (k', v') :: dict_set d' k v
  end.

Definition dict_keys (d : dict) : list string := d.*1.
Definition dict_values (d : dict) : list V := d.*2.
  End dict.
Arguments dict V : clear implicits.

(** ** Dates *)

Definition US_PER_DAY : Z := 86400000000.
(** [date.min.toordinal()] and [date.max.toordinal()]. *)
Definition MINORD : Z := 1.
Definition MAXORD : Z := 3652059.

Record datetime : Set := mkdt { ordinal : Z; micros : Z }.

#[global] Instance datetime_eq_dec : EqDecision datetime.
Proof. solve_decision. Defined.

Definition dt_ltb (a b : datetime) : bool :=
  (ordinal a <? ordinal b) || ((ordinal a =? ordinal b) && (micros a <? micros b)).

(** Python's [max(a, b)]: [b] only when it is strictly greater. *)
Definition dt_max (a b : datetime) : datetime := if dt_ltb a b then b else a.

(** [max(l)] on a non-empty list. *)
Definition dt_max_list (a : datetime) (l : list datetime) : datetime :=
  fold_left dt_max l a.

(** [dt + timedelta(days=n)]; leaving [datetime.min .. datetime.max] raises. *)
Definition add_days (dt : datetime) (n : Z) : result datetime :=
  if (MINORD <=? ordinal dt + n) && (ordinal dt + n <=? MAXORD)
  then Return (mkdt (ordinal dt + n) (micros dt))
  else Raise OverflowError.

(** [(a - b).days]: a timedelta is normalised with [0 <= microseconds]. *)
Definition sub_days (a b : datetime) : Z :=
  ((ordinal a - ordinal b) * US_PER_DAY + (micros a - micros b)) / US_PER_DAY.

(** Civil date of an ordinal and back, counting from 1 March of year 0. *)
Definition civil_of_ordinal (n : Z) : Z * Z * Z :=
  let z := n + 305 in
  let era := z / 146097 in
  let doe := z mod 146097 in
  let yoe := (doe - doe / 1460 + doe / 36524 - doe / 146096) / 365 in
  let doy := doe - (365 * yoe + yoe / 4 - yoe / 100) in
  let mp := (5 * doy + 2) / 153 in
  let d := doy - (153 * mp + 2) / 5 + 1 in
  let m := if mp <? 10 then mp + 3 else mp - 9 in
  let y := yoe + era * 400 + (if m <=? 2 then 1 else 0) in
  (y, m, d).

Definition ordinal_of_civil (y m d : Z) : Z :=
  let y' := if m <=? 2 then y - 1 else y in
  let era := y' / 400 in
  let yoe := y' mod 400 in
  let mp := if m <=? 2 then m + 9 else m - 3 in
  let doy := (153 * mp + 2) / 5 + d - 1 in
  let doe := yoe * 365 + yoe / 4 - yoe / 100 + doy in
  era * 146097 + doe - 305.

Definition is_leap (y : Z) : bool :=
  (y mod 4 =? 0) && (negb (y mod 100 =? 0) || (y mod 400 =? 0)).

Definition days_in_month (y m : Z) : Z :=
  if m =? 2 then (if is_leap y then 29 else 28)
  else if (m =? 4) || (m =? 6) || (m =? 9) || (m =? 11) then 30 else 31.

Definition digit (n : Z) : ascii := ascii_of_nat (Z.to_nat (48 + n mod 10)).

Definition digit_val (c : ascii) : option Z :=
  let n := Z.of_nat (nat_of_ascii c) in
  if (48 <=? n) && (n <=? 57) then Some (n - 48) else None.

Definition pad2 (n : Z) (rest : string) : string :=
  String (digit (n / 10)) (String (digit n) rest).

Definition pad4 (n : Z) (rest : string) : string :=
  String (digit (n / 1000)) (String (digit (n / 100)) (pad2 n rest)).

(** [dt.strftime("%d.%m.%Y")] *)
Definition _format_date (dt : datetime) : string :=
  let '(y, m, d) := civil_of_ordinal (ordinal dt) in
  pad2 d (String "." (pad2 m (String "." (pad4 y EmptyString)))).

(** [datetime.strptime(s, "%d.%m.%Y")] on the ten-character form that
    [_format_date] writes: the day at 00:00, [ValueError] otherwise. *)
Definition strptime (s : string) : result datetime :=
  match s with
  | String d1 (String d0 (String "." (String m1 (String m0 (String "."
      (String y3 (String y2 (String y1 (String y0 EmptyString))))))))) =>
      match digit_val d1, digit_val d0, digit_val m1, digit_val m0,
            digit_val y3, digit_val y2, digit_val y1, digit_val y0 with
      | Some d1, Some d0, Some m1, Some m0, Some y3, Some y2, Some y1, Some y0 =>
          let d := 10 * d1 + d0 in
          let m := 10 * m1 + m0 in
          let y := 1000 * y3 + 100 * y2 + 10 * y1 + y0 in
          if (1 <=? y) && (1 <=? m) && (m <=? 12) && (1 <=? d) && (d <=? days_in_month y m)
          then Return (mkdt (ordinal_of_civil y m d) 0)
          else Raise ValueError
      | _, _, _, _, _, _, _, _ => Raise ValueError
      end
  | _ => Raise ValueError
  end.

Definition date_of (y m d : Z) : datetime := mkdt (ordinal_of_civil y m d) 0.

(** ** Tasks *)

(** A JSON member: missing, [null], or a value. *)
Inductive field (A : Type) : Type :=
| Absent
| Null
| Val (a : A).
Arguments Absent {A}.
Arguments Null {A}.
Arguments Val {A} a.

(** The keys of a task that the engine reads ([description] and [priority]
    play no part in either estimate). *)
Module Task.
Record t : Type := mk {
  id : option string;
  title : option string;
  hours : field Z;
  role : option string;
  depends_on : field (list string)
}.
End Task.

(** [int(t.get("hours", 0))] *)
Definition int_hours (t : Task.t) : result Z :=
  match Task.hours t with
  | Absent => Return 0
  | Null => Raise TypeError
  | Val h => Return h
  end.

(** [t.get("role", "default")] *)
Definition get_role (t : Task.t) : string := default "default"%string (Task.role t).

(** ** Cost estimate *)

Definition DEFAULT_RATES_PER_HOUR : gmap string Z :=
  <["backend"%string := 500]> (<["frontend"%string := 350]> (<["devops"%string := 600]>
  (<["qa"%string := 300]> (<["ux"%string := 600]> (<["pm"%string := 800]>
  (<["default"%string := 500]> ∅)))))).

Module CostLine.
Record t : Type := mk {
  id : option string;
  title : option string;
  hours : Z;
  role : string;
  rate : Z;
  cost : Z
}.
End CostLine.

Module CostEstimate.
Record t : Type := mk { breakdown : list CostLine.t; total : Z }.
End CostEstimate.

(** The body of [for t in tasks] in [estimate_cost].  The fallback argument
    [rates["default"]] of [rates.get] is evaluated at every task. *)
Definition cost_step (rates : gmap string Z) (acc : CostEstimate.t) (t : Task.t)
  : result CostEstimate.t :=
  do hours <- int_hours t;
  let role := get_role t in
  do fallback <- subscript (rates !! "default"%string);
  let rate := default fallback (rates !! role) in
  let cost := hours * rate in
  Return (CostEstimate.mk
            (CostEstimate.breakdown acc ++
               [CostLine.mk (Task.id t) (Task.title t) hours role rate cost])
            (CostEstimate.total acc + cost)).

Definition estimate_cost (tasks : list Task.t) (rates : option (gmap string Z))
  : result CostEstimate.t :=
  let rates := default DEFAULT_RATES_PER_HOUR rates in
  foldM (cost_step rates) (CostEstimate.mk [] 0) tasks.

(** ** Timeline estimate *)

Module Scheduled.
Record t : Type := mk {
  id : string;
  title : option string;
  role : string;
  hours : Z;
  start_date : string;
  end_date : string;
  duration_days : Z;
  depends_on : list string
}.
End Scheduled.

Module Timeline.
Record t : Type := mk {
  project_start : string;
  project_end : string;
  total_work_days : Z;
  role_days : dict Z;
  task_schedule : list Scheduled.t
}.
End Timeline.

(** [id_map = {t["id"]: t for t in tasks}] *)
Definition build_id_map (tasks : list Task.t) : result (dict Task.t) :=
  foldM (λ m t, do k <- subscript (Task.id t); Return (dict_set m k t)) [] tasks.

(** [set(t.get("depends_on", []))] *)
Definition declared_deps (t : Task.t) : result (gset string) :=
  match Task.depends_on t with
  | Absent => Return ∅
  | Null => Raise TypeError
  | Val l => Return (list_to_set l)
  end.

(** [deps_map = {tid: set(id_map[tid].get("depends_on", [])) for tid in id_map}] *)
Definition declared_deps_map (id_map : dict Task.t) : result (gmap string (gset string)) :=
  foldM (λ (m : gmap string (gset string)) tid,
           do t <- subscript (dict_get id_map tid);
           do s <- declared_deps t;
           Return (<[tid := s]> m))
        ∅ (dict_keys id_map).

(** [deps_map] once the ids that are not in [id_map] have been dropped. *)
Definition build_deps_map (id_map : dict Task.t) : result (gmap string (gset string)) :=
  do raw <- declared_deps_map id_map;
  Return ((λ s : gset string, filter (λ d, is_Some (dict_get id_map d)) s) <$> raw).

(** [remaining.remove(r)] *)
Definition set_remove (r : string) (s : list string) : result (list string) :=
  if decide (r ∈ s) then Return (filter (λ x, x ≠ r) s) else Raise KeyError.

Record topo_state : Type := mk_topo {
  remaining : list string;
  deps_map : gmap string (gset string);
  ordered : list Task.t
}.

(** [not deps_map[r]] *)
Definition no_deps (deps : gmap string (gset string)) (r : string) : result bool :=
  do s <- subscript (deps !! r);
  Return (bool_decide (s = ∅)).

(** The body of [for r in ready]. *)
Definition emit (id_map : dict Task.t) (st : topo_state) (r : string) : result topo_state :=
  do t <- subscript (dict_get id_map r);
  do rem <- set_remove r (remaining st);
  Return (mk_topo rem ((λ s, s ∖ {[r]}) <$> deps_map st) (ordered st ++ [t])).

(** [hours_to_days] for a given [daily_capacity_hours]; [//] is floor division. *)
Definition hours_to_days (daily_capacity_hours h : Z) : result Z :=
  if daily_capacity_hours =? 0 then Raise ZeroDivisionError
  else Return (Z.max 1 ((h + daily_capacity_hours - 1) / daily_capacity_hours)).

(** [max(0, int(round(duration_days * 0.2)))].  [round] goes to the nearest
    integer; a fifth of an integer is never half way between two integers, so
    the nearest integer is the floor of [duration_days / 5 + 1 / 2].  (The
    double product is within 1e-6 of the exact one for every duration that
    line 231 lets through, far closer than the 0.1 that separates a multiple
    of a fifth from a half.) *)
Definition buffer_days (duration_days : Z) : Z :=
  Z.max 0 ((2 * duration_days + 5) / 10).

Record sched_state : Type := mk_sched {
  dates_for_id : dict Scheduled.t;
  role_next_free : gmap string datetime
}.

(** [[strptime(dates_for_id[d]["end_date"]) for d in deps if d in dates_for_id]] *)
Fixpoint deps_end (dates : dict Scheduled.t) (deps : list string) : result (list datetime) :=
  match deps with
  | [] => Return []
  | d :: deps' =>
      match dict_get dates d with
      | Some e =>
          do dt <- strptime (Scheduled.end_date e);
          do rest <- deps_end dates deps';
          Return (dt :: rest)
      | None => deps_end dates deps'
      end
  end.

(** [t.get("depends_on", []) or []] *)
Definition listed_deps (t : Task.t) : list string :=
  match Task.depends_on t with
  | Val l => l
  | _ => []
  end.

(** The body of [for t in ordered]. *)
Definition place (project_start : datetime) (daily_capacity_hours : Z)
    (st : sched_state) (t : Task.t) : result sched_state :=
  let role := get_role t in
  do hours <- int_hours t;
  do duration_days <- hours_to_days daily_capacity_hours hours;
  let deps := listed_deps t in
  do ends <- deps_end (dates_for_id st) deps;
  do earliest <- match ends with
             | [] => Return project_start
             | e :: es =>
                 do next <- add_days (dt_max_list e es) 1;
                 Return (dt_max project_start next)
             end;
  let role_free := default project_start (role_next_free st !! role) in
  let start := dt_max earliest role_free in
  do end_ <- add_days start (duration_days - 1);
  let buffer := buffer_days duration_days in
  do end_with_buffer <- add_days end_ buffer;
  do tid <- subscript (Task.id t);
  let entry := Scheduled.mk tid (Task.title t) role hours
                 (_format_date start) (_format_date end_with_buffer)
                 (duration_days + buffer) deps in
  do next_free <- add_days end_with_buffer 1;
  Return (mk_sched (dict_set (dates_for_id st) tid entry)
                   (<[role := next_free]> (role_next_free st))).

(** [max(strptime(v["end_date"]) for v in dates_for_id.values())] *)
Fixpoint parse_ends (vs : list Scheduled.t) : result (list datetime) :=
  match vs with
  | [] => Return []
  | v :: vs' =>
      do dt <- strptime (Scheduled.end_date v);
      do rest <- parse_ends vs';
      Return (dt :: rest)
  end.

(** [role_days.setdefault(role, 0); role_days[role] += duration_days] *)
Definition add_role_days (rd : dict Z) (v : Scheduled.t) : dict Z :=
  dict_set rd (Scheduled.role v)
           (default 0 (dict_get rd (Scheduled.role v)) + Scheduled.duration_days v).

(** The loop [for t in ordered], from empty [dates_for_id] and [role_next_free]. *)
Definition schedule (project_start : datetime) (daily_capacity_hours : Z)
    (ordered : list Task.t) : result sched_state :=
  foldM (place project_start daily_capacity_hours) (mk_sched [] ∅) ordered.

(** The totals computed after the loop, and the returned record. *)
Definition summarize (project_start : datetime) (dates : dict Scheduled.t)
  : result Timeline.t :=
  let values := dict_values dates in
  do project_end <- match values with
                    | [] => Return project_start
                    | _ :: _ =>
                        do ends <- parse_ends values;
                        match ends with
                        | [] => Raise ValueError
                        | e :: es => Return (dt_max_list e es)
                        end
                    end;
  let total_days := sub_days project_end project_start + 1 in
  let role_days := fold_left add_role_days values [] in
  Return (Timeline.mk (_format_date project_start) (_format_date project_end)
                      total_days role_days values).

Section scheduler.
(** The order in which iterating a [set] yields its members. *)
Variable set_iter : list string → list string.

(** One pass of [while remaining]: pick the ready ids, or all of them when
    none is ready, and emit them. *)
Definition ready_batch (st : topo_state) : result (list string) :=
  do ready <- filterM (no_deps (deps_map st)) (set_iter (remaining st));
  Return (match ready with
          | [] => set_iter (remaining st)
          | _ => ready
          end).

Fixpoint topo_loop (fuel : nat) (id_map : dict Task.t) (st : topo_state)
  : result topo_state :=
  match remaining st with
  | [] => Return st
  | _ :: _ =>
      match fuel with
      | O => OutOfFuel
      | S fuel' =>
          do ready <- ready_batch st;
          do st' <- foldM (emit id_map) st ready;
          topo_loop fuel' id_map st'
      end
  end.

(** The topological pass: the tasks in the order in which they are
    appended to [ordered]. *)
Definition topological_order (fuel : nat) (tasks : list Task.t) : result (list Task.t) :=
  do id_map <- build_id_map tasks;
  do deps <- build_deps_map id_map;
  do topo <- topo_loop fuel id_map (mk_topo (dict_keys id_map) deps []);
  Return (ordered topo).

(** [estimate_timeline] with the loop bound exposed. *)
Definition estimate_timeline_fuel (fuel : nat) (tasks : list Task.t)
    (project_start : datetime) (daily_capacity_hours : Z) : result Timeline.t :=
  do ordered <- topological_order fuel tasks;
  do sched <- schedule project_start daily_capacity_hours ordered;
  summarize project_start (dates_for_id sched).

(** [estimate_timeline(tasks, project_start, daily_capacity_hours)]; the
    caller supplies [project_start] ([datetime.now()] when omitted).  Every
    pass of the loop removes an id, so one unit of fuel per task is enough. *)
Definition estimate_timeline (tasks : list Task.t) (project_start : datetime)
    (daily_capacity_hours : Z) : result Timeline.t :=
  estimate_timeline_fuel (length tasks) tasks project_start daily_capacity_hours.
End scheduler.

(** * Vocabulary of the specification *)

(** The hours the engine works with: [0] unless the task gives an integer. *)
Definition hours_or_zero (t : Task.t) : Z :=
  match Task.hours t with
  | Val h => h
  | _ => 0
  end.

(** The rate a task is charged at: the entry of its role, else [default]. *)
Definition resolved_rate (rates : gmap string Z) (fallback : Z) (t : Task.t) : Z :=
  match Task.role t with
  | Some r => default fallback (rates !! r)
  | None => fallback
  end.

(** What the cost line of a task must look like. *)
Definition cost_line_of (rates : gmap string Z) (fallback : Z)
    (t : Task.t) (l : CostLine.t) : Prop :=
  CostLine.id l = Task.id t ∧
  CostLine.title l = Task.title t ∧
  CostLine.role l = get_role t ∧
  CostLine.hours l = hours_or_zero t ∧
  CostLine.rate l = resolved_rate rates fallback t ∧
  CostLine.cost l = CostLine.hours l * CostLine.rate l.

Fixpoint sum_costs (ls : list CostLine.t) : Z :=
  match ls with
  | [] => 0
  | l :: ls' => CostLine.cost l + sum_costs ls'
  end.

(** The task that [id_map] keeps for an id: the last one carrying it. *)
Definition task_with_id (tasks : list Task.t) (k : string) : option Task.t :=
  last (filter (λ t, Task.id t = Some k) tasks).

(** The ids that occur in the task list. *)
Definition input_ids (tasks : list Task.t) : list string := omap Task.id tasks.

(** [id_map] after the tasks [done] have been entered. *)
Definition id_map_of (done : list Task.t) (m : dict Task.t) : Prop :=
  NoDup (dict_keys m) ∧
  (length m ≤ length done)%nat ∧
  Forall (λ t, is_Some (Task.id t)) done ∧
  ∀ k, dict_get m k = task_with_id done k.

(** The existing ids that the task kept for [k] depends on. *)
Definition existing_deps (id_map : dict Task.t) (t : Task.t) : gset string :=
  filter (λ d, is_Some (dict_get id_map d)) (list_to_set (listed_deps t)).

(** [b] stands before [a] in [ks]. *)
Definition precedes (b a : string) (ks : list string) : Prop :=
  ∃ pre post, ks = pre ++ a :: post ∧ b ∈ pre.

(** The state of the loop once the ids [ks] have been emitted, in that
    order; [deps0] is [deps_map] as it is when the loop starts. *)
Definition topo_inv (id_map : dict Task.t) (deps0 : gmap string (gset string))
    (ks : list string) (st : topo_state) : Prop :=
  Forall2 (λ k t, dict_get id_map k = Some t) ks (ordered st) ∧
  ks ++ remaining st ≡ₚ dict_keys id_map ∧
  deps_map st = (λ s, s ∖ list_to_set ks) <$> deps0.

(** The ids with no dependency left, in iteration order. *)
Definition ready_now (set_iter : list string → list string) (st : topo_state) : list string :=
  filter (λ k, deps_map st !! k = Some ∅) (set_iter (remaining st)).

(** [y] is one of the dependencies the loop starts with for [x]. *)
Definition waits_for (deps0 : gmap string (gset string)) (x y : string) : Prop :=
  ∃ s, deps0 !! x = Some s ∧ y ∈ s.

(** A dependency whose own chain of dependencies is well founded has been
    emitted before the id that waits for it. *)
Definition deps_first (deps0 : gmap string (gset string)) (ks : list string) : Prop :=
  ∀ a b, a ∈ ks → waits_for deps0 a b → Acc (λ y x, waits_for deps0 x y) b →
         precedes b a ks.

(** The task kept for [a] lists [b], and [b] is the id of some task. *)
Definition depends_on_existing (tasks : list Task.t) (a b : string) : Prop :=
  ∃ t, task_with_id tasks a = Some t ∧ b ∈ listed_deps t ∧ b ∈ input_ids tasks.

(** Following [depends_on] links downwards from [b], through ids that
    exist, always comes to an end: no cycle can be reached from [b]. *)
Definition no_cycle_below (tasks : list Task.t) (b : string) : Prop :=
  Acc (λ y x, depends_on_existing tasks x y) b.

(** The calendar day a [DD.MM.YYYY] text denotes. *)
Definition day_of (s : string) : Z :=
  match strptime s with
  | Return dt => ordinal dt
  | _ => 0
  end.

Definition parses (s : string) : Prop := strptime s = Return (mkdt (day_of s) 0).

(** A [datetime] object, of a year that [strftime] prints with four digits. *)
Definition valid_datetime (dt : datetime) : Prop :=
  ordinal_of_civil 1000 1 1 <= ordinal dt <= MAXORD ∧ 0 <= micros dt < US_PER_DAY.

(** The days a task takes before the buffer, and with it. *)
Definition raw_duration (cap : Z) (t : Task.t) : Z :=
  Z.max 1 ((hours_or_zero t + cap - 1) / cap).

Definition task_span (cap : Z) (t : Task.t) : Z :=
  raw_duration cap t + buffer_days (raw_duration cap t).

Fixpoint total_span (cap : Z) (ts : list Task.t) : Z :=
  match ts with
  | [] => 0
  | t :: ts' => task_span cap t + total_span cap ts'
  end.

(** How an entry of the schedule reflects its task. *)
Definition entry_of (cap : Z) (t : Task.t) (e : Scheduled.t) : Prop :=
  Task.id t = Some (Scheduled.id e) ∧
  Scheduled.title e = Task.title t ∧
  Scheduled.role e = get_role t ∧
  Scheduled.hours e = hours_or_zero t ∧
  Scheduled.depends_on e = listed_deps t ∧
  Scheduled.duration_days e = task_span cap t ∧
  Task.hours t ≠ Null ∧ cap ≠ 0.

(** Both dates of an entry are dates; the entry starts no earlier than the
    project and lasts [duration_days] days, the last one included. *)
Definition well_dated (project_start : datetime) (e : Scheduled.t) : Prop :=
  parses (Scheduled.start_date e) ∧ parses (Scheduled.end_date e) ∧
  ordinal project_start <= day_of (Scheduled.start_date e) ∧
  day_of (Scheduled.end_date e) =
    day_of (Scheduled.start_date e) + Scheduled.duration_days e - 1 ∧
  1 <= Scheduled.duration_days e ∧
  Scheduled.start_date e = _format_date (mkdt (day_of (Scheduled.start_date e)) 0) ∧
  Scheduled.end_date e = _format_date (mkdt (day_of (Scheduled.end_date e)) 0).

Record sched_inv (project_start : datetime) (cap : Z)
    (done : list Task.t) (st : sched_state) : Prop := {
  inv_nodup : NoDup (dict_keys (dates_for_id st));
  inv_keys : dict_keys (dates_for_id st) = Scheduled.id <$> dict_values (dates_for_id st);
  inv_entries : Forall2 (entry_of cap) done (dict_values (dates_for_id st));
  inv_dated : Forall (well_dated project_start) (dict_values (dates_for_id st));
  (** an earlier entry of the same role, or one that a later entry lists as
      a dependency, ends before the later entry starts *)
  inv_order : ∀ i j ei ej,
    (i < j)%nat →
    dict_values (dates_for_id st) !! i = Some ei →
    dict_values (dates_for_id st) !! j = Some ej →
    Scheduled.role ei = Scheduled.role ej ∨ Scheduled.id ei ∈ Scheduled.depends_on ej →
    day_of (Scheduled.end_date ei) < day_of (Scheduled.start_date ej);
  inv_free : ∀ r nf, role_next_free st !! r = Some nf →
    ordinal project_start <= ordinal nf <= MAXORD ∧
    ordinal nf <= ordinal project_start + total_span cap done;
  (** a role is free from the day after the end of one of its entries *)
  inv_free_used : ∀ r nf, role_next_free st !! r = Some nf →
    ∃ i e, dict_values (dates_for_id st) !! i = Some e ∧ Scheduled.role e = r ∧
           ordinal nf = day_of (Scheduled.end_date e) + 1;
  (** an entry starts with the project, or on the day after an earlier entry
      of its role or an earlier entry that it lists as a dependency *)
  inv_tight : ∀ j ej, dict_values (dates_for_id st) !! j = Some ej →
    day_of (Scheduled.start_date ej) = ordinal project_start ∨
    ∃ i ei, (i < j)%nat ∧ dict_values (dates_for_id st) !! i = Some ei ∧
            (Scheduled.role ei = Scheduled.role ej ∨
             Scheduled.id ei ∈ Scheduled.depends_on ej) ∧
            day_of (Scheduled.start_date ej) = day_of (Scheduled.end_date ei) + 1;
  inv_track : ∀ e, e ∈ dict_values (dates_for_id st) →
    ∃ nf, role_next_free st !! Scheduled.role e = Some nf ∧
          day_of (Scheduled.end_date e) < ordinal nf;
  inv_bound : ∀ e, e ∈ dict_values (dates_for_id st) →
    day_of (Scheduled.end_date e) < ordinal project_start + total_span cap done
}.

(** Iterating a set yields every member once, in some order. *)
Definition iterates_members (set_iter : list string → list string) : Prop :=
  ∀ s, set_iter s ≡ₚ s.

(** The task records for which the engine has a rule: an [id] is there, and
    [hours] and [depends_on] are not [null]. *)
Definition well_formed (t : Task.t) : Prop :=
  is_Some (Task.id t) ∧ Task.hours t ≠ Null ∧ Task.depends_on t ≠ Null.

(** The calendar has room for the project: even if every task were laid end
    to end, the last day would not pass 31.12.9999. *)
Definition fits_calendar (tasks : list Task.t) (project_start : datetime) (cap : Z) : Prop :=
  ordinal project_start + total_span cap tasks <= MAXORD.

(** The first date is an earlier calendar day than the second. *)
Definition date_before (s1 s2 : string) : Prop :=
  ∃ d1 d2, strptime s1 = Return d1 ∧ strptime s2 = Return d2 ∧ ordinal d1 < ordinal d2.

(** The first date is the same calendar day as the second, or an earlier one. *)
Definition date_not_after (s1 s2 : string) : Prop :=
  ∃ d1 d2, strptime s1 = Return d1 ∧ strptime s2 = Return d2 ∧ ordinal d1 <= ordinal d2.

(** [q] is [h / cap] rounded up, for a positive [cap]. *)
Definition ceiling_of (h cap q : Z) : Prop := (q - 1) * cap < h <= q * cap.

(** [b] is the integer nearest to a fifth of [d] (a fifth of an integer is
    never half way between two integers). *)
Definition nearest_to_fifth (d b : Z) : Prop := -2 <= 5 * b - d <= 2.

(** The day after: the second date is the calendar day that follows the first. *)
Definition date_next (s1 s2 : string) : Prop :=
  ∃ d1 d2, strptime s1 = Return d1 ∧ strptime s2 = Return d2 ∧ ordinal d2 = ordinal d1 + 1.

(** Two moments of the same calendar day. *)
Definition same_day (a b : datetime) : Prop := ordinal a = ordinal b.

(** Two outcomes of the same kind whose results, if any, are related. *)
Definition result_rel {A} (R : A → A → Prop) (x y : result A) : Prop :=
  match x, y with
  | Return a, Return b => R a b
  | Raise e, Raise e' => e = e'
  | OutOfFuel, OutOfFuel => True
  | _, _ => False
  end.

(** The states of two scheduling loops agree on the schedule, and on the day
    from which each role is free. *)
Definition sched_same_days (st st' : sched_state) : Prop :=
  dates_for_id st = dates_for_id st' ∧
  ∀ r, option_Forall2 same_day (role_next_free st !! r) (role_next_free st' !! r).

(** Two timelines that agree on everything but [total_work_days]. *)
Definition same_but_total (tl tl' : Timeline.t) : Prop :=
  Timeline.project_start tl = Timeline.project_start tl' ∧
  Timeline.project_end tl = Timeline.project_end tl' ∧
  Timeline.role_days tl = Timeline.role_days tl' ∧
  Timeline.task_schedule tl = Timeline.task_schedule tl'.

(** * Sample inputs *)

Definition sample_tasks : list Task.t :=
  [ Task.mk (Some "T1") (Some "API") (Val 8) (Some "backend") (Val []);
    Task.mk (Some "T2") None Absent (Some "design") Absent;
    Task.mk None (Some "Untitled") (Val 3) None (Val ["T1"]) ]%string.

(** A plan with a dependency cycle ([T2] and [T3]), a dangling reference
    ([T9]), a task without hours, a role outside the rate table and an id
    that occurs twice. *)
Definition tangled_tasks : list Task.t :=
  [ Task.mk (Some "T1") (Some "Schema") (Val 8) (Some "backend") (Val []);
    Task.mk (Some "T2") (Some "API") (Val 13) (Some "backend") (Val ["T1"; "T3"]);
    Task.mk (Some "T3") (Some "Screens") Absent (Some "design") (Val ["T2"; "T9"]);
    Task.mk (Some "T4") None (Val 0) None Absent;
    Task.mk (Some "T1") (Some "Schema, again") (Val 30) (Some "backend") (Val []) ]%string.

Definition afternoon_2024_01_01 : datetime := mkdt (ordinal_of_civil 2024 1 1) 54000000000.

Definition midnight_2024_01_01 : datetime := date_of 2024 1 1.

(** What [estimate_timeline] returns for [tangled_tasks] from the afternoon
    of 01.01.2024 at six hours a day, when sets iterate in reverse. *)
Definition tangled_T4 : Scheduled.t :=
  Scheduled.mk "T4" None "default" 0 "01.01.2024" "01.01.2024" 1 [].
Definition tangled_T1 : Scheduled.t :=
  Scheduled.mk "T1" (Some "Schema, again") "backend" 30 "01.01.2024" "06.01.2024" 6 [].
Definition tangled_T3 : Scheduled.t :=
  Scheduled.mk "T3" (Some "Screens") "design" 0 "01.01.2024" "01.01.2024" 1 ["T2"; "T9"].
Definition tangled_T2 : Scheduled.t :=
  Scheduled.mk "T2" (Some "API") "backend" 13 "07.01.2024" "10.01.2024" 4 ["T1"; "T3"].
Definition tangled_timeline : Timeline.t :=
  Timeline.mk "01.01.2024" "10.01.2024" 9
    [("default", 1); ("backend", 10); ("design", 1)]
    [tangled_T4; tangled_T1; tangled_T3; tangled_T2].

(** [A] waits for [B], while [B] and [C] wait for each other. *)
Definition cycle_behind_tasks : list Task.t :=
  [ Task.mk (Some "A") None (Val 8) (Some "backend") (Val ["B"]);
    Task.mk (Some "B") None (Val 8) (Some "frontend") (Val ["C"]);
    Task.mk (Some "C") None (Val 8) (Some "qa") (Val ["B"]) ].

(** Scenario 1 of the specification: two independent tasks of one role. *)
Definition two_backend_tasks : list Task.t :=
  [ Task.mk (Some "T1") (Some "Task1") (Val 8) (Some "backend") (Val []);
    Task.mk (Some "T2") (Some "Task2") (Val 8) (Some "backend") (Val []) ].

(** Scenario 4 of the specification: [A] and [B] wait for each other. *)
Definition circular_tasks : list Task.t :=
  [ Task.mk (Some "A") None (Val 8) (Some "backend") (Val ["B"]);
    Task.mk (Some "B") None (Val 8) (Some "frontend") (Val ["A"]) ].

Definition one_hour_task : list Task.t :=
  [ Task.mk (Some "T1") (Some "Fix typo") (Val 1) (Some "qa") (Val []) ].

Definition task_with_null_depends_on : Task.t :=
  Task.mk (Some "T1") None (Val 3) (Some "qa") Null.

(** * The text helpers, the reply of the model and the analysis *)

(** ** Text

    A Python [str] is the sequence of its code points, a [list N]. *)
Definition chr (a : ascii) : N := N_of_ascii a.

(** An ASCII literal as a [str]. *)
Definition py (s : string) : list N := chr <$> list_ascii_of_string s.

(** [str.isspace] of one character; [\s] of [re] on a [str] pattern is the
    same set: TAB to CR, FS to US, SPACE, NEL, NBSP and the Unicode spaces. *)
Definition is_space (c : N) : bool :=
  ((9 <=? c) && (c <=? 13) || (28 <=? c) && (c <=? 32) || (c =? 133) || (c =? 160)
   || (c =? 5760) || (8192 <=? c) && (c <=? 8202) || (c =? 8232) || (c =? 8233)
   || (c =? 8239) || (c =? 8287) || (c =? 12288))%N.
Arguments is_space : simpl never.

Definition SPACE : N := 32%N.
Definition NEWLINE : N := 10%N.
Definition LBRACE : N := 123%N.
Definition RBRACE : N := 125%N.
Definition SLASH : N := 47%N.
Definition BACKTICK : N := 96%N.

(** ** Regular expressions

    The part of [re] that the module uses: a pattern is a sequence of
    literals, character classes, greedy and lazy stars of a class, the two
    parentheses of one group, and [$] under [re.MULTILINE].  Matching
    backtracks as [re] does: a greedy star tries the longest run first, a
    lazy star the shortest. *)
Inductive atom : Type :=
| Chr (c : N)
| Cls (p : N → bool)
| Greedy (p : N → bool)
| Lazy (p : N → bool)
| Mark
| Eol.

(** A match: the text that was still ahead at each parenthesis, and the text
    after the match. *)
Definition found : Type := list (list N) * list N.

Fixpoint greedy_star (p : N → bool) (k : list N → option found) (s : list N)
  : option found :=
  match s with
  | c :: s' =>
      if p c then
        match greedy_star p k s' with
        | Some r => Some r
        | None => k s
        end
      else k s
  | [] => k []
  end.

Fixpoint lazy_star (p : N → bool) (k : list N → option found) (s : list N)
  : option found :=
  match k s with
  | Some r => Some r
  | None =>
      match s with
      | c :: s' => if p c then lazy_star p k s' else None
      | [] => None
      end
  end.

(** A match of the pattern at the start of [s], the first one in the order
    in which [re] tries them. *)
Fixpoint rmatch (pat : list atom) : list N → option found :=
  match pat with
  | [] => λ s, Some ([], s)
  | a :: pat' =>
      let k := rmatch pat' in
      match a with
      | Chr c => λ s, match s with
                      | x :: s' => if (x =? c)%N then k s' else None
                      | [] => None
                      end
      | Cls p => λ s, match s with
                      | x :: s' => if p x then k s' else None
                      | [] => None
                      end
      | Greedy p => greedy_star p k
      | Lazy p => lazy_star p k
      | Mark => λ s, match k s with
                     | Some (marks, rest) => Some (s :: marks, rest)
                     | None => None
                     end
      | Eol => λ s, match s with
                    | [] => k []
                    | x :: _ => if (x =? NEWLINE)%N then k s else None
                    end
      end
  end.

(** [re.search(pat, s)]: the match at the leftmost position that has one. *)
Fixpoint re_search (pat : list atom) (s : list N) : option found :=
  match rmatch pat s with
  | Some r => Some r
  | None =>
      match s with
      | [] => None
      | _ :: s' => re_search pat s'
      end
  end.

(** [m.group(1)]: the text between the two parentheses. *)
Definition group1 (m : found) : list N :=
  match m.1 with
  | opened :: closed :: _ => take (length opened - length closed) opened
  | _ => []
  end.

(** [re.sub(pat, repl, s)] for a constant [repl] and a pattern that matches
    no empty text (as both patterns below): every match, found from left to
    right after the previous one, is replaced.  Each step uses up a
    character, so [length s] steps are enough. *)
Fixpoint re_sub_from (fuel : nat) (pat : list atom) (repl s : list N) : list N :=
  match fuel, s with
  | S fuel', c :: s' =>
      match rmatch pat s with
      | Some (_, rest) =>
          if (length rest <? length s)%nat
          then repl ++ re_sub_from fuel' pat repl rest
          else c :: re_sub_from fuel' pat repl s'
      | None => c :: re_sub_from fuel' pat repl s'
      end
  | _, _ => s
  end.

Definition re_sub (pat : list atom) (repl s : list N) : list N :=
  re_sub_from (length s) pat repl s.

(** [s.lstrip()], [s.rstrip()] and [s.strip()] *)
Fixpoint str_lstrip (s : list N) : list N :=
  match s with
  | c :: s' => if is_space c then str_lstrip s' else s
  | [] => []
  end.

Definition str_rstrip (s : list N) : list N := reverse (str_lstrip (reverse s)).

Definition str_strip (s : list N) : list N := str_rstrip (str_lstrip s).

(** The pattern [\s+]. *)
Definition SPACES_RE : list atom := [Cls is_space; Greedy is_space].

(** [re.sub(r'\s+', ' ', s).strip()] *)
Definition _clean_text (s : list N) : list N :=
  str_strip (re_sub SPACES_RE [SPACE] s).

(** The pattern [```json\s*(\{.*?\})\s*```] under [re.DOTALL], where [.] is
    any character. *)
Definition FENCED_JSON_RE : list atom :=
  (Chr <$> py "```json")
  ++ [Greedy is_space; Mark; Chr LBRACE; Lazy (λ _, true); Chr RBRACE; Mark;
      Greedy is_space]
  ++ (Chr <$> py "```").

(** [text[start:]] for [start = text.find("{")], if there is a brace. *)
Fixpoint from_first_brace (text : list N) : option (list N) :=
  match text with
  | [] => None
  | c :: text' => if (c =? LBRACE)%N then Some text else from_first_brace text'
  end.

(** The loop [for i in range(start, len(text))] on the text from [start] on:
    the number of characters up to the brace that takes [depth] back to 0,
    that brace included, if the loop returns. *)
Fixpoint scan_braces (depth : Z) (s : list N) : option nat :=
  match s with
  | [] => None
  | c :: s' =>
      if (c =? LBRACE)%N then S <$> scan_braces (depth + 1) s'
      else if (c =? RBRACE)%N then
        if depth - 1 =? 0 then Some 1%nat else S <$> scan_braces (depth - 1) s'
      else S <$> scan_braces depth s'
  end.

Definition _extract_json_block (text : list N) : option (list N) :=
  match re_search FENCED_JSON_RE text with
  | Some m => Some (group1 m)
  | None =>
      match from_first_brace text with
      | None => None
      | Some s => (λ n, take n s) <$> scan_braces 0 s
      end
  end.

(** The pattern [//.*?$] under [re.MULTILINE]: [.] is any character but the
    newline, [$] stands at the end of a line. *)
Definition LINE_COMMENT_RE : list atom :=
  [Chr SLASH; Chr SLASH; Lazy (λ c, negb (c =? NEWLINE)%N); Eol].

(** [cleaned = re.sub(r"//.*?$", "", json_block, flags=re.MULTILINE)] *)
Definition cleaned (json_block : list N) : list N :=
  re_sub LINE_COMMENT_RE [] json_block.

Section reply.
Context {J : Type}.
(** [json.loads], with [None] for [JSONDecodeError]. *)
Variable json_loads : list N → option J.

(** [generate_tasks_from_spec] from the reply of the model on: the JSON
    block is parsed as it is, and once more without its line comments if
    that fails. *)
Definition parse_reply (raw_response : list N) : result J :=
  match _extract_json_block raw_response with
  | None | Some [] => Raise ValueError
  | Some json_block =>
      match json_loads json_block with
      | Some parsed => Return parsed
      | None =>
          match json_loads (cleaned json_block) with
          | Some parsed => Return parsed
          | None => Raise ValueError
          end
      end
  end.
End reply.

(** ** The analysis *)

Module Analysis.
Record t : Type := mk {
  tasks : list Task.t;
  cost_estimate : CostEstimate.t;
  timeline_estimate : Timeline.t;
  generated_at : string
}.
End Analysis.

(** [analyze_project] from the parsed tasks on.  The two calls of
    [datetime.now()] are [started] and [generated]; the rates and the daily
    capacity are the defaults. *)
Definition analyze_tasks (set_iter : list string → list string)
    (tasks : list Task.t) (started generated : datetime) : result Analysis.t :=
  do cost <- estimate_cost tasks None;
  do timeline <- estimate_timeline set_iter tasks started 6;
  Return (Analysis.mk tasks cost timeline (_format_date generated)).

(** ** Vocabulary for the text helpers *)

(** The text starts with a character that is no whitespace. *)
Definition starts_word (s : list N) : bool :=
  match s with
  | c :: _ => negb (is_space c)
  | [] => false
  end.

(** The words of a text: its maximal runs of characters that are no
    whitespace, from left to right. *)
Fixpoint words (s : list N) : list (list N) :=
  match s with
  | [] => []
  | c :: s' =>
      if is_space c then words s'
      else if starts_word s' then
             match words s' with
             | w :: ws => (c :: w) :: ws
             | [] => [[c]]
             end
           else [c] :: words s'
  end.

(** The texts [ws] in a row, with [sep] between two of them. *)
Fixpoint join_with (sep : list N) (ws : list (list N)) : list N :=
  match ws with
  | [] => []
  | [w] => w
  | w :: ws' => w ++ sep ++ join_with sep ws'
  end.

(** Every whitespace character is a SPACE that is followed by a character
    which is no whitespace. *)
Fixpoint single_spaced (s : list N) : Prop :=
  match s with
  | [] => True
  | c :: s' => (is_space c = true → c = SPACE ∧ starts_word s' = true) ∧ single_spaced s'
  end.

(** A text without whitespace at its start and its end, and with single
    SPACEs as the only whitespace inside. *)
Definition clean_form (s : list N) : Prop :=
  (s = [] ∨ starts_word s = true) ∧ single_spaced s.

(** The rest of the text from the end of its first line on. *)
Fixpoint to_eol (s : list N) : list N :=
  match s with
  | c :: s' => if (c =? NEWLINE)%N then s else to_eol s'
  | [] => []
  end.

(** [pat] occurs in [text]. *)
Definition occurs_in (pat text : list N) : Prop :=
  ∃ pre post, text = pre ++ pat ++ post.

(** Opening braces minus closing braces. *)
Fixpoint brace_depth (s : list N) : Z :=
  match s with
  | [] => 0
  | c :: s' =>
      (if (c =? LBRACE)%N then 1 else if (c =? RBRACE)%N then -1 else 0) + brace_depth s'
  end.

(** A text that opens a brace with its first character and closes that brace
    with its last one, and not before. *)
Definition balanced_object (r : list N) : Prop :=
  head r = Some LBRACE ∧ brace_depth r = 0 ∧
  ∀ k, (0 < k < length r)%nat → 0 < brace_depth (take k r).

(** The text starts with [//]; the text holds [//] somewhere. *)
Definition starts_comment (s : list N) : bool :=
  match s with
  | c1 :: c2 :: _ => (c1 =? SLASH)%N && (c2 =? SLASH)%N
  | _ => false
  end.

Fixpoint has_comment (s : list N) : bool :=
  match s with
  | [] => false
  | _ :: s' => starts_comment s || has_comment s'
  end.

(** ** Vocabulary for the estimates *)

(** The cost line of a task under a rate table. *)
Definition line_of (rates : gmap string Z) (t : Task.t) : CostLine.t :=
  let rate := resolved_rate rates (default 0 (rates !! "default"%string)) t in
  CostLine.mk (Task.id t) (Task.title t) (hours_or_zero t) (get_role t) rate
              (hours_or_zero t * rate).

(** The days of the entries of one role, and of all entries. *)
Fixpoint days_of_role (r : string) (es : list Scheduled.t) : Z :=
  match es with
  | [] => 0
  | e :: es' =>
      (if decide (Scheduled.role e = r) then Scheduled.duration_days e else 0)
      + days_of_role r es'
  end.

Fixpoint total_duration (es : list Scheduled.t) : Z :=
  match es with
  | [] => 0
  | e :: es' => Scheduled.duration_days e + total_duration es'
  end.

(** The cost line and the schedule entry are about the same task. *)
Definition same_task (l : CostLine.t) (e : Scheduled.t) : Prop :=
  CostLine.id l = Some (Scheduled.id e) ∧
  CostLine.title l = Scheduled.title e ∧
  CostLine.role l = Scheduled.role e ∧
  CostLine.hours l = Scheduled.hours e.

(** ** Sample texts *)

(** A reply with prose around a fenced block, and a reply with bare objects. *)
Definition fenced_reply : list N :=
  py "Plan: {draft}" ++ NEWLINE :: py "```json" ++ NEWLINE :: py "{tasks: [{id: T1}]}"
  ++ NEWLINE :: py "``` done".

Definition bare_reply : list N := py "ok {a{b}c} then {d".

(** * Properties *)

(** ** The outcome monad *)

Lemma bind_Return {A B} (m : result A) (f : A → result B) b :
  bind m f = Return b ↔ ∃ a, m = Return a ∧ f a = Return b.
Proof.
  destruct m as [a| |]; simpl; split.
  - intros Hf. eauto.
  - intros (a' & [= ->] & Hf). exact Hf.
  - discriminate.
  - intros (a' & [=] & _).
  - discriminate.
  - intros (a' & [=] & _).
Qed.

Ltac inv_bind H :=
  repeat match type of H with
  | bind _ _ = Return _ =>
      let x := fresh "x" in
      let Hx := fresh "Hx" in
      apply bind_Return in H as (x & Hx & H)
  end.

Lemma subscript_Return {A} (o : option A) a : subscript o = Return a ↔ o = Some a.
Proof. destruct o; simpl; split; congruence. Qed.

(** An invariant that every successful step keeps holds at the end of a
    successful loop.  The invariant sees the items already processed. *)
Lemma foldM_invariant {A B} (P : A → list B → Prop) (f : A → B → result A) l :
  ∀ done acc r,
    foldM f acc l = Return r →
    P acc done →
    (∀ acc x acc' pre suf, done ++ l = pre ++ x :: suf →
        P acc pre → f acc x = Return acc' → P acc' (pre ++ [x])) →
    P r (done ++ l).
Proof.
  induction l as [|x l IH]; intros done acc r Hrun HP Hstep; simpl in Hrun.
  - injection Hrun as <-. by rewrite app_nil_r.
  - inv_bind Hrun. rewrite cons_middle, app_assoc.
    apply (IH _ x0); [done| |].
    + by apply (Hstep acc x x0 done l).
    + intros acc0 y acc' pre suf Heq. apply Hstep with suf.
      by rewrite <- Heq, <- app_assoc.
Qed.

(** A loop whose steps all succeed under an invariant succeeds. *)
Lemma foldM_returns {A B} (P : A → list B → Prop) (f : A → B → result A) l :
  ∀ done acc,
    P acc done →
    (∀ acc x pre suf, done ++ l = pre ++ x :: suf →
        P acc pre → ∃ acc', f acc x = Return acc' ∧ P acc' (pre ++ [x])) →
    ∃ r, foldM f acc l = Return r ∧ P r (done ++ l).
Proof.
  induction l as [|x l IH]; intros done acc HP Hstep; simpl.
  - exists acc. by rewrite app_nil_r.
  - destruct (Hstep acc x done l) as (acc' & -> & HP'); [done | done |].
    simpl. rewrite cons_middle, app_assoc.
    apply IH; [done|].
    intros acc0 y pre suf Heq. apply Hstep with suf.
    by rewrite <- Heq, <- app_assoc.
Qed.

Lemma foldM_app {A B} (f : A → B → result A) l1 l2 acc :
  foldM f acc (l1 ++ l2) = bind (foldM f acc l1) (λ acc', foldM f acc' l2).
Proof.
  revert acc. induction l1 as [|x l1 IH]; intros acc; simpl; [done|].
  destruct (f acc x); simpl; auto.
Qed.

Lemma filterM_Return {A} (p : A → result bool) l r :
  filterM p l = Return r →
  ∃ bs, Forall2 (λ x b, p x = Return b) l bs ∧
        r = (zip l bs).*1.
Proof. Abort.
(** ** Dictionaries *)

Section dict_facts.
Context {V : Type}.
Implicit Types (d : dict V) (k : string) (v : V).

Lemma dict_get_set d k k' v :
  dict_get (dict_set d k v) k' = if decide (k' = k) then Some v else dict_get d k'.
Proof.
  induction d as [|[k0 v0] d IH]; simpl.
  - done.
  - destruct (decide (k = k0)) as [->|Hne]; simpl.
    + destruct (decide (k' = k0)); done.
    + rewrite IH. destruct (decide (k' = k0)) as [->|]; [|done].
      rewrite decide_False; [done|]. congruence.
Qed.

Lemma dict_get_Some_keys d k : is_Some (dict_get d k) ↔ k ∈ dict_keys d.
Proof.
  unfold dict_keys. induction d as [|[k0 v0] d IH]; simpl.
  - split; [intros [? [=]] | intros ?%elem_of_nil; done].
  - destruct (decide (k = k0)) as [->|Hne].
    + split; [intros _; left | eauto].
    + rewrite IH. split; [by right|]. intros [?|?]%elem_of_cons; [done|done].
Qed.

Lemma dict_get_None_keys d k : dict_get d k = None ↔ k ∉ dict_keys d.
Proof. rewrite <- dict_get_Some_keys, eq_None_not_Some. done. Qed.

Lemma dict_get_values d k v : dict_get d k = Some v → v ∈ dict_values d.
Proof.
  unfold dict_values. induction d as [|[k0 v0] d IH]; simpl; [done|].
  destruct (decide (k = k0)); [intros [= ->]; left | intros ?; right; auto].
Qed.

(** A new key is appended at the end. *)
Lemma dict_set_fresh d k v : k ∉ dict_keys d → dict_set d k v = d ++ [(k, v)].
Proof.
  unfold dict_keys. induction d as [|[k0 v0] d IH]; simpl; [done|].
  intros [Hne Hnot]%not_elem_of_cons.
  destruct (decide (k = k0)); [done|]. by rewrite IH.
Qed.

(** Assigning to a known key changes neither the keys nor their order. *)
Lemma dict_keys_set_known d k v : k ∈ dict_keys d → dict_keys (dict_set d k v) = dict_keys d.
Proof.
  unfold dict_keys. induction d as [|[k0 v0] d IH]; simpl.
  - by intros ?%elem_of_nil.
  - intros Hin. destruct (decide (k = k0)) as [->|Hne]; simpl; [done|].
    f_equal. apply IH. by apply elem_of_cons in Hin as [?|?].
Qed.

Lemma dict_keys_set_fresh d k v : k ∉ dict_keys d → dict_keys (dict_set d k v) = dict_keys d ++ [k].
Proof. intros H. rewrite dict_set_fresh by done. unfold dict_keys. by rewrite fmap_app. Qed.

Lemma dict_values_set_fresh d k v :
  k ∉ dict_keys d → dict_values (dict_set d k v) = dict_values d ++ [v].
Proof. intros H. rewrite dict_set_fresh by done. unfold dict_values. by rewrite fmap_app. Qed.

Lemma dict_keys_set_NoDup d k v : NoDup (dict_keys d) → NoDup (dict_keys (dict_set d k v)).
Proof.
  intros Hnd. destruct (decide (k ∈ dict_keys d)) as [Hin|Hnot].
  - by rewrite dict_keys_set_known.
  - rewrite dict_keys_set_fresh; [|done].
    apply NoDup_app. split_and!; [done| |apply NoDup_singleton].
    intros x Hx ->%list_elem_of_singleton. done.
Qed.

Lemma dict_keys_set_elem d k v k' : k' ∈ dict_keys (dict_set d k v) ↔ k' = k ∨ k' ∈ dict_keys d.
Proof.
  rewrite <- !dict_get_Some_keys, dict_get_set.
  destruct (decide (k' = k)) as [->|Hne]; [split; eauto|].
  split; [by right | by intros [?|?]].
Qed.

Lemma dict_length_set d k v : (length (dict_set d k v) ≤ S (length d))%nat.
Proof.
  induction d as [|[k0 v0] d IH]; simpl; [lia|].
  destruct (decide (k = k0)); simpl; lia.
Qed.
End dict_facts.

(** ** Dates *)

Lemma digit_val_digit n : digit_val (digit n) = Some (n mod 10).
Proof.
  unfold digit.
  assert (H : 0 <= n mod 10 < 10) by lia.
  revert H. generalize (n mod 10). intros r H.
  assert (Hr : r = 0 ∨ r = 1 ∨ r = 2 ∨ r = 3 ∨ r = 4 ∨ r = 5 ∨ r = 6 ∨
               r = 7 ∨ r = 8 ∨ r = 9) by lia.
  repeat destruct Hr as [-> | Hr]; try subst r; reflexivity.
Qed.

(** The year within a 400-year era, the day within that year, and the leap
    day, as the era arithmetic of [civil_of_ordinal] finds them. *)
Lemma year_of_era_range doe :
  0 <= doe < 146097 →
  let yoe := (doe - doe / 1460 + doe / 36524 - doe / 146096) / 365 in
  0 <= yoe <= 399 ∧ 0 <= doe - (365 * yoe + yoe / 4 - yoe / 100) <= 365 ∧
  (doe - (365 * yoe + yoe / 4 - yoe / 100) = 365 →
     (yoe + 1) mod 4 = 0 ∧ ((yoe + 1) mod 100 ≠ 0 ∨ (yoe + 1) mod 400 = 0)).
Proof. intros H yoe. subst yoe. repeat split; lia. Qed.

(** [civil_of_ordinal] yields a date of the calendar, and [ordinal_of_civil]
    inverts it. *)
Lemma civil_of_ordinal_spec n y m d :
  MINORD <= n <= MAXORD →
  civil_of_ordinal n = (y, m, d) →
  1 <= y <= 9999 ∧ 1 <= m <= 12 ∧ 1 <= d <= days_in_month y m ∧
  ordinal_of_civil y m d = n.
Proof.
  unfold MINORD, MAXORD, civil_of_ordinal.
  intros Hn.
  assert (Hera : 0 <= (n + 305) / 146097 <= 24) by lia.
  assert (Hdoe : 0 <= (n + 305) mod 146097 < 146097) by lia.
  assert (Hz : n + 305 = 146097 * ((n + 305) / 146097) + (n + 305) mod 146097) by lia.
  assert (Hlast : (n + 305) / 146097 = 24 → (n + 305) mod 146097 <= 146036) by lia.
  generalize dependent ((n + 305) / 146097). intros era.
  generalize dependent ((n + 305) mod 146097). intros doe.
  intros Hdoe Hz Hera Hlast.
  pose proof (year_of_era_range doe Hdoe) as Hy. cbv zeta in Hy.
  generalize dependent ((doe - doe / 1460 + doe / 36524 - doe / 146096) / 365).
  intros yoe (Hyoe & Hdoy & Hleap) [= <- <- <-].
  unfold ordinal_of_civil, days_in_month, is_leap.
  repeat match goal with
  | |- context [if ?b then _ else _] => destruct b eqn:?
  end; lia.
Qed.

(** Parsing what [_format_date] wrote gives the same day at midnight. *)
Lemma strptime_format dt :
  MINORD <= ordinal dt <= MAXORD →
  strptime (_format_date dt) = Return (mkdt (ordinal dt) 0).
Proof.
  intros Hr. unfold _format_date.
  destruct (civil_of_ordinal (ordinal dt)) as [[y m] d] eqn:Hc.
  destruct (civil_of_ordinal_spec _ _ _ _ Hr Hc) as (Hy & Hm & Hd & Ho).
  assert (Hd31 : d <= 31).
  { revert Hd. unfold days_in_month. repeat case_match; lia. }
  unfold pad4, pad2, strptime. rewrite !digit_val_digit.
  replace (10 * ((d / 10) mod 10) + d mod 10) with d by lia.
  replace (10 * ((m / 10) mod 10) + m mod 10) with m by lia.
  replace (1000 * ((y / 1000) mod 10) + 100 * ((y / 100) mod 10) +
           10 * ((y / 10) mod 10) + y mod 10) with y by lia.
  rewrite Ho.
  replace ((1 <=? y) && (1 <=? m) && (m <=? 12) && (1 <=? d) && (d <=? days_in_month y m))
    with true; [done|].
  symmetry. rewrite !andb_true_iff, !Z.leb_le. lia.
Qed.

Lemma ordinal_dt_max a b : ordinal (dt_max a b) = Z.max (ordinal a) (ordinal b).
Proof.
  unfold dt_max, dt_ltb.
  destruct (ordinal a <? ordinal b) eqn:H1; simpl; [lia|].
  destruct (ordinal a =? ordinal b) eqn:H2; simpl; [|lia].
  destruct (micros a <? micros b); lia.
Qed.

Lemma dt_max_cases a b : dt_max a b = a ∨ dt_max a b = b.
Proof. unfold dt_max. destruct (dt_ltb a b); auto. Qed.

Lemma dt_max_list_in e es : dt_max_list e es ∈ e :: es.
Proof.
  unfold dt_max_list. revert e. induction es as [|x es IH]; intros e; simpl; [left|].
  specialize (IH (dt_max e x)). apply elem_of_cons in IH as [->|IH].
  - destruct (dt_max_cases e x) as [-> | ->]; [left | right; left].
  - right; by right.
Qed.

Lemma dt_max_list_start e es : ordinal e <= ordinal (dt_max_list e es).
Proof.
  unfold dt_max_list. revert e. induction es as [|y es IH]; intros e; simpl; [lia|].
  specialize (IH (dt_max e y)). rewrite ordinal_dt_max in IH. lia.
Qed.

Lemma dt_max_list_upper e es x : x ∈ e :: es → ordinal x <= ordinal (dt_max_list e es).
Proof.
  revert e. induction es as [|y es IH]; intros e.
  - intros ->%list_elem_of_singleton. unfold dt_max_list. simpl. lia.
  - intros Hx. change (dt_max_list e (y :: es)) with (dt_max_list (dt_max e y) es).
    pose proof (dt_max_list_start (dt_max e y) es) as Hs. rewrite ordinal_dt_max in Hs.
    apply elem_of_cons in Hx as [->|Hx]; [lia|].
    apply elem_of_cons in Hx as [->|Hx]; [lia|].
    apply IH. by right.
Qed.

Lemma add_days_Return dt n r :
  add_days dt n = Return r ↔
  r = mkdt (ordinal dt + n) (micros dt) ∧ MINORD <= ordinal dt + n <= MAXORD.
Proof.
  unfold add_days.
  destruct ((MINORD <=? ordinal dt + n) && (ordinal dt + n <=? MAXORD)) eqn:Hb.
  - apply andb_true_iff in Hb as [?%Z.leb_le ?%Z.leb_le].
    split; [intros [= <-] | intros [-> _]]; auto with lia.
  - split; [discriminate|]. intros [_ Hr].
    apply andb_false_iff in Hb as [?%Z.leb_gt | ?%Z.leb_gt]; lia.
Qed.
Example format_example : _format_date (date_of 2024 1 1) = "01.01.2024"%string.
Proof. vm_compute. reflexivity. Qed.

Example format_leap : _format_date (mkdt (ordinal_of_civil 2024 2 29) 17) = "29.02.2024"%string.
Proof. vm_compute. reflexivity. Qed.

Example ordinal_unix_epoch : ordinal_of_civil 1970 1 1 = 719163.
Proof. reflexivity. Qed.

Example ordinal_max : ordinal_of_civil 9999 12 31 = MAXORD.
Proof. reflexivity. Qed.

Example strptime_example : strptime "03.01.2024" = Return (date_of 2024 1 3).
Proof. vm_compute. reflexivity. Qed.

(** ** Cost estimate *)

Lemma sum_costs_app ls1 ls2 : sum_costs (ls1 ++ ls2) = sum_costs ls1 + sum_costs ls2.
Proof. induction ls1 as [|l ls1 IH]; simpl; lia. Qed.

Lemma int_hours_Return t h : int_hours t = Return h → h = hours_or_zero t ∧ Task.hours t ≠ Null.
Proof. unfold int_hours, hours_or_zero. destruct (Task.hours t); naive_solver. Qed.

Lemma int_hours_not_null t : Task.hours t ≠ Null → int_hours t = Return (hours_or_zero t).
Proof. unfold int_hours, hours_or_zero. by destruct (Task.hours t). Qed.

Lemma cost_step_line rates fallback acc t :
  rates !! "default"%string = Some fallback →
  Task.hours t ≠ Null →
  ∃ l, cost_step rates acc t =
         Return (CostEstimate.mk (CostEstimate.breakdown acc ++ [l])
                                 (CostEstimate.total acc + CostLine.cost l))
       ∧ cost_line_of rates fallback t l.
Proof.
  intros Hd Hh. unfold cost_step. rewrite (int_hours_not_null _ Hh), Hd. simpl.
  eexists (CostLine.mk _ _ _ _ _ _). split; [reflexivity|].
  unfold cost_line_of, resolved_rate, get_role; simpl. split_and!; try done.
  destruct (Task.role t) as [r|]; simpl; [done|]. by rewrite Hd.
Qed.




(** ** The maps built from the task list *)

Lemma task_with_id_snoc tasks t k :
  task_with_id (tasks ++ [t]) k =
    if decide (Task.id t = Some k) then Some t else task_with_id tasks k.
Proof.
  unfold task_with_id. rewrite filter_app.
  destruct (decide (Task.id t = Some k)) as [Heq|Hne].
  - rewrite filter_cons_True, filter_nil by done. apply last_snoc.
  - rewrite filter_cons_False, filter_nil by done. by rewrite app_nil_r.
Qed.

Lemma task_with_id_Some tasks k t :
  task_with_id tasks k = Some t → Task.id t = Some k ∧ t ∈ tasks.
Proof.
  unfold task_with_id. intros H%last_Some_elem_of.
  by apply list_elem_of_filter in H.
Qed.

Lemma task_with_id_is_Some tasks k : is_Some (task_with_id tasks k) ↔ k ∈ input_ids tasks.
Proof.
  unfold input_ids. rewrite list_elem_of_omap. split.
  - intros [t [Hid Hin]%task_with_id_Some]. eauto.
  - intros (t & Hin & Hid). unfold task_with_id.
    assert (Hf : t ∈ filter (λ t, Task.id t = Some k) tasks) by by apply list_elem_of_filter.
    destruct (filter _ tasks) as [|t0 l] using rev_ind; [by apply elem_of_nil in Hf|].
    rewrite last_snoc. eauto.
Qed.

Lemma build_id_map_spec tasks m :
  build_id_map tasks = Return m → id_map_of tasks m.
Proof.
  unfold build_id_map. intros Hrun.
  apply (foldM_invariant (λ m done, id_map_of done m) _ tasks [] _ _ Hrun).
  - split_and!; [constructor|simpl; lia|constructor|done].
  - clear. intros m t m' pre suf _ (Hnd & Hlen & Hids & Hget) Hstep.
    inv_bind Hstep. injection Hstep as <-. apply subscript_Return in Hx.
    split_and!.
    + by apply dict_keys_set_NoDup.
    + pose proof (dict_length_set m x t). rewrite length_app. simpl. lia.
    + apply Forall_app. split; [done|]. constructor; [by rewrite Hx|constructor].
    + intros k. rewrite dict_get_set, task_with_id_snoc, Hx, Hget.
      destruct (decide (k = x)) as [->|Hne].
      * by rewrite decide_True.
      * rewrite decide_False; [done|congruence].
Qed.

Lemma build_id_map_returns tasks :
  Forall (λ t, is_Some (Task.id t)) tasks → ∃ m, build_id_map tasks = Return m.
Proof.
  intros Hids. unfold build_id_map.
  destruct (foldM_returns (λ _ _, True)
              (λ m t, do k <- subscript (Task.id t); Return (dict_set m k t))
              tasks [] []) as (m & Hm & _); [done| |eauto].
  intros m t pre suf Heq _. simpl in Heq.
  assert (Ht : t ∈ tasks) by (rewrite Heq; apply elem_of_app; right; left).
  rewrite Forall_forall in Hids. destruct (Hids t Ht) as [k ->]. simpl. eauto.
Qed.

Lemma id_map_keys tasks m k :
  id_map_of tasks m → k ∈ dict_keys m ↔ k ∈ input_ids tasks.
Proof.
  intros (_ & _ & _ & Hget).
  by rewrite <- dict_get_Some_keys, Hget, task_with_id_is_Some.
Qed.

Lemma declared_deps_Return t s :
  declared_deps t = Return s ↔ s = list_to_set (listed_deps t) ∧ Task.depends_on t ≠ Null.
Proof.
  unfold declared_deps, listed_deps. destruct (Task.depends_on t); simpl.
  - split; [intros [= <-]|intros [-> _]]; done.
  - split; [done|]. by intros [_ ?].
  - split; [intros [= <-]|intros [-> _]]; done.
Qed.

Lemma declared_deps_map_spec (id_map : dict Task.t) raw :
  declared_deps_map id_map = Return raw →
  ∀ k, raw !! k = (λ t, list_to_set (listed_deps t)) <$> dict_get id_map k
       ∧ (∀ t, dict_get id_map k = Some t → Task.depends_on t ≠ Null).
Proof.
  unfold declared_deps_map. intros Hrun.
  pose (P := λ (raw : gmap string (gset string)) (done : list string),
    ∀ k, (k ∈ done →
            raw !! k = (λ t, list_to_set (listed_deps t)) <$> dict_get id_map k
            ∧ (∀ t, dict_get id_map k = Some t → Task.depends_on t ≠ Null))
         ∧ (k ∉ done → raw !! k = None)).
  assert (HP : P raw ([] ++ dict_keys id_map)).
  { apply (foldM_invariant P _ (dict_keys id_map) [] _ _ Hrun).
    - intros k. split; [by intros ?%elem_of_nil|]. intros _. apply lookup_empty.
    - clear. intros m tid m' pre suf _ HP Hstep.
      inv_bind Hstep. injection Hstep as <-.
      apply subscript_Return in Hx. apply declared_deps_Return in Hx0 as [-> Hnn].
      intros k. destruct (decide (k = tid)) as [->|Hne].
      + rewrite lookup_insert_eq, Hx. split; [|intros Hk; exfalso; apply Hk, elem_of_app; right; left].
        intros _. split; [done|]. by intros t [= <-].
      + rewrite lookup_insert_ne by done. destruct (HP k) as [Hin Hout]. split.
        * intros [?|?%list_elem_of_singleton]%elem_of_app; [auto|done].
        * intros Hk. apply Hout. intros ?. apply Hk, elem_of_app. by left. }
  intros k. simpl in HP. destruct (HP k) as [Hin Hout].
  destruct (decide (k ∈ dict_keys id_map)) as [Hk|Hk]; [auto|].
  rewrite (Hout Hk). apply dict_get_None_keys in Hk. rewrite Hk. done.
Qed.

Lemma build_deps_map_spec (id_map : dict Task.t) deps :
  build_deps_map id_map = Return deps →
  (∀ k, deps !! k = existing_deps id_map <$> dict_get id_map k)
  ∧ (∀ k t, dict_get id_map k = Some t → Task.depends_on t ≠ Null).
Proof.
  unfold build_deps_map. intros Hrun. inv_bind Hrun. injection Hrun as <-.
  pose proof (declared_deps_map_spec _ _ Hx) as Hraw. split.
  - intros k. rewrite lookup_fmap. destruct (Hraw k) as [-> _].
    by destruct (dict_get id_map k).
  - intros k t Hk. destruct (Hraw k) as [_ H]. eauto.
Qed.

Lemma build_deps_map_returns (id_map : dict Task.t) :
  (∀ k t, dict_get id_map k = Some t → Task.depends_on t ≠ Null) →
  ∃ deps, build_deps_map id_map = Return deps.
Proof.
  intros Hnn. unfold build_deps_map, declared_deps_map.
  destruct (foldM_returns (λ _ _, True)
    (λ (m : gmap string (gset string)) tid,
       do t <- subscript (dict_get id_map tid);
       do s <- declared_deps t;
       Return (<[tid := s]> m)) (dict_keys id_map) [] ∅) as (raw & -> & _);
    [done| |simpl; eauto].
  intros m tid pre suf Heq _. simpl in Heq.
  assert (Hk : tid ∈ dict_keys id_map) by (rewrite Heq; apply elem_of_app; right; left).
  apply dict_get_Some_keys in Hk as [t Ht]. rewrite Ht. simpl.
  destruct (declared_deps t) as [s| |] eqn:Hd; simpl; eauto.
  - unfold declared_deps in Hd. specialize (Hnn _ _ Ht).
    destruct (Task.depends_on t); done.
  - unfold declared_deps in Hd. by destruct (Task.depends_on t).
Qed.

(** ** The topological pass *)

Lemma filter_ne_Permutation (l : list string) r :
  NoDup l → r ∈ l → r :: filter (λ x, x ≠ r) l ≡ₚ l.
Proof.
  induction 1 as [|x l Hx Hnd IH]; [by intros ?%elem_of_nil|].
  intros [->|Hin]%elem_of_cons.
  - rewrite filter_cons_False by (intros H; by apply H).
    constructor. clear IH Hnd. induction l as [|y l IH]; [done|].
    apply not_elem_of_cons in Hx as [Hne Hx].
    rewrite filter_cons_True by done. constructor. auto.
  - assert (x ≠ r) by (intros ->; done).
    rewrite filter_cons_True by done. rewrite Permutation_swap. constructor. auto.
Qed.

Lemma filterM_no_deps (deps : gmap string (gset string)) l :
  Forall (λ k, is_Some (deps !! k)) l →
  filterM (no_deps deps) l = Return (filter (λ k, deps !! k = Some ∅) l).
Proof.
  induction 1 as [|k l [s Hs] _ IH]; [done|].
  simpl. unfold no_deps at 1. rewrite Hs, IH. simpl.
  destruct (decide (s = ∅)) as [->|Hne].
  - rewrite bool_decide_eq_true_2, filter_cons_True by done. done.
  - rewrite bool_decide_eq_false_2, filter_cons_False by congruence. done.
Qed.

Lemma precedes_app_l b a ks ks' : precedes b a ks → precedes b a (ks ++ ks').
Proof.
  intros (pre & post & -> & Hb). exists pre, (post ++ ks'). split; [|done].
  by rewrite <- app_assoc.
Qed.

Lemma precedes_app_r b a ks ks' : b ∈ ks → a ∈ ks' → precedes b a (ks ++ ks').
Proof.
  intros Hb (l1 & l2 & ->)%list_elem_of_split. exists (ks ++ l1), l2. split.
  - by rewrite <- app_assoc.
  - apply elem_of_app. by left.
Qed.

Section topological_pass.
Variable set_iter : list string → list string.
Hypothesis set_iter_perm : ∀ s, set_iter s ≡ₚ s.
Variable id_map : dict Task.t.
Hypothesis id_map_NoDup : NoDup (dict_keys id_map).
(** [deps_map] as it is when the loop starts. *)
Variable deps0 : gmap string (gset string).
Hypothesis deps0_dom : ∀ k, k ∈ dict_keys id_map → is_Some (deps0 !! k).
Hypothesis deps0_keys : ∀ k s d, deps0 !! k = Some s → d ∈ s → d ∈ dict_keys id_map.

Lemma topo_inv_init : topo_inv id_map deps0 [] (mk_topo (dict_keys id_map) deps0 []).
Proof.
  split_and!; simpl; [constructor|done|].
  rewrite <- (map_fmap_id deps0) at 1. apply map_fmap_ext.
  intros k s _. set_solver.
Qed.

Lemma topo_inv_NoDup ks st : topo_inv id_map deps0 ks st → NoDup (ks ++ remaining st).
Proof. intros (_ & Hp & _). by rewrite Hp. Qed.

Lemma topo_inv_key ks st k : topo_inv id_map deps0 ks st → k ∈ dict_keys id_map ↔ k ∈ ks ∨ k ∈ remaining st.
Proof. intros (_ & Hp & _). by rewrite <- Hp, elem_of_app. Qed.

Lemma topo_inv_deps ks st k :
  topo_inv id_map deps0 ks st → k ∈ remaining st →
  ∃ s, deps0 !! k = Some s ∧ deps_map st !! k = Some (s ∖ list_to_set ks).
Proof.
  intros Hinv Hk. destruct (deps0_dom k) as [s Hs].
  { apply (topo_inv_key ks st); auto. }
  exists s. split; [done|]. destruct Hinv as (_ & _ & ->).
  by rewrite lookup_fmap, Hs.
Qed.

Lemma emit_spec ks st r :
  topo_inv id_map deps0 ks st → r ∈ remaining st →
  ∃ st', emit id_map st r = Return st' ∧ topo_inv id_map deps0 (ks ++ [r]) st' ∧
         remaining st' = filter (λ x, x ≠ r) (remaining st).
Proof.
  intros Hinv Hr. pose proof (topo_inv_NoDup _ _ Hinv) as Hnd.
  assert (Hkey : r ∈ dict_keys id_map) by (apply (topo_inv_key ks st); auto).
  apply dict_get_Some_keys in Hkey as [t Ht].
  destruct Hinv as (Hord & Hperm & Hdeps).
  unfold emit, set_remove. rewrite Ht. simpl. rewrite decide_True by done. simpl.
  eexists. split; [reflexivity|]. split; [|done]. split_and!; simpl.
  - apply Forall2_app; [done|]. by repeat constructor.
  - rewrite <- app_assoc. simpl. rewrite <- Hperm. f_equiv.
    apply filter_ne_Permutation; [|done]. by apply NoDup_app in Hnd as (_ & _ & ?).
  - rewrite Hdeps, <- map_fmap_compose. apply map_fmap_ext. intros k s _. simpl.
    rewrite list_to_set_app_L. set_solver.
Qed.

(** Emitting a batch of distinct ids that are all still remaining. *)
Lemma emit_batch ready :
  ∀ ks st, topo_inv id_map deps0 ks st → NoDup ready → ready ⊆ remaining st →
  ∃ st', foldM (emit id_map) st ready = Return st' ∧ topo_inv id_map deps0 (ks ++ ready) st'.
Proof.
  induction ready as [|r ready IH]; intros ks st Hinv Hnd Hsub; simpl.
  - exists st. by rewrite app_nil_r.
  - apply NoDup_cons in Hnd as [Hr Hnd].
    destruct (emit_spec ks st r Hinv) as (st1 & -> & Hinv1 & Hrem1).
    { apply Hsub. left. }
    simpl. destruct (IH (ks ++ [r]) st1 Hinv1 Hnd) as (st' & Hrun & Hinv').
    { intros x Hx. rewrite Hrem1. apply list_elem_of_filter. split.
      - intros ->. done.
      - apply Hsub. by right. }
    exists st'. split; [done|]. by rewrite cons_middle, app_assoc.
Qed.

Lemma ready_batch_spec ks st :
  topo_inv id_map deps0 ks st →
  ready_batch set_iter st =
    Return (match ready_now set_iter st with
            | [] => set_iter (remaining st)
            | _ => ready_now set_iter st
            end).
Proof.
  intros Hinv. unfold ready_batch, ready_now. rewrite filterM_no_deps; [done|].
  apply Forall_forall. intros k Hk. rewrite set_iter_perm in Hk.
  destruct (topo_inv_deps ks st k Hinv Hk) as (s & _ & ->). eauto.
Qed.

Lemma ready_batch_facts ks st ready :
  topo_inv id_map deps0 ks st → remaining st ≠ [] →
  ready_batch set_iter st = Return ready →
  ready ≠ [] ∧ NoDup ready ∧ ready ⊆ remaining st.
Proof.
  intros Hinv Hne. rewrite (ready_batch_spec ks st Hinv). intros [= <-].
  assert (Hnd : NoDup (set_iter (remaining st))).
  { rewrite set_iter_perm. pose proof (topo_inv_NoDup _ _ Hinv) as H.
    by apply NoDup_app in H as (_ & _ & ?). }
  fold (ready_now set_iter st). destruct (ready_now set_iter st) as [|r rs] eqn:Hready.
  - split_and!; [|done|].
    + intros Hnil. apply Hne. apply Permutation_nil_r. by rewrite <- (set_iter_perm (remaining st)), Hnil.
    + intros x. by rewrite set_iter_perm.
  - rewrite <- Hready. split_and!.
    + by rewrite Hready.
    + by apply NoDup_filter.
    + intros x [_ Hx]%list_elem_of_filter. by rewrite set_iter_perm in Hx.
Qed.

(** The loop ends with everything emitted, and keeps any property of the
    emitted sequence that every batch keeps. *)
Lemma topo_loop_run (Q : list string → Prop) :
  (∀ ks st ready, topo_inv id_map deps0 ks st → Q ks → remaining st ≠ [] →
      ready_batch set_iter st = Return ready → Q (ks ++ ready)) →
  ∀ fuel ks st, topo_inv id_map deps0 ks st → Q ks → (length (remaining st) ≤ fuel)%nat →
  ∃ ks' st', topo_loop set_iter fuel id_map st = Return st' ∧
             topo_inv id_map deps0 ks' st' ∧ remaining st' = [] ∧ Q ks'.
Proof.
  intros HQ. induction fuel as [|fuel IH]; intros ks st Hinv Hks Hlen.
  - destruct (remaining st) as [|r rem] eqn:Hrem; [|simpl in Hlen; lia].
    exists ks, st. simpl. by rewrite Hrem.
  - simpl. destruct (remaining st) as [|r rem] eqn:Hrem; [by exists ks, st|].
    assert (Hne : remaining st ≠ []) by by rewrite Hrem.
    destruct (ready_batch set_iter st) as [ready| |] eqn:Hready;
      [|by rewrite (ready_batch_spec ks st Hinv) in Hready..].
    destruct (ready_batch_facts ks st ready Hinv Hne Hready) as (Hnn & Hnd & Hsub).
    simpl. destruct (emit_batch ready ks st Hinv Hnd Hsub) as (st1 & -> & Hinv1).
    simpl. apply (IH (ks ++ ready) st1 Hinv1); [by apply (HQ ks st)|].
    destruct Hinv as (_ & Hp & _), Hinv1 as (_ & Hp1 & _).
    assert (Hl : length ((ks ++ ready) ++ remaining st1) = length (ks ++ remaining st))
      by by rewrite Hp, Hp1.
    rewrite !length_app, Hrem in Hl. simpl in Hl, Hlen.
    destruct ready; [done|]. simpl in Hl. lia.
Qed.

(** The emitted ids are exactly the keys of [id_map], each once. *)
Lemma topo_inv_final ks st :
  topo_inv id_map deps0 ks st → remaining st = [] → ks ≡ₚ dict_keys id_map.
Proof. intros (_ & Hp & _) Hrem. by rewrite Hrem, app_nil_r in Hp. Qed.

(** When no remaining id is ready, none of them has a well-founded chain of
    dependencies below it: following unmet dependencies never stops. *)
Lemma stalled_not_Acc ks st x :
  topo_inv id_map deps0 ks st → ready_now set_iter st = [] →
  Acc (λ y x, waits_for deps0 x y) x → x ∉ remaining st.
Proof.
  intros Hinv Hstall. induction 1 as [x _ IH]. intros Hx.
  destruct (topo_inv_deps ks st x Hinv Hx) as (s & Hs & Hcur).
  destruct (decide (s ∖ list_to_set ks = ∅)) as [Hempty|Hleft].
  - assert (Hin : x ∈ ready_now set_iter st).
    { apply list_elem_of_filter. rewrite set_iter_perm. split; [|done].
      by rewrite Hcur, Hempty. }
    rewrite Hstall in Hin. by apply elem_of_nil in Hin.
  - apply set_choose_L in Hleft as [y Hy].
    apply elem_of_difference in Hy as [Hys Hyks].
    rewrite elem_of_list_to_set in Hyks.
    apply (IH y); [by exists s|].
    pose proof (deps0_keys x s y Hs Hys) as Hkey.
    apply (topo_inv_key ks st y Hinv) in Hkey as [?|?]; done.
Qed.

Lemma deps_first_batch ks st ready :
  topo_inv id_map deps0 ks st → deps_first deps0 ks → remaining st ≠ [] →
  ready_batch set_iter st = Return ready → deps_first deps0 (ks ++ ready).
Proof.
  intros Hinv Hfirst Hne Hready a b Ha Hwait Hacc.
  apply elem_of_app in Ha as [Ha|Ha]; [by apply precedes_app_l, Hfirst|].
  apply precedes_app_r; [|done].
  destruct (ready_batch_facts ks st ready Hinv Hne Hready) as (_ & _ & Hsub).
  destruct (topo_inv_deps ks st a Hinv (Hsub a Ha)) as (s & Hs & Hcur).
  destruct Hwait as (s' & Hs' & Hb). rewrite Hs in Hs'. injection Hs' as <-.
  rewrite (ready_batch_spec ks st Hinv) in Hready. injection Hready as Hready.
  destruct (ready_now set_iter st) as [|r rs] eqn:Hnow.
  - pose proof (deps0_keys a s b Hs Hb) as Hkey.
    apply (topo_inv_key ks st b Hinv) in Hkey as [?|Hrem]; [done|].
    by destruct (stalled_not_Acc ks st b Hinv Hnow Hacc).
  - rewrite <- Hready, <- Hnow in Ha. apply list_elem_of_filter in Ha as [Hnone _].
    rewrite Hcur in Hnone. injection Hnone as Hnone.
    destruct (decide (b ∈ ks)) as [|Hnot]; [done|].
    assert (b ∈ s ∖ list_to_set ks) as Hin; [|by rewrite Hnone in Hin; set_solver].
    apply elem_of_difference. by rewrite elem_of_list_to_set.
Qed.

(** The whole pass, from the initial state. *)
Lemma topo_loop_from_start fuel :
  (length (dict_keys id_map) ≤ fuel)%nat →
  ∃ ks st, topo_loop set_iter fuel id_map (mk_topo (dict_keys id_map) deps0 []) = Return st ∧
           Forall2 (λ k t, dict_get id_map k = Some t) ks (ordered st) ∧
           ks ≡ₚ dict_keys id_map ∧ deps_first deps0 ks.
Proof.
  intros Hfuel.
  destruct (topo_loop_run (deps_first deps0) deps_first_batch fuel []
              (mk_topo (dict_keys id_map) deps0 []) topo_inv_init)
    as (ks & st & Hrun & Hinv & Hrem & Hfirst); [|done|].
  { by intros a b ?%elem_of_nil. }
  exists ks, st. split_and!; [done| |by apply (topo_inv_final ks st)|done].
  by destruct Hinv.
Qed.
End topological_pass.

(** ** The order in which tasks are scheduled *)

Lemma topo_loop_fuel_mono set_iter id_map fuel :
  ∀ st st' n, topo_loop set_iter fuel id_map st = Return st' →
              topo_loop set_iter (fuel + n) id_map st = Return st'.
Proof.
  induction fuel as [|fuel IH]; intros st st' n; simpl.
  - destruct (remaining st) eqn:Hrem; [|done]. intros [= <-].
    destruct n; simpl; by rewrite Hrem.
  - destruct (remaining st); [done|]. intros Hrun. inv_bind Hrun.
    rewrite Hx. simpl. rewrite Hx0. simpl. auto.
Qed.

Section order.
Variable set_iter : list string → list string.
Hypothesis set_iter_perm : ∀ s, set_iter s ≡ₚ s.

Lemma waits_for_depends tasks m deps a b :
  id_map_of tasks m →
  (∀ k, deps !! k = existing_deps m <$> dict_get m k) →
  waits_for deps a b ↔ depends_on_existing tasks a b.
Proof.
  intros Hm Hdeps. pose proof Hm as (_ & _ & _ & Hget).
  unfold waits_for, depends_on_existing. split.
  - intros (s & Hs & Hb). rewrite Hdeps, Hget in Hs.
    destruct (task_with_id tasks a) as [t|]; [|done]. injection Hs as <-.
    apply elem_of_filter in Hb as [Hkey Hb]. rewrite elem_of_list_to_set in Hb.
    exists t. split_and!; [done|done|].
    by apply dict_get_Some_keys, (id_map_keys tasks) in Hkey.
  - intros (t & Ht & Hb & Hkey). exists (existing_deps m t).
    rewrite Hdeps, Hget, Ht. split; [done|].
    apply elem_of_filter. rewrite elem_of_list_to_set. split; [|done].
    by apply dict_get_Some_keys, (id_map_keys tasks).
Qed.

(** What a successful topological pass returns: the kept task of every id,
    each id once, and a dependency with no cycle below it before the task
    that lists it. *)
Lemma topological_order_spec fuel tasks ord :
  (length tasks ≤ fuel)%nat →
  topological_order set_iter fuel tasks = Return ord →
  ∃ ks, Forall2 (λ k t, task_with_id tasks k = Some t) ks ord ∧
        NoDup ks ∧
        (∀ k, k ∈ ks ↔ k ∈ input_ids tasks) ∧
        Forall (λ t, Task.depends_on t ≠ Null) ord ∧
        (∀ a b, depends_on_existing tasks a b → no_cycle_below tasks b →
                precedes b a ks).
Proof.
  intros Hfuel Hrun. unfold topological_order in Hrun. inv_bind Hrun.
  injection Hrun as <-. rename x into m, x0 into deps, x1 into st.
  pose proof (build_id_map_spec _ _ Hx) as Hm.
  pose proof Hm as (Hnd & Hlen & _ & Hget).
  destruct (build_deps_map_spec _ _ Hx0) as [Hdeps Hnn].
  destruct (topo_loop_from_start set_iter set_iter_perm m Hnd deps) with (fuel := fuel)
    as (ks & st' & Hrun & Hord & Hperm & Hfirst).
  - intros k [t Ht]%dict_get_Some_keys. rewrite Hdeps, Ht. eauto.
  - intros k s d Hs Hd. rewrite Hdeps in Hs.
    destruct (dict_get m k) as [t|]; [|done]. injection Hs as <-.
    apply elem_of_filter in Hd as [Hkey _]. by apply dict_get_Some_keys.
  - unfold dict_keys. rewrite length_fmap. lia.
  - rewrite Hrun in Hx1. injection Hx1 as ->.
    exists ks. split_and!.
    + eapply Forall2_impl; [exact Hord|]. intros k t Hk. by rewrite <- Hget.
    + by rewrite Hperm.
    + intros k. by rewrite Hperm, (id_map_keys tasks).
    + clear -Hord Hnn. induction Hord as [|k t ks ord Hk _ IH]; constructor; eauto.
    + intros a b Hab Hacc. apply Hfirst.
      * destruct Hab as (t & Ht & _). rewrite Hperm.
        apply dict_get_Some_keys. rewrite Hget, Ht. eauto.
      * by apply (waits_for_depends tasks m).
      * clear -Hacc Hm Hdeps. induction Hacc as [x _ IH]. constructor.
        intros y Hw. by apply IH, (waits_for_depends tasks m deps).
Qed.

Lemma topological_order_returns fuel tasks :
  (length tasks ≤ fuel)%nat →
  Forall (λ t, is_Some (Task.id t)) tasks →
  Forall (λ t, Task.depends_on t ≠ Null) tasks →
  ∃ ord, topological_order set_iter fuel tasks = Return ord.
Proof.
  intros Hfuel Hids Hnn. unfold topological_order.
  destruct (build_id_map_returns tasks Hids) as [m Hm]. rewrite Hm. simpl.
  pose proof (build_id_map_spec _ _ Hm) as (Hnd & Hlen & _ & Hget).
  destruct (build_deps_map_returns m) as [deps Hdeps].
  { intros k t Hk. rewrite Hget in Hk. apply task_with_id_Some in Hk as [_ Hin].
    rewrite Forall_forall in Hnn. auto. }
  rewrite Hdeps. simpl. destruct (build_deps_map_spec _ _ Hdeps) as [Hd _].
  destruct (topo_loop_from_start set_iter set_iter_perm m Hnd deps) with (fuel := fuel)
    as (ks & st' & -> & _).
  - intros k [t Ht]%dict_get_Some_keys. rewrite Hd, Ht. eauto.
  - intros k s d Hs Hdin. rewrite Hd in Hs.
    destruct (dict_get m k) as [t|]; [|done]. injection Hs as <-.
    apply elem_of_filter in Hdin as [Hkey _]. by apply dict_get_Some_keys.
  - unfold dict_keys. rewrite length_fmap. lia.
  - simpl. eauto.
Qed.

(** More fuel than one unit per task changes nothing. *)
Lemma topological_order_fuel fuel tasks ord n :
  topological_order set_iter fuel tasks = Return ord →
  topological_order set_iter (fuel + n) tasks = Return ord.
Proof.
  unfold topological_order. intros Hrun. inv_bind Hrun. injection Hrun as <-.
  rewrite Hx. simpl. rewrite Hx0. simpl.
  by rewrite (topo_loop_fuel_mono _ _ _ _ _ n Hx1).
Qed.
End order.

(** ** Placing the tasks on the calendar *)

Lemma valid_datetime_range dt : valid_datetime dt → MINORD <= ordinal dt <= MAXORD.
Proof. unfold valid_datetime, MINORD. intros [H _]. revert H. vm_compute ordinal_of_civil. lia. Qed.

Lemma day_of_format dt :
  MINORD <= ordinal dt <= MAXORD → day_of (_format_date dt) = ordinal dt.
Proof. intros H. unfold day_of. by rewrite (strptime_format dt H). Qed.

Lemma parses_format dt : MINORD <= ordinal dt <= MAXORD → parses (_format_date dt).
Proof. intros H. unfold parses. by rewrite (day_of_format dt H), (strptime_format dt H). Qed.

Lemma parses_strptime s x : parses s → strptime s = Return x → x = mkdt (day_of s) 0.
Proof. unfold parses. congruence. Qed.

Lemma task_span_pos cap t : 1 <= task_span cap t.
Proof. unfold task_span, raw_duration, buffer_days. lia. Qed.

Lemma total_span_app cap ts1 ts2 :
  total_span cap (ts1 ++ ts2) = total_span cap ts1 + total_span cap ts2.
Proof. induction ts1 as [|t ts1 IH]; simpl; lia. Qed.

Lemma total_span_nonneg cap ts : 0 <= total_span cap ts.
Proof. induction ts as [|t ts IH]; simpl; [lia|]. pose proof (task_span_pos cap t). lia. Qed.

Lemma hours_to_days_Return cap h d :
  hours_to_days cap h = Return d ↔ cap ≠ 0 ∧ d = Z.max 1 ((h + cap - 1) / cap).
Proof.
  unfold hours_to_days. destruct (cap =? 0) eqn:Hc.
  - apply Z.eqb_eq in Hc. split; [done|]. by intros [? _].
  - apply Z.eqb_neq in Hc. split; [intros [= <-]|intros [_ ->]]; done.
Qed.

Lemma deps_end_spec dates deps ends :
  deps_end dates deps = Return ends →
  (∀ d e, d ∈ deps → dict_get dates d = Some e →
          ∃ x, strptime (Scheduled.end_date e) = Return x ∧ x ∈ ends) ∧
  (∀ x, x ∈ ends → ∃ d e, d ∈ deps ∧ dict_get dates d = Some e ∧
                          strptime (Scheduled.end_date e) = Return x).
Proof.
  revert ends. induction deps as [|d deps IH]; intros ends; simpl.
  - intros [= <-]. split; [by intros ?? ?%elem_of_nil|by intros ? ?%elem_of_nil].
  - destruct (dict_get dates d) as [e|] eqn:Hd.
    + intros Hrun. inv_bind Hrun. injection Hrun as <-.
      destruct (IH _ Hx0) as [IH1 IH2]. split.
      * intros d' e' [->|Hin]%elem_of_cons Hget.
        -- rewrite Hd in Hget. injection Hget as <-. exists x. split; [done|left].
        -- destruct (IH1 d' e' Hin Hget) as (y & ? & ?). exists y. split; [done|by right].
      * intros y [->|Hin]%elem_of_cons.
        -- exists d, e. split_and!; [left|done|done].
        -- destruct (IH2 y Hin) as (d' & e' & ? & ? & ?). exists d', e'.
           split_and!; [by right|done|done].
    + intros Hrun. destruct (IH _ Hrun) as [IH1 IH2]. split.
      * intros d' e' [->|Hin]%elem_of_cons Hget; [congruence|eauto].
      * intros y Hin. destruct (IH2 y Hin) as (d' & e' & ? & ? & ?). exists d', e'.
        split_and!; [by right|done|done].
Qed.

Lemma deps_end_returns dates deps :
  (∀ d e, dict_get dates d = Some e → parses (Scheduled.end_date e)) →
  ∃ ends, deps_end dates deps = Return ends.
Proof.
  intros Hp. induction deps as [|d deps [ends IH]]; simpl; [eauto|].
  destruct (dict_get dates d) as [e|] eqn:Hd; [|eauto].
  rewrite (Hp d e Hd), IH. simpl. eauto.
Qed.

Lemma parse_ends_spec vs :
  Forall (λ e, parses (Scheduled.end_date e)) vs →
  parse_ends vs = Return ((λ e, mkdt (day_of (Scheduled.end_date e)) 0) <$> vs).
Proof.
  induction 1 as [|e vs He _ IH]; simpl; [done|]. by rewrite He, IH.
Qed.

(** An entry stored under its own id is found under that id. *)
Lemma dict_get_entry (d : dict Scheduled.t) i e :
  NoDup (dict_keys d) →
  dict_keys d = Scheduled.id <$> dict_values d →
  dict_values d !! i = Some e →
  dict_get d (Scheduled.id e) = Some e.
Proof.
  unfold dict_keys, dict_values. revert i. induction d as [|[k v] d IH]; intros i; simpl.
  - by rewrite lookup_nil.
  - intros [Hk Hnd]%NoDup_cons [= -> Heq]. destruct i as [|i]; simpl.
    + intros [= ->]. by rewrite decide_True.
    + intros Hi. destruct (decide (Scheduled.id e = Scheduled.id v)) as [Heq'|Hne]; [|eauto].
      exfalso. apply Hk. rewrite Heq, <- Heq'.
      apply list_elem_of_fmap. exists e. split; [done|].
      by apply list_elem_of_lookup_2 in Hi.
Qed.

Lemma dict_get_lookup {V} (d : dict V) k v :
  dict_get d k = Some v → ∃ i, dict_keys d !! i = Some k ∧ dict_values d !! i = Some v.
Proof.
  unfold dict_keys, dict_values. induction d as [|[k0 v0] d IH]; simpl; [done|].
  destruct (decide (k = k0)) as [->|Hne].
  - intros [= ->]. by exists 0%nat.
  - intros (i & ? & ?)%IH. by exists (S i).
Qed.

(** *** The state of the scheduling loop *)

(** Only the day of a [datetime] is printed. *)
Lemma format_date_day dt m : _format_date dt = _format_date (mkdt (ordinal dt) m).
Proof. done. Qed.

Lemma sched_inv_init project_start cap : sched_inv project_start cap [] (mk_sched [] ∅).
Proof.
  split; simpl.
  - constructor.
  - done.
  - constructor.
  - constructor.
  - intros i j ei ej _ Hi. by rewrite lookup_nil in Hi.
  - intros r nf Hnf. by rewrite lookup_empty in Hnf.
  - intros r nf Hnf. by rewrite lookup_empty in Hnf.
  - intros j ej Hj. by rewrite lookup_nil in Hj.
  - intros e He. by apply elem_of_nil in He.
  - intros e He. by apply elem_of_nil in He.
Qed.

Section place.
Variable project_start : datetime.
Variable cap : Z.
Hypothesis start_valid : MINORD <= ordinal project_start <= MAXORD.

(** The earliest start allowed by the dependencies that are already
    scheduled. *)
Lemma earliest_spec ends earliest :
  Forall (λ x, ordinal project_start <= ordinal x) ends →
  match ends with
  | [] => Return project_start
  | e :: es =>
      do next <- add_days (dt_max_list e es) 1;
      Return (dt_max project_start next)
  end = Return earliest →
  ordinal project_start <= ordinal earliest <= MAXORD ∧
  (∀ x, x ∈ ends → ordinal x < ordinal earliest) ∧
  (ordinal earliest = ordinal project_start ∨ ∃ x, x ∈ ends ∧ ordinal earliest = ordinal x + 1).
Proof.
  intros Hends. destruct ends as [|e es].
  - intros [= <-]. split_and!; [lia|lia|by intros ? ?%elem_of_nil|by left].
  - intros Hrun. inv_bind Hrun. injection Hrun as <-.
    apply add_days_Return in Hx as [-> Hrange]. rewrite ordinal_dt_max. simpl.
    pose proof (dt_max_list_in e es) as Hin.
    rewrite Forall_forall in Hends. pose proof (Hends _ Hin) as Hge.
    split_and!; [lia|lia| |].
    + intros y Hy. pose proof (dt_max_list_upper e es y Hy). lia.
    + right. exists (dt_max_list e es). split; [done|lia].
Qed.

Lemma place_inv done st t st' :
  sched_inv project_start cap done st →
  (∀ k, Task.id t = Some k → k ∉ dict_keys (dates_for_id st)) →
  place project_start cap st t = Return st' →
  sched_inv project_start cap (done ++ [t]) st'.
Proof.
  intros Hinv Hfresh Hrun. unfold place in Hrun. inv_bind Hrun. injection Hrun as <-.
  rename x into h, x0 into dur, x1 into ends, x2 into earliest, x3 into end_,
         x4 into end_wb, x5 into tid, x6 into nf.
  apply int_hours_Return in Hx as [-> Hnull].
  apply hours_to_days_Return in Hx0 as [Hcap Hdur].
  fold (raw_duration cap t) in Hdur. subst dur.
  apply subscript_Return in Hx5. specialize (Hfresh tid Hx5).
  destruct (deps_end_spec _ _ _ Hx1) as [Hends1 Hends2].
  assert (Hends : Forall (λ x, ordinal project_start <= ordinal x) ends).
  { apply Forall_forall. intros x (d & e & _ & Hget & Hparse)%Hends2.
    apply dict_get_values in Hget.
    pose proof (inv_dated _ _ _ _ Hinv) as Hd. rewrite Forall_forall in Hd.
    destruct (Hd e Hget) as (_ & Hpe & Hs & He & Hdd & _).
    rewrite (parses_strptime _ _ Hpe Hparse). simpl. lia. }
  destruct (earliest_spec ends earliest Hends Hx2) as (Hearly & Hafter & Hwhy).
  set (role_free := default project_start (role_next_free st !! get_role t)) in *.
  assert (Hfree : ordinal project_start <= ordinal role_free <= MAXORD ∧
                  ordinal role_free <= ordinal project_start + total_span cap done).
  { unfold role_free. destruct (role_next_free st !! get_role t) as [nf0|] eqn:Hnf; simpl.
    - by apply (inv_free _ _ _ _ Hinv (get_role t)).
    - pose proof (total_span_nonneg cap done). lia. }
  set (start := dt_max earliest role_free) in *.
  assert (Hstart : ordinal start = Z.max (ordinal earliest) (ordinal role_free))
    by apply ordinal_dt_max.
  apply add_days_Return in Hx3 as [-> Hr3]. simpl in *.
  apply add_days_Return in Hx4 as [-> Hr4]. simpl in *.
  apply add_days_Return in Hx6 as [-> Hr6]. simpl in *.
  pose proof (task_span_pos cap t) as Hspan. unfold task_span in Hspan.
  assert (Hbuf : 0 <= buffer_days (raw_duration cap t)) by (unfold buffer_days; lia).
  assert (Hraw : 1 <= raw_duration cap t) by (unfold raw_duration; lia).
  assert (Hearly_bound : ordinal earliest <= ordinal project_start + total_span cap done).
  { destruct Hwhy as [->|(x & Hxin & ->)]; [pose proof (total_span_nonneg cap done); lia|].
    destruct (Hends2 x Hxin) as (d & e & _ & Hget & Hparse).
    apply dict_get_values in Hget.
    pose proof (inv_dated _ _ _ _ Hinv) as Hd. rewrite Forall_forall in Hd.
    destruct (Hd e Hget) as (_ & Hpe & _).
    rewrite (parses_strptime _ _ Hpe Hparse). simpl.
    pose proof (inv_bound _ _ _ _ Hinv e Hget). lia. }
  assert (Hstart_valid : MINORD <= ordinal start <= MAXORD) by lia.
  set (e_new := Scheduled.mk tid (Task.title t) (get_role t) (hours_or_zero t)
                  (_format_date start)
                  (_format_date (mkdt (ordinal start + (raw_duration cap t - 1)
                                       + buffer_days (raw_duration cap t)) (micros start)))
                  (raw_duration cap t + buffer_days (raw_duration cap t))
                  (listed_deps t)) in *.
  assert (Hs_day : day_of (Scheduled.start_date e_new) = ordinal start)
    by by apply day_of_format.
  assert (He_day : day_of (Scheduled.end_date e_new) =
                   ordinal start + (raw_duration cap t - 1) + buffer_days (raw_duration cap t))
    by (unfold e_new; simpl; by rewrite day_of_format).
  assert (Hvalues : dict_values (dict_set (dates_for_id st) tid e_new) =
                    dict_values (dates_for_id st) ++ [e_new])
    by by apply dict_values_set_fresh.
  assert (Htot : total_span cap (done ++ [t]) =
                 total_span cap done +
                 (raw_duration cap t + buffer_days (raw_duration cap t))).
  { rewrite total_span_app. simpl. unfold task_span. lia. }
  split; simpl; rewrite ?Htot.
  - by apply dict_keys_set_NoDup, (inv_nodup _ _ _ _ Hinv).
  - rewrite dict_keys_set_fresh, Hvalues, fmap_app by done.
    by rewrite (inv_keys _ _ _ _ Hinv).
  - rewrite Hvalues. apply Forall2_app; [apply (inv_entries _ _ _ _ Hinv)|].
    constructor; [|constructor]. by split_and!.
  - rewrite Hvalues. apply Forall_app. split; [apply (inv_dated _ _ _ _ Hinv)|].
    constructor; [|constructor]. split_and!.
    + by apply parses_format.
    + by apply parses_format.
    + rewrite Hs_day. lia.
    + rewrite He_day, Hs_day. unfold e_new. simpl. lia.
    + unfold e_new. simpl. lia.
    + rewrite Hs_day. apply format_date_day.
    + rewrite He_day. apply format_date_day.
  - rewrite Hvalues. intros i j ei ej Hij Hi Hj Hrel.
    assert (Hlen_i : (i < length (dict_values (dates_for_id st)))%nat).
    { apply lookup_lt_Some in Hj. rewrite length_app in Hj. simpl in Hj. lia. }
    rewrite lookup_app_l in Hi by done.
    destruct (decide (j < length (dict_values (dates_for_id st)))%nat) as [Hlt|Hge].
    { rewrite lookup_app_l in Hj by done. by apply (inv_order _ _ _ _ Hinv i j). }
    rewrite lookup_app_r in Hj by lia.
    destruct (j - length (dict_values (dates_for_id st)))%nat eqn:Hjj; [|by destruct n].
    injection Hj as <-. rewrite Hs_day.
    destruct Hrel as [Hrole|Hdep].
    + destruct (inv_track _ _ _ _ Hinv ei) as (nf0 & Hnf0 & Hlt).
      { by apply list_elem_of_lookup_2 in Hi. }
      simpl in Hrole. rewrite Hrole in Hnf0. unfold role_free in Hfree, Hstart.
      unfold role_free in Hstart. rewrite Hnf0 in Hstart. simpl in Hstart. lia.
    + simpl in Hdep.
      pose proof (dict_get_entry _ i ei (inv_nodup _ _ _ _ Hinv) (inv_keys _ _ _ _ Hinv) Hi)
        as Hget.
      destruct (Hends1 _ _ Hdep Hget) as (x & Hparse & Hxin).
      pose proof (inv_dated _ _ _ _ Hinv) as Hd. rewrite Forall_forall in Hd.
      destruct (Hd ei) as (_ & Hpe & _); [by apply list_elem_of_lookup_2 in Hi|].
      rewrite (parses_strptime _ _ Hpe Hparse) in Hxin.
      specialize (Hafter _ Hxin). simpl in Hafter. lia.
  - intros r nf0. destruct (decide (r = get_role t)) as [->|Hne].
    + rewrite lookup_insert_eq. intros [= <-]. simpl. lia.
    + rewrite lookup_insert_ne by done. intros Hnf0.
      destruct (inv_free _ _ _ _ Hinv r nf0 Hnf0). lia.
  - rewrite Hvalues. intros r nf0. destruct (decide (r = get_role t)) as [->|Hne].
    + rewrite lookup_insert_eq. intros [= <-].
      exists (length (dict_values (dates_for_id st))), e_new.
      split_and!; [by rewrite list_lookup_middle|done|].
      rewrite He_day. simpl. lia.
    + rewrite lookup_insert_ne by done. intros Hnf0.
      destruct (inv_free_used _ _ _ _ Hinv r nf0 Hnf0) as (i & e & Hi & Hr & Hnf).
      exists i, e. split_and!; [|done|done]. by apply lookup_app_l_Some.
  - rewrite Hvalues. intros j ej Hj.
    destruct (decide (j < length (dict_values (dates_for_id st)))%nat) as [Hlt|Hge].
    { rewrite lookup_app_l in Hj by done.
      destruct (inv_tight _ _ _ _ Hinv j ej Hj) as [?|(i & ei & Hij & Hi & Hrel & Hday)];
        [by left|right].
      exists i, ei. split_and!; [done| |done|done]. by apply lookup_app_l_Some. }
    assert (Hjlen : j = length (dict_values (dates_for_id st))).
    { apply lookup_lt_Some in Hj. rewrite length_app in Hj. simpl in Hj. lia. }
    subst j. rewrite list_lookup_middle in Hj by done. injection Hj as <-.
    rewrite Hs_day.
    assert (Hcase : ordinal start = ordinal earliest ∨ ordinal start = ordinal role_free) by lia.
    destruct Hcase as [Hcase|Hcase]; rewrite Hcase.
    + destruct Hwhy as [?|(x & Hxin & Hxd)]; [by left|right].
      destruct (Hends2 x Hxin) as (d & e & Hd_in & Hget & Hparse).
      destruct (dict_get_lookup _ _ _ Hget) as (i & Hi_k & Hi_v).
      pose proof (inv_dated _ _ _ _ Hinv) as Hd. rewrite Forall_forall in Hd.
      destruct (Hd e) as (_ & Hpe & _); [by apply list_elem_of_lookup_2 in Hi_v|].
      rewrite (parses_strptime _ _ Hpe Hparse) in Hxd. simpl in Hxd.
      exists i, e. split_and!.
      * by apply lookup_lt_Some in Hi_v.
      * by apply lookup_app_l_Some.
      * right. simpl. rewrite (inv_keys _ _ _ _ Hinv), list_lookup_fmap, Hi_v in Hi_k.
        injection Hi_k as ->. done.
      * done.
    + unfold role_free. destruct (role_next_free st !! get_role t) as [nf0|] eqn:Hnf0;
        simpl; [right|by left].
      destruct (inv_free_used _ _ _ _ Hinv _ nf0 Hnf0) as (i & e & Hi & Hr & Hnf).
      exists i, e. split_and!.
      * by apply lookup_lt_Some in Hi.
      * by apply lookup_app_l_Some.
      * by left.
      * done.
  - rewrite Hvalues. intros e [He|He%list_elem_of_singleton]%elem_of_app; [|subst e].
    + destruct (inv_track _ _ _ _ Hinv e He) as (nf0 & Hnf0 & Hlt).
      destruct (decide (Scheduled.role e = get_role t)) as [Heq|Hne].
      * rewrite Heq, lookup_insert_eq. eexists. split; [done|]. simpl.
        rewrite Heq in Hnf0. unfold role_free in Hstart. rewrite Hnf0 in Hstart.
        simpl in Hstart. lia.
      * rewrite lookup_insert_ne by done. eauto.
    + change (Scheduled.role e_new) with (get_role t).
      rewrite lookup_insert_eq. eexists. split; [done|].
      rewrite He_day. simpl. lia.
  - rewrite Hvalues. intros e [He|He%list_elem_of_singleton]%elem_of_app; [|subst e].
    + pose proof (inv_bound _ _ _ _ Hinv e He). lia.
    + rewrite He_day. lia.
Qed.

Lemma add_days_in_range dt n :
  MINORD <= ordinal dt + n <= MAXORD →
  add_days dt n = Return (mkdt (ordinal dt + n) (micros dt)).
Proof. intros H. by apply add_days_Return. Qed.

(** A well-formed task is placed whenever the calendar has room for it. *)
Lemma place_returns done st t :
  sched_inv project_start cap done st →
  is_Some (Task.id t) → Task.hours t ≠ Null → cap ≠ 0 →
  ordinal project_start + total_span cap done + task_span cap t <= MAXORD →
  ∃ st', place project_start cap st t = Return st'.
Proof.
  intros Hinv [tid Htid] Hnull Hcap Hroom. unfold place.
  rewrite (int_hours_not_null t Hnull). simpl.
  assert (Hdur : hours_to_days cap (hours_or_zero t) = Return (raw_duration cap t))
    by by apply hours_to_days_Return.
  rewrite Hdur. simpl. clear Hdur.
  pose proof (inv_dated _ _ _ _ Hinv) as Hd. rewrite Forall_forall in Hd.
  destruct (deps_end_returns (dates_for_id st) (listed_deps t)) as [ends Hends].
  { intros d e Hget%dict_get_values. by destruct (Hd e Hget) as (_ & ? & _). }
  rewrite Hends. simpl. destruct (deps_end_spec _ _ _ Hends) as [_ Hends2].
  assert (Hbounds : Forall (λ x, ordinal project_start <= ordinal x ∧
                       ordinal x < ordinal project_start + total_span cap done) ends).
  { apply Forall_forall. intros x (d & e & _ & Hget%dict_get_values & Hparse)%Hends2.
    destruct (Hd e Hget) as (_ & Hpe & Hs & He & Hdd & _).
    rewrite (parses_strptime _ _ Hpe Hparse). simpl.
    pose proof (inv_bound _ _ _ _ Hinv e Hget). lia. }
  pose proof (task_span_pos cap t) as Hspan.
  assert (Hraw : 1 <= raw_duration cap t) by (unfold raw_duration; lia).
  assert (Hbuf : 0 <= buffer_days (raw_duration cap t)) by (unfold buffer_days; lia).
  pose proof (total_span_nonneg cap done) as Hnn.
  assert (Hearliest : ∃ earliest,
    match ends with
    | [] => Return project_start
    | e :: es => do next <- add_days (dt_max_list e es) 1;
                 Return (dt_max project_start next)
    end = Return earliest ∧
    ordinal project_start <= ordinal earliest <= ordinal project_start + total_span cap done).
  { destruct ends as [|e es]; [exists project_start; split; [done|lia]|].
    pose proof (dt_max_list_in e es) as Hin.
    rewrite Forall_forall in Hbounds. destruct (Hbounds _ Hin) as [Hlo Hhi].
    rewrite add_days_in_range by lia. simpl. eexists. split; [done|].
    rewrite ordinal_dt_max. simpl. lia. }
  destruct Hearliest as (earliest & -> & Hearly). simpl.
  set (role_free := default project_start (role_next_free st !! get_role t)).
  assert (Hfree : ordinal project_start <= ordinal role_free
                  <= ordinal project_start + total_span cap done).
  { unfold role_free. destruct (role_next_free st !! get_role t) as [nf0|] eqn:Hnf; simpl.
    - destruct (inv_free _ _ _ _ Hinv (get_role t) nf0 Hnf). lia.
    - lia. }
  pose proof (ordinal_dt_max earliest role_free) as Hstart.
  unfold task_span in Hroom, Hspan.
  rewrite add_days_in_range by lia. simpl.
  rewrite add_days_in_range by (simpl; lia). simpl.
  rewrite Htid. simpl.
  rewrite add_days_in_range by (simpl; lia). simpl. eauto.
Qed.
End place.

(** *** The whole loop *)

Lemma schedule_inv project_start cap ks ord st :
  MINORD <= ordinal project_start <= MAXORD →
  Forall2 (λ k t, Task.id t = Some k) ks ord → NoDup ks →
  schedule project_start cap ord = Return st →
  sched_inv project_start cap ord st ∧ dict_keys (dates_for_id st) = ks.
Proof.
  intros Hvalid Hids Hnd Hrun. unfold schedule in Hrun.
  pose (P := λ (st : sched_state) (done : list Task.t),
    sched_inv project_start cap done st ∧
    Forall2 (λ k t, Task.id t = Some k) (dict_keys (dates_for_id st)) done).
  assert (HP : P st ([] ++ ord)).
  { apply (foldM_invariant P _ ord [] _ _ Hrun).
    - split; [apply sched_inv_init|constructor].
    - intros st0 t st1 pre suf Heq [Hinv Hkeys] Hstep. simpl in Heq.
      assert (Hfresh : ∀ k, Task.id t = Some k → k ∉ dict_keys (dates_for_id st0)).
      { intros k Hk Hin. subst ord.
        apply Forall2_app_inv_r in Hids as (ks1 & ks2 & Hpre & Hsuf & ->).
        apply Forall2_cons_inv_r in Hsuf as (k' & ks3 & Hk' & _ & ->).
        assert (k' = k) as -> by congruence.
        assert (ks1 = dict_keys (dates_for_id st0)) as ->.
        { clear -Hpre Hkeys. revert Hkeys. generalize (dict_keys (dates_for_id st0)).
          induction Hpre as [|k t ks pre Hk _ IH]; intros l Hl.
          - by apply Forall2_nil_inv_r in Hl.
          - apply Forall2_cons_inv_r in Hl as (k' & l' & Hk' & Hl' & ->).
            f_equal; [congruence|auto]. }
        apply NoDup_app in Hnd as (_ & Hdis & _). apply (Hdis k Hin). left. }
      split; [by apply (place_inv project_start cap Hvalid pre st0 t st1)|].
      unfold place in Hstep. inv_bind Hstep. injection Hstep as <-. simpl.
      apply subscript_Return in Hx5.
      rewrite dict_keys_set_fresh by auto.
      apply Forall2_app; [done|]. by repeat constructor. }
  destruct HP as [Hinv Hkeys]. simpl in *. split; [done|].
  clear -Hids Hkeys. revert Hkeys. generalize (dict_keys (dates_for_id st)).
  induction Hids as [|k t ks ord Hk _ IH]; intros l Hl.
  - by apply Forall2_nil_inv_r in Hl.
  - apply Forall2_cons_inv_r in Hl as (k' & l' & Hk' & Hl' & ->).
    f_equal; [congruence|auto].
Qed.

Lemma schedule_returns project_start cap ks ord :
  MINORD <= ordinal project_start <= MAXORD →
  Forall2 (λ k t, Task.id t = Some k) ks ord → NoDup ks →
  Forall (λ t, Task.hours t ≠ Null) ord → cap ≠ 0 →
  ordinal project_start + total_span cap ord <= MAXORD →
  ∃ st, schedule project_start cap ord = Return st.
Proof.
  intros Hvalid Hids Hnd Hhours Hcap Hroom. unfold schedule.
  pose (P := λ (st : sched_state) (done : list Task.t),
    foldM (place project_start cap) (mk_sched [] ∅) done = Return st).
  destruct (foldM_returns P (place project_start cap) ord [] (mk_sched [] ∅))
    as (st & Hst & _); [done| |eauto].
  intros st t pre suf Heq Hpre. simpl in Heq. unfold P in *.
  destruct (schedule_inv project_start cap (take (length pre) ks) pre st) as [Hinv _];
    [done| | |done|].
  { rewrite Heq in Hids. apply Forall2_app_inv_r in Hids as (ks1 & ks2 & H1 & _ & ->).
    rewrite take_app_length'; [done|]. by apply Forall2_length in H1. }
  { rewrite <- (take_drop (length pre) ks) in Hnd. by apply NoDup_app in Hnd as [? _]. }
  assert (Hin : t ∈ ord) by (rewrite Heq; apply elem_of_app; right; left).
  destruct (place_returns project_start cap Hvalid pre st t Hinv) as [st' Hst'].
  - rewrite Heq in Hids. apply Forall2_app_inv_r in Hids as (ks1 & ks2 & _ & H2 & _).
    apply Forall2_cons_inv_r in H2 as (k & ? & Hk & _). by rewrite Hk.
  - rewrite Forall_forall in Hhours. auto.
  - done.
  - rewrite Heq, total_span_app in Hroom. simpl in Hroom.
    pose proof (total_span_nonneg cap suf). lia.
  - exists st'. split; [done|]. rewrite foldM_app, Hpre. simpl. by rewrite Hst'.
Qed.

(** ** The timeline as a whole *)

Lemma summarize_Return project_start dates tl :
  summarize project_start dates = Return tl →
  Timeline.task_schedule tl = dict_values dates ∧
  Timeline.project_start tl = _format_date project_start ∧
  Timeline.role_days tl = fold_left add_role_days (dict_values dates) [].
Proof.
  unfold summarize. intros Hrun. inv_bind Hrun. by injection Hrun as <-.
Qed.

Lemma summarize_returns project_start dates :
  Forall (λ e, parses (Scheduled.end_date e)) (dict_values dates) →
  ∃ tl, summarize project_start dates = Return tl.
Proof.
  intros Hp. unfold summarize. destruct (dict_values dates) as [|v vs] eqn:Hv.
  - simpl. eauto.
  - rewrite (parse_ends_spec _ Hp). simpl. eauto.
Qed.

(** The kept tasks take no more days than all the tasks of the list. *)
Lemma kept_tasks_span cap tasks :
  ∀ ks ord, NoDup ks → Forall2 (λ k t, task_with_id tasks k = Some t) ks ord →
            total_span cap ord <= total_span cap tasks.
Proof.
  induction tasks as [|t tasks IH] using rev_ind; intros ks ord Hnd Hord.
  - destruct Hord as [|k t' ks ord Hk _]; [done|]. by unfold task_with_id in Hk.
  - rewrite total_span_app. simpl. rewrite Z.add_0_r.
    pose proof (task_span_pos cap t) as Hpos.
    destruct (Task.id t) as [k0|] eqn:Hid.
    + (* the entry of [k0], if any, now holds [t]; the others are unchanged *)
      assert (Hold : ∀ ks ord, k0 ∉ ks →
                Forall2 (λ k t', task_with_id (tasks ++ [t]) k = Some t') ks ord →
                Forall2 (λ k t', task_with_id tasks k = Some t') ks ord).
      { clear -Hid. intros ks ord Hk0 H. induction H as [|k t' ks ord Hk _ IH']; constructor.
        - rewrite task_with_id_snoc, Hid in Hk. apply not_elem_of_cons in Hk0 as [Hne _].
          rewrite decide_False in Hk; [done|congruence].
        - apply IH'. by apply not_elem_of_cons in Hk0 as [_ ?]. }
      destruct (decide (k0 ∈ ks)) as [Hin|Hnot].
      * apply list_elem_of_split in Hin as (ks1 & ks2 & ->).
        apply Forall2_app_inv_l in Hord as (ord1 & ord2 & H1 & H2 & ->).
        apply Forall2_cons_inv_l in H2 as (t' & ord3 & Ht' & H3 & ->).
        rewrite task_with_id_snoc, Hid, decide_True in Ht' by done. injection Ht' as <-.
        apply NoDup_app in Hnd as (Hnd1 & Hdis & [Hk0 Hnd2]%NoDup_cons).
        assert (Hrest : Forall2 (λ k t', task_with_id tasks k = Some t') (ks1 ++ ks2) (ord1 ++ ord3)).
        { apply Forall2_app; apply Hold; try done. intros Hin. apply (Hdis _ Hin). left. }
        apply IH in Hrest.
        -- rewrite !total_span_app in *. simpl. lia.
        -- apply NoDup_app. split_and!; [done| |done].
           intros x Hx1 Hx2. apply (Hdis _ Hx1). by right.
      * pose proof (IH ks ord Hnd (Hold ks ord Hnot Hord)). lia.
    + assert (Hold : Forall2 (λ k t', task_with_id tasks k = Some t') ks ord).
      { clear -Hid Hord. induction Hord as [|k t' ks ord Hk _ IH']; constructor; [|done].
        by rewrite task_with_id_snoc, Hid in Hk. }
      pose proof (IH ks ord Hnd Hold). lia.
Qed.

Section timeline.
Variable set_iter : list string → list string.
Hypothesis set_iter_perm : ∀ s, set_iter s ≡ₚ s.

(** What a successful run of [estimate_timeline] establishes. *)
Lemma estimate_timeline_spec tasks project_start cap tl :
  MINORD <= ordinal project_start <= MAXORD →
  estimate_timeline set_iter tasks project_start cap = Return tl →
  ∃ ord st,
    topological_order set_iter (length tasks) tasks = Return ord ∧
    Forall2 (λ k t, task_with_id tasks k = Some t)
            (Scheduled.id <$> Timeline.task_schedule tl) ord ∧
    NoDup (Scheduled.id <$> Timeline.task_schedule tl) ∧
    (∀ k, k ∈ Scheduled.id <$> Timeline.task_schedule tl ↔ k ∈ input_ids tasks) ∧
    (∀ a b, depends_on_existing tasks a b → no_cycle_below tasks b →
            precedes b a (Scheduled.id <$> Timeline.task_schedule tl)) ∧
    sched_inv project_start cap ord st ∧
    Timeline.task_schedule tl = dict_values (dates_for_id st).
Proof.
  intros Hvalid Hrun. unfold estimate_timeline, estimate_timeline_fuel in Hrun.
  inv_bind Hrun. rename x into ord, x0 into st.
  destruct (topological_order_spec set_iter set_iter_perm _ _ _ (le_n _) Hx)
    as (ks & Hord & Hnd & Hks & _ & Hfirst).
  destruct (schedule_inv project_start cap ks ord st Hvalid) as [Hinv Hkeys]; [|done|done|].
  { eapply Forall2_impl; [exact Hord|]. intros k t Hk. by apply task_with_id_Some in Hk as [? _]. }
  apply summarize_Return in Hrun as (Hsched & _).
  assert (Hids : Scheduled.id <$> Timeline.task_schedule tl = ks).
  { by rewrite Hsched, <- (inv_keys _ _ _ _ Hinv). }
  exists ord, st. rewrite Hids. by split_and!.
Qed.

(** When [estimate_timeline] returns. *)
Lemma estimate_timeline_returns tasks project_start cap :
  Forall (λ t, is_Some (Task.id t)) tasks →
  Forall (λ t, Task.hours t ≠ Null) tasks →
  Forall (λ t, Task.depends_on t ≠ Null) tasks →
  cap ≠ 0 →
  MINORD <= ordinal project_start <= MAXORD →
  ordinal project_start + total_span cap tasks <= MAXORD →
  ∃ tl, estimate_timeline set_iter tasks project_start cap = Return tl.
Proof.
  intros Hids Hhours Hdeps Hcap Hvalid Hroom.
  unfold estimate_timeline, estimate_timeline_fuel.
  destruct (topological_order_returns set_iter set_iter_perm _ tasks (le_n _) Hids Hdeps)
    as [ord Hord].
  rewrite Hord. simpl.
  destruct (topological_order_spec set_iter set_iter_perm _ _ _ (le_n _) Hord)
    as (ks & Hkept & Hnd & _).
  assert (Hin : Forall (λ t, t ∈ tasks) ord).
  { clear -Hkept. induction Hkept as [|k t ks ord Hk _ IH]; constructor; [|done].
    by apply task_with_id_Some in Hk as [_ ?]. }
  assert (Hids' : Forall2 (λ k t, Task.id t = Some k) ks ord).
  { eapply Forall2_impl; [exact Hkept|]. intros k t Hk. by apply task_with_id_Some in Hk as [? _]. }
  destruct (schedule_returns project_start cap ks ord Hvalid Hids' Hnd) as [st Hst].
  - rewrite Forall_forall in Hin, Hhours. apply Forall_forall. auto.
  - done.
  - pose proof (kept_tasks_span cap tasks ks ord Hnd Hkept). lia.
  - rewrite Hst. simpl.
    destruct (schedule_inv project_start cap ks ord st Hvalid Hids' Hnd Hst) as [Hinv _].
    apply summarize_returns. eapply Forall_impl; [apply (inv_dated _ _ _ _ Hinv)|].
    by intros e (_ & ? & _).
Qed.

(** Fuel beyond one unit per task does not change the outcome. *)
Lemma estimate_timeline_fuel_enough tasks project_start cap tl n :
  estimate_timeline set_iter tasks project_start cap = Return tl →
  estimate_timeline_fuel set_iter (length tasks + n) tasks project_start cap = Return tl.
Proof.
  unfold estimate_timeline, estimate_timeline_fuel. intros Hrun. inv_bind Hrun.
  by rewrite (topological_order_fuel set_iter _ _ _ n Hx), <- Hrun; simpl; rewrite Hx0.
Qed.
End timeline.

(** * The claims of the specification *)

Lemma well_formed_Forall tasks :
  Forall well_formed tasks →
  Forall (λ t, is_Some (Task.id t)) tasks ∧
  Forall (λ t, Task.hours t ≠ Null) tasks ∧
  Forall (λ t, Task.depends_on t ≠ Null) tasks.
Proof.
  intros H. split_and!; (eapply Forall_impl; [exact H|]); by intros t (? & ? & ?).
Qed.

(** C2.  For every list of well-formed tasks that fits the calendar, whatever
    cycles or dangling references [depends_on] holds, [estimate_timeline]
    terminates with a timeline: the loop needs no more than one pass per task
    (more fuel gives the same timeline), and [task_schedule] has exactly one
    entry for every id of the task list, none twice and none missing. *)
Theorem schedule_covers_every_id
    (set_iter : list string → list string) (tasks : list Task.t)
    (project_start : datetime) (cap : Z) :
  iterates_members set_iter →
  Forall well_formed tasks →
  cap ≠ 0 →
  valid_datetime project_start →
  fits_calendar tasks project_start cap →
  ∃ tl,
    (∀ n, estimate_timeline_fuel set_iter (length tasks + n) tasks project_start cap
          = Return tl) ∧
    estimate_timeline set_iter tasks project_start cap = Return tl ∧
    NoDup (Scheduled.id <$> Timeline.task_schedule tl) ∧
    ∀ k, k ∈ Scheduled.id <$> Timeline.task_schedule tl ↔ k ∈ input_ids tasks.
Proof.
  intros Hiter (Hids & Hhours & Hdeps)%well_formed_Forall Hcap Hvalid Hroom.
  pose proof (valid_datetime_range _ Hvalid) as Hrange.
  destruct (estimate_timeline_returns set_iter Hiter tasks project_start cap
              Hids Hhours Hdeps Hcap Hrange Hroom) as [tl Htl].
  destruct (estimate_timeline_spec set_iter Hiter tasks project_start cap tl Hrange Htl)
    as (ord & st & _ & _ & Hnd & Hks & _).
  exists tl. split_and!; [|done|done|done].
  intros n. by apply estimate_timeline_fuel_enough.
Qed.

Lemma valid_afternoon : valid_datetime afternoon_2024_01_01.
Proof. vm_compute. repeat split; discriminate. Qed.

Lemma tangled_well_formed : Forall well_formed tangled_tasks.
Proof. repeat constructor; simpl; eauto; discriminate. Qed.


Lemma reverse_iterates : iterates_members reverse.
Proof. intros s. apply reverse_Permutation. Qed.

Lemma schedule_covers_every_id_witness :
  ∃ tl,
    (∀ n, estimate_timeline_fuel reverse (length tangled_tasks + n) tangled_tasks
            afternoon_2024_01_01 6 = Return tl) ∧
    estimate_timeline reverse tangled_tasks afternoon_2024_01_01 6 = Return tl ∧
    NoDup (Scheduled.id <$> Timeline.task_schedule tl) ∧
    ∀ k, k ∈ Scheduled.id <$> Timeline.task_schedule tl ↔ k ∈ input_ids tangled_tasks.
Proof.
  apply (schedule_covers_every_id reverse tangled_tasks afternoon_2024_01_01 6).
  - exact reverse_iterates.
  - exact tangled_well_formed.
  - discriminate.
  - exact valid_afternoon.
  - vm_compute. discriminate.
Defined.

(** Helpers shared by the claims about the entries of the schedule. *)
Lemma precedes_lookup (ks : list string) b a i j :
  NoDup ks → precedes b a ks → ks !! i = Some b → ks !! j = Some a → (i < j)%nat.
Proof.
  intros Hnd (pre & post & -> & Hb) Hi Hj.
  apply list_elem_of_lookup in Hb as [i' Hi'].
  assert (Hi'' : (pre ++ a :: post) !! i' = Some b) by by apply lookup_app_l_Some.
  assert (Hj' : (pre ++ a :: post) !! length pre = Some a) by by rewrite list_lookup_middle.
  rewrite (NoDup_lookup _ _ _ _ Hnd Hi Hi''), (NoDup_lookup _ _ _ _ Hnd Hj Hj').
  by apply lookup_lt_Some in Hi'.
Qed.

Lemma well_dated_before project_start ei ej :
  well_dated project_start ei → well_dated project_start ej →
  day_of (Scheduled.end_date ei) < day_of (Scheduled.start_date ej) →
  date_before (Scheduled.end_date ei) (Scheduled.start_date ej).
Proof.
  intros (_ & Hei & _) (Hsj & _) Hlt. unfold parses in Hei, Hsj.
  eexists _, _. split_and!; [exact Hei|exact Hsj|done].
Qed.

Lemma well_dated_range project_start e :
  well_dated project_start e →
  date_not_after (Scheduled.start_date e) (Scheduled.end_date e).
Proof.
  intros (Hs & He & _ & Hlen & Hpos & _). unfold parses in Hs, He.
  eexists _, _. split_and!; [exact Hs|exact He|simpl; lia].
Qed.

(** C3, as the code has it.  Let task A list a dependency B whose id exists
    in the input, and let no dependency cycle be reachable from B through
    existing ids (so B neither depends on A nor on any task caught in a
    cycle).  Then the [start_date] of A is a strictly later calendar day than
    the [end_date] of B. *)
Theorem dependency_ends_before_dependent_starts
    (set_iter : list string → list string) (tasks : list Task.t)
    (project_start : datetime) (cap : Z) (tl : Timeline.t) (ea eb : Scheduled.t) :
  iterates_members set_iter →
  valid_datetime project_start →
  estimate_timeline set_iter tasks project_start cap = Return tl →
  ea ∈ Timeline.task_schedule tl →
  eb ∈ Timeline.task_schedule tl →
  Scheduled.id eb ∈ Scheduled.depends_on ea →
  no_cycle_below tasks (Scheduled.id eb) →
  date_before (Scheduled.end_date eb) (Scheduled.start_date ea).
Proof.
  intros Hiter Hvalid%valid_datetime_range Hrun Hea Heb Hdep Hacc.
  destruct (estimate_timeline_spec set_iter Hiter tasks project_start cap tl Hvalid Hrun)
    as (ord & st & _ & Hkept & Hnd & Hks & Hfirst & Hinv & Hsched).
  apply list_elem_of_lookup in Hea as [j Hj], Heb as [i Hi].
  assert (Hidj : (Scheduled.id <$> Timeline.task_schedule tl) !! j = Some (Scheduled.id ea))
    by by rewrite list_lookup_fmap, Hj.
  assert (Hidi : (Scheduled.id <$> Timeline.task_schedule tl) !! i = Some (Scheduled.id eb))
    by by rewrite list_lookup_fmap, Hi.
  destruct (Forall2_lookup_l _ _ _ _ _ Hkept Hidj) as (ta & Hta & Hkept_a).
  pose proof (inv_entries _ _ _ _ Hinv) as Hentries. rewrite <- Hsched in Hentries.
  destruct (Forall2_lookup_l _ _ _ _ _ Hentries Hta) as (ea' & Hj' & Hentry).
  rewrite Hj in Hj'. injection Hj' as <-.
  destruct Hentry as (_ & _ & _ & _ & Hlisted & _).
  assert (Hab : depends_on_existing tasks (Scheduled.id ea) (Scheduled.id eb)).
  { exists ta. split_and!; [done|by rewrite <- Hlisted|].
    apply Hks. by apply list_elem_of_lookup_2 in Hidi. }
  pose proof (precedes_lookup _ _ _ i j Hnd (Hfirst _ _ Hab Hacc) Hidi Hidj) as Hij.
  pose proof (inv_dated _ _ _ _ Hinv) as Hdated. rewrite <- Hsched, Forall_forall in Hdated.
  apply (well_dated_before project_start).
  - by apply Hdated, (list_elem_of_lookup_2 _ i).
  - by apply Hdated, (list_elem_of_lookup_2 _ j).
  - apply (inv_order _ _ _ _ Hinv i j); rewrite <- ?Hsched; auto.
Qed.

(** C4.  Any two entries of the schedule with the same role occupy disjoint
    ranges of days: the one that the topological pass emitted first ends
    before the other starts.  The schedule lists the entries in the order of
    emission. *)
Theorem same_role_ranges_do_not_overlap
    (set_iter : list string → list string) (tasks : list Task.t)
    (project_start : datetime) (cap : Z) (tl : Timeline.t) :
  iterates_members set_iter →
  valid_datetime project_start →
  estimate_timeline set_iter tasks project_start cap = Return tl →
  ∃ emitted,
    topological_order set_iter (length tasks) tasks = Return emitted ∧
    Forall2 (λ t e, Task.id t = Some (Scheduled.id e)) emitted (Timeline.task_schedule tl) ∧
    ∀ i j ei ej,
      (i < j)%nat →
      Timeline.task_schedule tl !! i = Some ei →
      Timeline.task_schedule tl !! j = Some ej →
      Scheduled.role ei = Scheduled.role ej →
      date_not_after (Scheduled.start_date ei) (Scheduled.end_date ei) ∧
      date_before (Scheduled.end_date ei) (Scheduled.start_date ej) ∧
      date_not_after (Scheduled.start_date ej) (Scheduled.end_date ej).
Proof.
  intros Hiter Hvalid%valid_datetime_range Hrun.
  destruct (estimate_timeline_spec set_iter Hiter tasks project_start cap tl Hvalid Hrun)
    as (ord & st & Hord & _ & _ & _ & _ & Hinv & Hsched).
  exists ord. split_and!; [done| |].
  - rewrite Hsched. eapply Forall2_impl; [apply (inv_entries _ _ _ _ Hinv)|].
    by intros t e (? & _).
  - intros i j ei ej Hij Hi Hj Hrole.
    pose proof (inv_dated _ _ _ _ Hinv) as Hdated. rewrite <- Hsched, Forall_forall in Hdated.
    assert (Hdi : well_dated project_start ei) by by apply Hdated, (list_elem_of_lookup_2 _ i).
    assert (Hdj : well_dated project_start ej) by by apply Hdated, (list_elem_of_lookup_2 _ j).
    split_and!; [by apply (well_dated_range project_start)| |by apply (well_dated_range project_start)].
    apply (well_dated_before project_start); [done|done|].
    apply (inv_order _ _ _ _ Hinv i j); rewrite <- ?Hsched; auto.
Qed.

Lemma tangled_run :
  estimate_timeline reverse tangled_tasks afternoon_2024_01_01 6 = Return tangled_timeline.
Proof. vm_compute. reflexivity. Qed.

Lemma dependency_ends_before_dependent_starts_witness :
  date_before (Scheduled.end_date tangled_T1) (Scheduled.start_date tangled_T2).
Proof.
  apply (dependency_ends_before_dependent_starts reverse tangled_tasks
           afternoon_2024_01_01 6 tangled_timeline tangled_T2 tangled_T1).
  - exact reverse_iterates.
  - exact valid_afternoon.
  - exact tangled_run.
  - simpl. do 3 right. left.
  - simpl. right. left.
  - simpl. left.
  - constructor. intros y (t & Ht & Hy & _).
    vm_compute in Ht. injection Ht as <-. simpl in Hy. by apply elem_of_nil in Hy.
Defined.

(** The claim as the specification words it fails when a cycle lies behind
    the dependency: [A] lists [B], [B] does not list [A], yet [B] waits in a
    cycle with [C], all three are emitted in one batch, and [A] starts on the
    project start, not after the end of [B]. *)
Lemma dependency_behind_cycle_counterexample :
  ∃ tl ea eb,
    estimate_timeline (λ s, s) cycle_behind_tasks midnight_2024_01_01 6 = Return tl ∧
    ea ∈ Timeline.task_schedule tl ∧ eb ∈ Timeline.task_schedule tl ∧
    Scheduled.id ea = "A"%string ∧ Scheduled.id eb = "B"%string ∧
    Scheduled.id eb ∈ Scheduled.depends_on ea ∧
    (Scheduled.id ea ∉ Scheduled.depends_on eb) ∧
    Scheduled.start_date ea = "01.01.2024"%string ∧
    Scheduled.end_date eb = "02.01.2024"%string ∧
    ¬ date_before (Scheduled.end_date eb) (Scheduled.start_date ea).
Proof.
  eexists.
  exists (Scheduled.mk "A" None "backend" 8 "01.01.2024" "02.01.2024" 2 ["B"]).
  exists (Scheduled.mk "B" None "frontend" 8 "01.01.2024" "02.01.2024" 2 ["C"]).
  split; [vm_compute; reflexivity|]. simpl. split_and!.
  - left.
  - right. left.
  - done.
  - done.
  - left.
  - intros [Heq|Hin]%elem_of_cons; [discriminate Heq|by apply elem_of_nil in Hin].
  - done.
  - done.
  - intros (d1 & d2 & H1 & H2 & Hlt).
    vm_compute in H1, H2. injection H1 as <-. injection H2 as <-. simpl in Hlt. lia.
Qed.

Lemma same_role_ranges_do_not_overlap_witness :
  ∃ emitted,
    topological_order reverse (length tangled_tasks) tangled_tasks = Return emitted ∧
    Forall2 (λ t e, Task.id t = Some (Scheduled.id e)) emitted
            (Timeline.task_schedule tangled_timeline) ∧
    ∀ i j ei ej,
      (i < j)%nat →
      Timeline.task_schedule tangled_timeline !! i = Some ei →
      Timeline.task_schedule tangled_timeline !! j = Some ej →
      Scheduled.role ei = Scheduled.role ej →
      date_not_after (Scheduled.start_date ei) (Scheduled.end_date ei) ∧
      date_before (Scheduled.end_date ei) (Scheduled.start_date ej) ∧
      date_not_after (Scheduled.start_date ej) (Scheduled.end_date ej).
Proof.
  apply (same_role_ranges_do_not_overlap reverse tangled_tasks afternoon_2024_01_01 6
           tangled_timeline).
  - exact reverse_iterates.
  - exact valid_afternoon.
  - exact tangled_run.
Defined.

Lemma ceiling_of_div h cap : 0 < cap → ceiling_of h cap ((h + cap - 1) / cap).
Proof.
  intros Hcap. unfold ceiling_of.
  pose proof (Z.div_mod (h + cap - 1) cap ltac:(lia)) as Hdm.
  pose proof (Z.mod_pos_bound (h + cap - 1) cap Hcap) as Hb.
  revert Hdm Hb. generalize ((h + cap - 1) / cap), ((h + cap - 1) mod cap).
  intros q r Hdm Hb. nia.
Qed.

Lemma buffer_days_nearest raw :
  1 <= raw → nearest_to_fifth raw (buffer_days raw) ∧ 0 <= buffer_days raw.
Proof. intros Hraw. unfold nearest_to_fifth, buffer_days. lia. Qed.

(** C5.  For every entry of the schedule and every positive daily capacity:
    the raw duration is the hours divided by the capacity, rounded up, and at
    least one day; the buffer is the integer nearest to a fifth of the raw
    duration, never negative; [duration_days] is their sum, so it is at least
    the rounded-up quotient and at least one; a task of zero hours gets one
    day and no buffer. *)
Theorem duration_is_raw_days_plus_buffer
    (set_iter : list string → list string) (tasks : list Task.t)
    (project_start : datetime) (cap : Z) (tl : Timeline.t) (e : Scheduled.t) :
  iterates_members set_iter →
  valid_datetime project_start →
  0 < cap →
  estimate_timeline set_iter tasks project_start cap = Return tl →
  e ∈ Timeline.task_schedule tl →
  ∃ q raw buffer,
    ceiling_of (Scheduled.hours e) cap q ∧
    raw = Z.max 1 q ∧
    hours_to_days cap (Scheduled.hours e) = Return raw ∧
    buffer = buffer_days raw ∧
    nearest_to_fifth raw buffer ∧ 0 <= buffer ∧
    Scheduled.duration_days e = raw + buffer ∧
    q <= Scheduled.duration_days e ∧
    1 <= Scheduled.duration_days e ∧
    (Scheduled.hours e = 0 → Scheduled.duration_days e = 1 ∧ buffer = 0).
Proof.
  intros Hiter Hvalid%valid_datetime_range Hcap Hrun He.
  destruct (estimate_timeline_spec set_iter Hiter tasks project_start cap tl Hvalid Hrun)
    as (ord & st & _ & _ & _ & _ & _ & Hinv & Hsched).
  pose proof (inv_entries _ _ _ _ Hinv) as Hentries. rewrite <- Hsched in Hentries.
  apply list_elem_of_lookup in He as [i Hi].
  destruct (Forall2_lookup_r _ _ _ _ _ Hentries Hi) as (t & _ & Hentry).
  destruct Hentry as (_ & _ & _ & Hhours & _ & Hdur & _ & _).
  unfold task_span, raw_duration in Hdur. rewrite <- Hhours in Hdur.
  set (h := Scheduled.hours e) in *.
  pose proof (ceiling_of_div h cap Hcap) as Hceil.
  assert (Hzero : h = 0 → (h + cap - 1) / cap = 0).
  { intros ->. apply Z.div_small. lia. }
  assert (Hdays : hours_to_days cap h = Return (Z.max 1 ((h + cap - 1) / cap))).
  { apply hours_to_days_Return. split; [lia|done]. }
  revert Hdur Hceil Hzero Hdays. generalize ((h + cap - 1) / cap).
  intros q Hdur Hceil Hzero Hdays.
  assert (Hraw : 1 <= Z.max 1 q) by apply Z.le_max_l.
  pose proof (Z.le_max_r 1 q) as Hq.
  destruct (buffer_days_nearest (Z.max 1 q) Hraw) as [Hnear Hbuf].
  exists q, (Z.max 1 q), (buffer_days (Z.max 1 q)).
  split_and!; try done.
  - lia.
  - lia.
  - intros Hz. rewrite (Hzero Hz) in *. by vm_compute.
Qed.

Lemma duration_is_raw_days_plus_buffer_witness :
  ∃ q raw buffer,
    ceiling_of (Scheduled.hours tangled_T1) 6 q ∧
    raw = Z.max 1 q ∧
    hours_to_days 6 (Scheduled.hours tangled_T1) = Return raw ∧
    buffer = buffer_days raw ∧
    nearest_to_fifth raw buffer ∧ 0 <= buffer ∧
    Scheduled.duration_days tangled_T1 = raw + buffer ∧
    q <= Scheduled.duration_days tangled_T1 ∧
    1 <= Scheduled.duration_days tangled_T1 ∧
    (Scheduled.hours tangled_T1 = 0 → Scheduled.duration_days tangled_T1 = 1 ∧ buffer = 0).
Proof.
  apply (duration_is_raw_days_plus_buffer reverse tangled_tasks afternoon_2024_01_01 6
           tangled_timeline tangled_T1).
  - exact reverse_iterates.
  - exact valid_afternoon.
  - reflexivity.
  - exact tangled_run.
  - simpl. right. left.
Defined.


(** A [null] for depends_on: the scheduling loop reads it as an empty list,
    but the dependency map is built first and raises on it. *)
Lemma null_depends_on_raises :
  listed_deps task_with_null_depends_on = [] ∧
  (∃ st, place midnight_2024_01_01 6 (mk_sched [] ∅) task_with_null_depends_on = Return st) ∧
  estimate_timeline (λ s, s) [task_with_null_depends_on] midnight_2024_01_01 6
    = Raise TypeError.
Proof. split_and!; [done|eexists; vm_compute; reflexivity|vm_compute; reflexivity]. Qed.









(** C8: the code against the claim.  One task of one hour, started at 00:00
    and at 15:00 of the same day: the schedule and both dates agree, but
    [total_work_days] is 1 at midnight and 0 in the afternoon. *)
Lemma total_work_days_depends_on_time_of_day :
  ∃ tl_midnight tl_afternoon,
    estimate_timeline (λ s, s) one_hour_task midnight_2024_01_01 6 = Return tl_midnight ∧
    estimate_timeline (λ s, s) one_hour_task afternoon_2024_01_01 6 = Return tl_afternoon ∧
    ordinal midnight_2024_01_01 = ordinal afternoon_2024_01_01 ∧
    Timeline.task_schedule tl_midnight = Timeline.task_schedule tl_afternoon ∧
    Timeline.project_start tl_midnight = Timeline.project_start tl_afternoon ∧
    Timeline.project_end tl_midnight = Timeline.project_end tl_afternoon ∧
    Timeline.role_days tl_midnight = Timeline.role_days tl_afternoon ∧
    Timeline.total_work_days tl_midnight = 1 ∧
    Timeline.total_work_days tl_afternoon = 0.
Proof.
  eexists _, _. split; [vm_compute; reflexivity|]. split; [vm_compute; reflexivity|].
  by split_and!.
Qed.

(** ** Plans of two tasks *)

Lemma task_with_id_pair t1 t2 a b :
  Task.id t1 = Some a → Task.id t2 = Some b → a ≠ b →
  task_with_id [t1; t2] a = Some t1 ∧ task_with_id [t1; t2] b = Some t2 ∧
  input_ids [t1; t2] = [a; b].
Proof.
  intros H1 H2 Hne. change [t1; t2] with (([] ++ [t1]) ++ [t2]).
  rewrite !task_with_id_snoc, H1, H2. unfold input_ids. simpl. rewrite H1, H2. simpl.
  split_and!; [|by rewrite decide_True|done].
  rewrite decide_False by congruence. by rewrite decide_True.
Qed.

(** The schedule of two tasks with distinct ids: the first entry starts with
    the project; the second starts with the project or on the day after the
    first ends, and after the first ends if it shares its role or lists it. *)
Lemma two_task_schedule set_iter t1 t2 a b project_start cap tl :
  iterates_members set_iter →
  MINORD <= ordinal project_start <= MAXORD →
  Task.id t1 = Some a → Task.id t2 = Some b → a ≠ b →
  estimate_timeline set_iter [t1; t2] project_start cap = Return tl →
  ∃ e1 e2 u1 u2,
    Timeline.task_schedule tl = [e1; e2] ∧
    ((u1 = t1 ∧ u2 = t2) ∨ (u1 = t2 ∧ u2 = t1)) ∧
    entry_of cap u1 e1 ∧ entry_of cap u2 e2 ∧
    well_dated project_start e1 ∧ well_dated project_start e2 ∧
    day_of (Scheduled.start_date e1) = ordinal project_start ∧
    (day_of (Scheduled.start_date e2) = ordinal project_start ∨
     day_of (Scheduled.start_date e2) = day_of (Scheduled.end_date e1) + 1) ∧
    (Scheduled.role e1 = Scheduled.role e2 ∨ Scheduled.id e1 ∈ Scheduled.depends_on e2 →
     day_of (Scheduled.end_date e1) < day_of (Scheduled.start_date e2)).
Proof.
  intros Hiter Hvalid H1 H2 Hne Hrun.
  destruct (task_with_id_pair t1 t2 a b H1 H2 Hne) as (Ha & Hb & Hinput).
  destruct (estimate_timeline_spec set_iter Hiter _ project_start cap tl Hvalid Hrun)
    as (ord & st & _ & Hkept & Hnd & Hks & _ & Hinv & Hsched).
  assert (Hperm : [a; b] ≡ₚ Scheduled.id <$> Timeline.task_schedule tl).
  { apply NoDup_Permutation; [|done|].
    - apply NoDup_cons. split; [by intros ->%list_elem_of_singleton|apply NoDup_singleton].
    - intros k. by rewrite Hks, Hinput. }
  pose proof (inv_entries _ _ _ _ Hinv) as Hentries.
  pose proof (inv_dated _ _ _ _ Hinv) as Hdated.
  pose proof (inv_tight _ _ _ _ Hinv) as Htight.
  pose proof (inv_order _ _ _ _ Hinv) as Horder.
  rewrite <- Hsched in Hentries, Hdated, Htight, Horder.
  destruct (Timeline.task_schedule tl) as [|e1 [|e2 [|e3 rest]]];
    try (apply Permutation_length in Hperm; simpl in Hperm; discriminate).
  apply Forall2_cons_inv_l in Hkept as (u1 & ord' & Hu1 & Hkept & ->).
  apply Forall2_cons_inv_l in Hkept as (u2 & ord'' & Hu2 & Hkept & ->).
  apply Forall2_nil_inv_l in Hkept as ->.
  apply Forall2_cons in Hentries as [Hentry1 Hentries].
  apply Forall2_cons in Hentries as [Hentry2 _].
  apply Forall_cons in Hdated as [Hd1 Hdated]. apply Forall_cons in Hdated as [Hd2 _].
  exists e1, e2, u1, u2. split_and!; try done.
  - simpl in Hperm. apply Permutation_length_2_inv in Hperm as [[= <- <-]|[= <- <-]].
    + left. split; congruence.
    + right. split; congruence.
  - destruct (Htight 0%nat e1 eq_refl) as [?|(i & ? & Hi & _)]; [done|lia].
  - destruct (Htight 1%nat e2 eq_refl) as [?|(i & ei & Hi & Hei & _ & Hday)]; [by left|right].
    destruct i as [|i]; [|lia]. simpl in Hei. by injection Hei as <-.
  - intros Hrel. apply (Horder 0%nat 1%nat); auto.
Qed.

Lemma task_span_8h_at_6 t : Task.hours t = Val 8 → task_span 6 t = 2.
Proof. intros H. unfold task_span, raw_duration, hours_or_zero. rewrite H. reflexivity. Qed.

(** C9, as the code has it.  Two tasks of the same role, 8 hours each, at 6
    hours a day from 01.01.2024 (at any time of that day, and whatever the
    two tasks list as dependencies, in particular nothing): the task that is
    emitted first runs from 01.01 to 02.01, the buffer of a two-day task
    being round(0.4) = 0 days, and the other begins on 03.01, the day after
    the role is freed.  Which of the two is emitted first is the set's
    iteration order. *)
Theorem two_tasks_of_one_role_run_back_to_back
    (set_iter : list string → list string) (t1 t2 : Task.t) (a b : string)
    (project_start : datetime) :
  iterates_members set_iter →
  valid_datetime project_start →
  ordinal project_start = ordinal midnight_2024_01_01 →
  Task.id t1 = Some a → Task.id t2 = Some b → a ≠ b →
  Task.hours t1 = Val 8 → Task.hours t2 = Val 8 →
  get_role t1 = get_role t2 →
  Task.depends_on t1 ≠ Null → Task.depends_on t2 ≠ Null →
  ∃ tl e1 e2,
    estimate_timeline set_iter [t1; t2] project_start 6 = Return tl ∧
    Timeline.task_schedule tl = [e1; e2] ∧
    ((Scheduled.id e1 = a ∧ Scheduled.id e2 = b) ∨
     (Scheduled.id e1 = b ∧ Scheduled.id e2 = a)) ∧
    Scheduled.start_date e1 = "01.01.2024"%string ∧
    Scheduled.end_date e1 = "02.01.2024"%string ∧
    Scheduled.duration_days e1 = 2 ∧
    Scheduled.start_date e2 = "03.01.2024"%string ∧
    Scheduled.end_date e2 = "04.01.2024"%string.
Proof.
  intros Hiter Hvalid Hday Ha Hb Hne Hh1 Hh2 Hrole Hd1 Hd2.
  pose proof (valid_datetime_range _ Hvalid) as Hrange.
  pose proof (task_span_8h_at_6 t1 Hh1) as Hs1.
  pose proof (task_span_8h_at_6 t2 Hh2) as Hs2.
  destruct (estimate_timeline_returns set_iter Hiter [t1; t2] project_start 6) as [tl Htl].
  - repeat constructor; [by rewrite Ha|by rewrite Hb].
  - repeat constructor; [by rewrite Hh1|by rewrite Hh2].
  - by repeat constructor.
  - done.
  - done.
  - simpl. rewrite Hs1, Hs2, Hday. by vm_compute.
  - destruct (two_task_schedule set_iter t1 t2 a b project_start 6 tl Hiter Hrange Ha Hb Hne Htl)
      as (e1 & e2 & u1 & u2 & Hsched & Hu & Hentry1 & Hentry2 & Hdated1 & Hdated2 &
          Hstart1 & Hstart2 & Horder).
    destruct Hentry1 as (Hid1 & _ & Hrole1 & _ & _ & Hdur1 & _).
    destruct Hentry2 as (Hid2 & _ & Hrole2 & _ & _ & Hdur2 & _).
    assert (Hdurs : Scheduled.duration_days e1 = 2 ∧ Scheduled.duration_days e2 = 2 ∧
                    Scheduled.role e1 = Scheduled.role e2 ∧
                    ((Scheduled.id e1 = a ∧ Scheduled.id e2 = b) ∨
                     (Scheduled.id e1 = b ∧ Scheduled.id e2 = a))).
    { destruct Hu as [[-> ->]|[-> ->]]; rewrite Hdur1, Hdur2, Hrole1, Hrole2;
        (split_and!; [done|done|done|]); [left|right]; split; congruence. }
    destruct Hdurs as (Hdur1' & Hdur2' & Hsame & Hids).
    destruct Hdated1 as (_ & _ & _ & Hend1 & _ & Hs1txt & He1txt).
    destruct Hdated2 as (_ & _ & _ & Hend2 & _ & Hs2txt & He2txt).
    specialize (Horder (or_introl Hsame)).
    assert (Hstart2' : day_of (Scheduled.start_date e2) = day_of (Scheduled.end_date e1) + 1)
      by lia.
    exists tl, e1, e2. split_and!; try done.
    + rewrite Hs1txt, Hstart1, Hday. by vm_compute.
    + rewrite He1txt, Hend1, Hstart1, Hdur1', Hday. by vm_compute.
    + rewrite Hs2txt, Hstart2', Hend1, Hstart1, Hdur1', Hday. by vm_compute.
    + rewrite He2txt, Hend2, Hstart2', Hend1, Hstart1, Hdur1', Hdur2', Hday. by vm_compute.
Qed.

Lemma two_tasks_of_one_role_run_back_to_back_witness :
  ∃ tl e1 e2,
    estimate_timeline reverse two_backend_tasks afternoon_2024_01_01 6 = Return tl ∧
    Timeline.task_schedule tl = [e1; e2] ∧
    ((Scheduled.id e1 = "T1"%string ∧ Scheduled.id e2 = "T2"%string) ∨
     (Scheduled.id e1 = "T2"%string ∧ Scheduled.id e2 = "T1"%string)) ∧
    Scheduled.start_date e1 = "01.01.2024"%string ∧
    Scheduled.end_date e1 = "02.01.2024"%string ∧
    Scheduled.duration_days e1 = 2 ∧
    Scheduled.start_date e2 = "03.01.2024"%string ∧
    Scheduled.end_date e2 = "04.01.2024"%string.
Proof.
  apply (two_tasks_of_one_role_run_back_to_back reverse _ _ "T1"%string "T2"%string).
  - exact reverse_iterates.
  - exact valid_afternoon.
  - reflexivity.
  - reflexivity.
  - reflexivity.
  - discriminate.
  - reflexivity.
  - reflexivity.
  - reflexivity.
  - discriminate.
  - discriminate.
Defined.

(** C9 fails as the specification words it: the first task ends on 02.01,
    not on 03.01, and the second begins on 03.01, not on 04.01. *)
Lemma scenario_one_counterexample :
  ∃ tl e1 e2,
    estimate_timeline (λ s, s) two_backend_tasks midnight_2024_01_01 6 = Return tl ∧
    Timeline.task_schedule tl = [e1; e2] ∧
    Scheduled.id e1 = "T1"%string ∧ Scheduled.id e2 = "T2"%string ∧
    Scheduled.end_date e1 = "02.01.2024"%string ∧
    Scheduled.end_date e1 ≠ "03.01.2024"%string ∧
    Scheduled.start_date e2 = "03.01.2024"%string ∧
    Scheduled.start_date e2 ≠ "04.01.2024"%string.
Proof.
  eexists _, _, _. split; [vm_compute; reflexivity|]. simpl.
  split_and!; try done.
Qed.

Lemma filter_none {A} (P : A → Prop) `{∀ x, Decision (P x)} (l : list A) :
  Forall (λ x, ¬ P x) l → filter P l = [].
Proof.
  induction 1 as [|x l Hx _ IH]; [done|]. by rewrite filter_cons_False.
Qed.

(** C10, as the code has it.  Two tasks with distinct roles that list each
    other: no id is ready, so the fallback takes both in one batch, in the
    set's iteration order.  The one emitted first starts with the project;
    the other finds it already scheduled and starts on the day after its
    buffered end.  The run returns. *)
Theorem circular_pair_runs_in_sequence
    (set_iter : list string → list string) (tA tB : Task.t) (a b : string)
    (project_start : datetime) (cap : Z) :
  iterates_members set_iter →
  valid_datetime project_start →
  cap ≠ 0 →
  fits_calendar [tA; tB] project_start cap →
  Task.id tA = Some a → Task.id tB = Some b → a ≠ b →
  get_role tA ≠ get_role tB →
  b ∈ listed_deps tA → a ∈ listed_deps tB →
  Task.hours tA ≠ Null → Task.hours tB ≠ Null →
  (∃ id_map deps,
     build_id_map [tA; tB] = Return id_map ∧
     build_deps_map id_map = Return deps ∧
     dict_keys id_map = [a; b] ∧
     no_deps deps a = Return false ∧ no_deps deps b = Return false ∧
     ready_batch set_iter (mk_topo (dict_keys id_map) deps []) = Return (set_iter [a; b])) ∧
  ∃ tl e1 e2,
    estimate_timeline set_iter [tA; tB] project_start cap = Return tl ∧
    Timeline.task_schedule tl = [e1; e2] ∧
    ((Scheduled.id e1 = a ∧ Scheduled.id e2 = b) ∨
     (Scheduled.id e1 = b ∧ Scheduled.id e2 = a)) ∧
    Scheduled.start_date e1 = _format_date project_start ∧
    date_next (Scheduled.end_date e1) (Scheduled.start_date e2).
Proof.
  intros Hiter Hvalid Hcap Hroom Ha Hb Hne Hroles HbA HaB HhA HhB.
  pose proof (valid_datetime_range _ Hvalid) as Hrange.
  assert (HdA : Task.depends_on tA ≠ Null).
  { intros Hn. unfold listed_deps in HbA. rewrite Hn in HbA. by apply elem_of_nil in HbA. }
  assert (HdB : Task.depends_on tB ≠ Null).
  { intros Hn. unfold listed_deps in HaB. rewrite Hn in HaB. by apply elem_of_nil in HaB. }
  split.
  - assert (Hm : build_id_map [tA; tB] = Return [(a, tA); (b, tB)]).
    { unfold build_id_map. simpl. rewrite Ha. simpl. rewrite Hb. simpl.
      by rewrite decide_False by congruence. }
    destruct (build_deps_map_returns [(a, tA); (b, tB)]) as [deps Hdeps].
    { intros k t Hk. simpl in Hk. repeat case_decide; naive_solver. }
    destruct (build_deps_map_spec _ _ Hdeps) as [Hlook _].
    assert (Hwa : no_deps deps a = Return false).
    { unfold no_deps. rewrite Hlook. simpl. rewrite decide_True by done. simpl.
      rewrite bool_decide_eq_false_2; [done|]. intros Hempty.
      assert (Hin : b ∈ existing_deps [(a, tA); (b, tB)] tA); [|by rewrite Hempty in Hin; set_solver].
      apply elem_of_filter. rewrite elem_of_list_to_set. split; [|done].
      simpl. rewrite decide_False by congruence. rewrite decide_True by done. eauto. }
    assert (Hwb : no_deps deps b = Return false).
    { unfold no_deps. rewrite Hlook. simpl. rewrite decide_False by congruence.
      rewrite decide_True by done. simpl.
      rewrite bool_decide_eq_false_2; [done|]. intros Hempty.
      assert (Hin : a ∈ existing_deps [(a, tA); (b, tB)] tB); [|by rewrite Hempty in Hin; set_solver].
      apply elem_of_filter. rewrite elem_of_list_to_set. split; [|done].
      simpl. rewrite decide_True by done. eauto. }
    exists [(a, tA); (b, tB)], deps. split_and!; try done.
    unfold ready_batch. simpl.
    assert (Hall : Forall (λ k, k = a ∨ k = b) (set_iter [a; b])).
    { apply Forall_forall. intros k Hk. rewrite (Hiter [a; b]) in Hk.
      apply elem_of_cons in Hk as [->|Hk]; [by left|right].
      by apply list_elem_of_singleton in Hk. }
    assert (Hfilter : filterM (no_deps deps) (set_iter [a; b]) = Return []).
    { induction Hall as [|k l [->| ->] _ IH]; simpl; [done| |].
      - by rewrite Hwa, IH.
      - by rewrite Hwb, IH. }
    by rewrite Hfilter.
  - destruct (estimate_timeline_returns set_iter Hiter [tA; tB] project_start cap) as [tl Htl];
      try done.
    { repeat constructor; [by rewrite Ha|by rewrite Hb]. }
    { by repeat constructor. }
    { by repeat constructor. }
    destruct (two_task_schedule set_iter tA tB a b project_start cap tl Hiter Hrange Ha Hb Hne Htl)
      as (e1 & e2 & u1 & u2 & Hsched & Hu & Hentry1 & Hentry2 & Hdated1 & Hdated2 &
          Hstart1 & Hstart2 & Horder).
    destruct Hentry1 as (Hid1 & _ & _ & _ & _ & _).
    destruct Hentry2 as (Hid2 & _ & _ & _ & Hdeps2 & _).
    assert (Hlists : Scheduled.id e1 ∈ Scheduled.depends_on e2 ∧
                     ((Scheduled.id e1 = a ∧ Scheduled.id e2 = b) ∨
                      (Scheduled.id e1 = b ∧ Scheduled.id e2 = a))).
    { rewrite Hdeps2. destruct Hu as [[-> ->]|[-> ->]].
      - assert (Scheduled.id e1 = a) as -> by congruence.
        split; [done|]. left. split; congruence.
      - assert (Scheduled.id e1 = b) as -> by congruence.
        split; [done|]. right. split; congruence. }
    destruct Hlists as [Hlisted Hids].
    specialize (Horder (or_intror Hlisted)).
    destruct Hdated1 as (_ & Hpe1 & _ & Hend1 & Hpos1 & Hs1txt & _).
    destruct Hdated2 as (Hps2 & _).
    exists tl, e1, e2. split_and!; try done.
    + rewrite Hs1txt, Hstart1. symmetry. apply format_date_day.
    + unfold parses in Hpe1, Hps2. eexists _, _.
      split_and!; [exact Hpe1|exact Hps2|]. simpl. lia.
Qed.

Lemma circular_pair_runs_in_sequence_witness :
  (∃ id_map deps,
     build_id_map circular_tasks = Return id_map ∧
     build_deps_map id_map = Return deps ∧
     dict_keys id_map = ["A"; "B"]%string ∧
     no_deps deps "A" = Return false ∧ no_deps deps "B" = Return false ∧
     ready_batch reverse (mk_topo (dict_keys id_map) deps [])
       = Return (reverse ["A"; "B"]%string)) ∧
  ∃ tl e1 e2,
    estimate_timeline reverse circular_tasks afternoon_2024_01_01 6 = Return tl ∧
    Timeline.task_schedule tl = [e1; e2] ∧
    ((Scheduled.id e1 = "A"%string ∧ Scheduled.id e2 = "B"%string) ∨
     (Scheduled.id e1 = "B"%string ∧ Scheduled.id e2 = "A"%string)) ∧
    Scheduled.start_date e1 = _format_date afternoon_2024_01_01 ∧
    date_next (Scheduled.end_date e1) (Scheduled.start_date e2).
Proof.
  apply (circular_pair_runs_in_sequence reverse _ _ "A"%string "B"%string
           afternoon_2024_01_01 6).
  - exact reverse_iterates.
  - exact valid_afternoon.
  - discriminate.
  - vm_compute. discriminate.
  - reflexivity.
  - reflexivity.
  - discriminate.
  - discriminate.
  - simpl. left.
  - simpl. left.
  - discriminate.
  - discriminate.
Defined.

(** C10 fails as the specification words it: with sets that iterate in input
    order, [B] is emitted after [A] in the fallback batch and starts on
    03.01.2024, the day after [A] ends, not on the project start. *)
Lemma circular_pair_counterexample :
  ∃ tl eA eB,
    estimate_timeline (λ s, s) circular_tasks midnight_2024_01_01 6 = Return tl ∧
    Timeline.task_schedule tl = [eA; eB] ∧
    Scheduled.id eA = "A"%string ∧ Scheduled.id eB = "B"%string ∧
    Scheduled.role eA ≠ Scheduled.role eB ∧
    Timeline.project_start tl = "01.01.2024"%string ∧
    Scheduled.start_date eA = "01.01.2024"%string ∧
    Scheduled.end_date eA = "02.01.2024"%string ∧
    Scheduled.start_date eB = "03.01.2024"%string ∧
    Scheduled.start_date eB ≠ Timeline.project_start tl.
Proof.
  eexists _, _, _. split; [vm_compute; reflexivity|]. simpl.
  split_and!; done.
Qed.

(** * Further properties of the module *)

(** ** The time of day of the project start *)

Lemma bind_rel {A B} (R : A → A → Prop) (S : B → B → Prop) x y (f g : A → result B) :
  result_rel R x y →
  (∀ a b, R a b → result_rel S (f a) (g b)) →
  result_rel S (bind x f) (bind y g).
Proof. destruct x, y; simpl; try done. auto. Qed.

Lemma result_rel_refl {A} (R : A → A → Prop) (x : result A) :
  (∀ a, R a a) → result_rel R x x.
Proof. destruct x; simpl; auto. Qed.

Lemma foldM_rel {A B} (R : A → A → Prop) (f g : A → B → result A) l :
  (∀ a b x, R a b → result_rel R (f a x) (g b x)) →
  ∀ a b, R a b → result_rel R (foldM f a l) (foldM g b l).
Proof.
  intros Hstep. induction l as [|x l IH]; intros a b Hab; simpl; [done|].
  apply (bind_rel R R); auto.
Qed.

Lemma add_days_same_day a b n :
  same_day a b → result_rel same_day (add_days a n) (add_days b n).
Proof.
  unfold same_day, add_days. intros ->.
  destruct ((MINORD <=? ordinal b + n) && (ordinal b + n <=? MAXORD)); simpl; done.
Qed.

Lemma dt_max_same_day a b a' b' :
  same_day a a' → same_day b b' → same_day (dt_max a b) (dt_max a' b').
Proof. unfold same_day. rewrite !ordinal_dt_max. by intros -> ->. Qed.

Lemma format_date_same_day a b : same_day a b → _format_date a = _format_date b.
Proof. unfold same_day, _format_date. by intros ->. Qed.

(** One step of the scheduling loop sees only the day of the project start. *)
Lemma place_same_day ps ps' cap st st' t :
  same_day ps ps' → sched_same_days st st' →
  result_rel sched_same_days (place ps cap st t) (place ps' cap st' t).
Proof.
  intros Hps [Hdates Hfree]. unfold place. rewrite <- Hdates.
  apply (bind_rel eq); [by apply result_rel_refl|]. intros h ? <-.
  apply (bind_rel eq); [by apply result_rel_refl|]. intros dur ? <-.
  apply (bind_rel eq); [by apply result_rel_refl|]. intros ends ? <-.
  apply (bind_rel same_day).
  { destruct ends as [|e es]; [done|].
    apply (bind_rel same_day); [by apply add_days_same_day|].
    intros next next' Hnext. simpl. by apply dt_max_same_day. }
  intros earliest earliest' Hearliest.
  assert (Hstart : same_day
            (dt_max earliest (default ps (role_next_free st !! get_role t)))
            (dt_max earliest' (default ps' (role_next_free st' !! get_role t)))).
  { apply dt_max_same_day; [done|].
    destruct (Hfree (get_role t)) as [nf nf' Hnf|]; simpl; done. }
  apply (bind_rel same_day); [by apply add_days_same_day|]. intros end_ end_' Hend.
  apply (bind_rel same_day); [by apply add_days_same_day|]. intros ewb ewb' Hewb.
  apply (bind_rel eq); [by apply result_rel_refl|]. intros tid ? <-.
  apply (bind_rel same_day); [by apply add_days_same_day|]. intros nf nf' Hnf.
  simpl. split; simpl.
  - by rewrite (format_date_same_day _ _ Hstart), (format_date_same_day _ _ Hewb).
  - intros r. destruct (decide (r = get_role t)) as [->|Hne].
    + rewrite !lookup_insert_eq. by constructor.
    + rewrite !lookup_insert_ne by done. apply Hfree.
Qed.

Lemma summarize_same_day ps ps' dates :
  same_day ps ps' → result_rel same_but_total (summarize ps dates) (summarize ps' dates).
Proof.
  intros Hps. unfold summarize.
  apply (bind_rel same_day).
  { destruct (dict_values dates); [done|]. by apply result_rel_refl. }
  intros pe pe' Hpe. simpl. unfold same_but_total. simpl.
  by rewrite (format_date_same_day _ _ Hps), (format_date_same_day _ _ Hpe).
Qed.

(** X1.  The schedule, both dates and the days per role depend on the project
    start through its calendar day only: two starts on the same day lead to
    the same exception, or to timelines that differ at most in
    [total_work_days]. *)
Theorem timeline_depends_on_start_day_except_total
    (set_iter : list string → list string) (tasks : list Task.t)
    (project_start project_start' : datetime) (cap : Z) :
  same_day project_start project_start' →
  result_rel same_but_total
    (estimate_timeline set_iter tasks project_start cap)
    (estimate_timeline set_iter tasks project_start' cap).
Proof.
  intros Hps. unfold estimate_timeline, estimate_timeline_fuel.
  apply (bind_rel eq); [by apply result_rel_refl|]. intros ord ? <-.
  apply (bind_rel sched_same_days).
  { unfold schedule. apply foldM_rel.
    - intros st st' t Hst. by apply place_same_day.
    - split; [done|]. intros r. simpl. rewrite !lookup_empty. constructor. }
  intros st st' [Hdates _]. rewrite <- Hdates. by apply summarize_same_day.
Qed.

Lemma timeline_depends_on_start_day_except_total_witness :
  result_rel same_but_total
    (estimate_timeline reverse tangled_tasks midnight_2024_01_01 6)
    (estimate_timeline reverse tangled_tasks afternoon_2024_01_01 6).
Proof.
  apply (timeline_depends_on_start_day_except_total reverse tangled_tasks).
  reflexivity.
Defined.

Lemma summarize_total project_start dates tl :
  0 <= micros project_start < US_PER_DAY →
  Forall (well_dated project_start) (dict_values dates) →
  dict_values dates ≠ [] →
  summarize project_start dates = Return tl →
  parses (Timeline.project_end tl) ∧
  Timeline.total_work_days tl =
    day_of (Timeline.project_end tl) - ordinal project_start
    + (if micros project_start =? 0 then 1 else 0).
Proof.
  intros Hmicros Hdated Hne. unfold summarize.
  assert (Hp : Forall (λ e, parses (Scheduled.end_date e)) (dict_values dates)).
  { eapply Forall_impl; [exact Hdated|]. by intros e (_ & He & _). }
  destruct (dict_values dates) as [|v vs] eqn:Hv; [done|].
  rewrite (parse_ends_spec _ Hp). simpl.
  match goal with
  | |- context [dt_max_list ?a ?b] =>
      pose proof (dt_max_list_in a b) as Hin; set (pe := dt_max_list a b) in *
  end.
  assert (Hpe : ∃ e, e ∈ v :: vs ∧ pe = mkdt (day_of (Scheduled.end_date e)) 0).
  { apply elem_of_cons in Hin as [Hin|Hin].
    - exists v. split; [left|done].
    - apply list_elem_of_fmap in Hin as (e & -> & He). exists e. split; [by right|done]. }
  destruct Hpe as (e & He & Hpe). clearbody pe. subst pe.
  rewrite Forall_forall in Hdated. destruct (Hdated e He) as (_ & Hparses & _ & _ & _ & _ & Hfmt).
  intros [= <-]. simpl. rewrite <- Hfmt. split; [done|].
  unfold sub_days, US_PER_DAY in *. simpl.
  destruct (micros project_start =? 0) eqn:Hm; lia.
Qed.

(** X2.  When something is scheduled, [total_work_days] counts the days from
    the project start to the project end, both included, only when the
    project starts at midnight; with any later time of day it is one less. *)
Theorem total_work_days_by_time_of_day
    (set_iter : list string → list string) (tasks : list Task.t)
    (project_start : datetime) (cap : Z) (tl : Timeline.t) :
  iterates_members set_iter →
  valid_datetime project_start →
  estimate_timeline set_iter tasks project_start cap = Return tl →
  Timeline.task_schedule tl ≠ [] →
  parses (Timeline.project_end tl) ∧
  Timeline.total_work_days tl =
    day_of (Timeline.project_end tl) - ordinal project_start
    + (if micros project_start =? 0 then 1 else 0).
Proof.
  intros Hiter Hvalid Hrun Hne.
  pose proof (valid_datetime_range _ Hvalid) as Hrange.
  destruct Hvalid as [_ Hmicros].
  unfold estimate_timeline, estimate_timeline_fuel in Hrun. inv_bind Hrun.
  rename x into ord, x0 into st.
  destruct (topological_order_spec set_iter Hiter _ _ _ (le_n _) Hx)
    as (ks & Hord & Hnd & _).
  destruct (schedule_inv project_start cap ks ord st Hrange) as [Hinv _]; [|done|done|].
  { eapply Forall2_impl; [exact Hord|]. intros k t Hk. by apply task_with_id_Some in Hk as [? _]. }
  destruct (summarize_Return _ _ _ Hrun) as (Hsched & _). rewrite Hsched in Hne.
  exact (summarize_total _ _ _ Hmicros (inv_dated _ _ _ _ Hinv) Hne Hrun).
Qed.

Lemma total_work_days_by_time_of_day_witness :
  parses (Timeline.project_end tangled_timeline) ∧
  Timeline.total_work_days tangled_timeline =
    day_of (Timeline.project_end tangled_timeline) - ordinal afternoon_2024_01_01 + 0.
Proof.
  apply (total_work_days_by_time_of_day reverse tangled_tasks afternoon_2024_01_01 6).
  - exact reverse_iterates.
  - exact valid_afternoon.
  - exact tangled_run.
  - discriminate.
Defined.

(** ** Regular expressions: the substitution loop *)

Local Open Scope nat_scope.

Lemma re_sub_from_fuel pat repl :
  ∀ fuel1 fuel2 s, length s ≤ fuel1 → length s ≤ fuel2 →
  re_sub_from fuel1 pat repl s = re_sub_from fuel2 pat repl s.
Proof.
  induction fuel1 as [|f1 IH]; intros fuel2 s H1 H2.
  - destruct s; [|simpl in H1; lia]. by destruct fuel2.
  - destruct s as [|c s']; [by destruct fuel2|].
    destruct fuel2 as [|f2]; [simpl in H2; lia|].
    cbn [re_sub_from]. simpl in H1, H2.
    destruct (rmatch pat (c :: s')) as [[marks rest]|]; [|f_equal; apply IH; lia].
    destruct (length rest <? length (c :: s')) eqn:Hlt.
    + apply Nat.ltb_lt in Hlt. simpl in Hlt. f_equal. apply IH; lia.
    + f_equal. apply IH; lia.
Qed.

(** The loop, one step at a time. *)
Lemma re_sub_cons pat repl c s' :
  re_sub pat repl (c :: s') =
    match rmatch pat (c :: s') with
    | Some (_, rest) =>
        if length rest <? length (c :: s')
        then repl ++ re_sub pat repl rest
        else c :: re_sub pat repl s'
    | None => c :: re_sub pat repl s'
    end.
Proof.
  unfold re_sub. cbn [re_sub_from length].
  destruct (rmatch pat (c :: s')) as [[marks rest]|]; [|done].
  destruct (length rest <? _) eqn:Hlt; [|done].
  apply Nat.ltb_lt in Hlt.
  f_equal. apply re_sub_from_fuel; lia.
Qed.

(** ** [_clean_text] *)

Lemma is_space_SPACE : is_space SPACE = true.
Proof. reflexivity. Qed.

Lemma greedy_spaces s :
  greedy_star is_space (λ s, Some ([], s)) s = Some ([], str_lstrip s).
Proof.
  induction s as [|c s IH]; simpl; [done|].
  destruct (is_space c); [by rewrite IH|done].
Qed.

Lemma rmatch_spaces s :
  rmatch SPACES_RE s =
    match s with
    | c :: s' => if is_space c then Some ([], str_lstrip s') else None
    | [] => None
    end.
Proof.
  destruct s as [|c s']; [done|]. unfold SPACES_RE. simpl.
  destruct (is_space c); [apply greedy_spaces|done].
Qed.

Lemma length_lstrip s : length (str_lstrip s) ≤ length s.
Proof. induction s as [|c s IH]; simpl; [done|]. destruct (is_space c); simpl; lia. Qed.

(** Replacing the runs of whitespace: a run becomes one SPACE. *)
Lemma squeeze_cons c s' :
  re_sub SPACES_RE [SPACE] (c :: s') =
    if is_space c then SPACE :: re_sub SPACES_RE [SPACE] (str_lstrip s')
    else c :: re_sub SPACES_RE [SPACE] s'.
Proof.
  rewrite re_sub_cons, rmatch_spaces. destruct (is_space c); [|done].
  pose proof (length_lstrip s') as Hlen.
  destruct (length (str_lstrip s') <? length (c :: s')) eqn:Hlt; [done|].
  apply Nat.ltb_ge in Hlt. simpl in Hlt. lia.
Qed.

(** Induction along the runs of a text. *)
Lemma spaces_ind (P : list N → Prop) :
  P [] →
  (∀ c s, is_space c = false → P s → P (c :: s)) →
  (∀ c s, is_space c = true → P (str_lstrip s) → P (c :: s)) →
  ∀ s, P s.
Proof.
  intros Hnil Hword Hspace s. remember (length s) as n eqn:Hn. revert s Hn.
  induction n as [n IH] using lt_wf_ind. intros [|c s] Hn; [done|].
  simpl in Hn. destruct (is_space c) eqn:Hc.
  - apply Hspace; [done|]. pose proof (length_lstrip s).
    apply (IH (length (str_lstrip s))); [lia|done].
  - apply Hword; [done|]. apply (IH (length s)); [lia|done].
Qed.

Lemma lstrip_starts s : str_lstrip s = [] ∨ starts_word (str_lstrip s) = true.
Proof.
  induction s as [|c s IH]; simpl; [by left|].
  destruct (is_space c) eqn:Hc; [done|]. right. simpl. by rewrite Hc.
Qed.

Lemma lstrip_word s : s = [] ∨ starts_word s = true → str_lstrip s = s.
Proof.
  intros [->|Hs]; [done|]. destruct s as [|c s]; [done|]. simpl in *.
  by destruct (is_space c).
Qed.

Lemma lstrip_idemp s : str_lstrip (str_lstrip s) = str_lstrip s.
Proof. apply lstrip_word, lstrip_starts. Qed.

Lemma squeeze_nil s : re_sub SPACES_RE [SPACE] s = [] → s = [].
Proof. destruct s as [|c s]; [done|]. rewrite squeeze_cons. by destruct (is_space c). Qed.

Lemma starts_word_squeeze s :
  starts_word (re_sub SPACES_RE [SPACE] s) = starts_word s.
Proof.
  destruct s as [|c s]; [done|]. rewrite squeeze_cons. cbn [starts_word].
  destruct (is_space c) eqn:Hc; cbn [starts_word]; by rewrite ?is_space_SPACE, ?Hc.
Qed.

(** Stripping on the left before or after the replacement is the same. *)
Lemma lstrip_squeeze s :
  str_lstrip (re_sub SPACES_RE [SPACE] s) = re_sub SPACES_RE [SPACE] (str_lstrip s).
Proof.
  destruct s as [|c s]; [done|]. rewrite squeeze_cons. cbn [str_lstrip].
  destruct (is_space c) eqn:Hc.
  - cbn [str_lstrip]. rewrite is_space_SPACE. apply lstrip_word.
    destruct (lstrip_starts s) as [->|Hs]; [by left|].
    right. by rewrite starts_word_squeeze.
  - rewrite squeeze_cons, Hc. cbn [str_lstrip]. by rewrite Hc.
Qed.

(** Stripping on the right, from the left. *)
Lemma lstrip_snoc s c :
  str_lstrip (s ++ [c]) =
    match str_lstrip s with
    | [] => if is_space c then [] else [c]
    | t => t ++ [c]
    end.
Proof.
  induction s as [|d s IH]; simpl; [done|].
  destruct (is_space d); [done|]. done.
Qed.

Lemma rstrip_cons c s :
  str_rstrip (c :: s) =
    match str_rstrip s with
    | [] => if is_space c then [] else [c]
    | t => c :: t
    end.
Proof.
  unfold str_rstrip. rewrite reverse_cons, lstrip_snoc.
  destruct (str_lstrip (reverse s)) as [|d t] eqn:Ht.
  - rewrite reverse_nil. by destruct (is_space c).
  - rewrite reverse_app, reverse_singleton. simpl.
    destruct (reverse (d :: t)) eqn:Hr; [|done].
    apply (f_equal length) in Hr. rewrite length_reverse in Hr. done.
Qed.

Lemma rstrip_nil : str_rstrip [] = [].
Proof. done. Qed.

(** ** Words *)

Lemma words_cons_word c s :
  is_space c = false →
  words (c :: s) =
    if starts_word s then
      match words s with
      | w :: ws => (c :: w) :: ws
      | [] => [[c]]
      end
    else [c] :: words s.
Proof. intros Hc. simpl. by rewrite Hc. Qed.

Lemma words_cons_space c s : is_space c = true → words (c :: s) = words s.
Proof. intros Hc. simpl. by rewrite Hc. Qed.

Lemma words_lstrip s : words (str_lstrip s) = words s.
Proof.
  induction s as [|c s IH]; [done|]. simpl str_lstrip.
  destruct (is_space c) eqn:Hc; [|done]. by rewrite words_cons_space.
Qed.

Lemma words_starts s : starts_word s = true → words s ≠ [].
Proof.
  destruct s as [|c s]; [done|]. simpl. intros Hc%negb_true_iff. rewrite Hc.
  destruct (starts_word s); [by destruct (words s)|done].
Qed.

(** A word is not empty and holds no whitespace. *)
Lemma words_spec s :
  Forall (λ w, w ≠ [] ∧ Forall (λ c, is_space c = false) w) (words s).
Proof.
  induction s as [|c s IH]; [constructor|]. simpl.
  destruct (is_space c) eqn:Hc; [done|].
  destruct (starts_word s).
  - destruct (words s) as [|w ws]; [by repeat constructor|].
    apply Forall_cons in IH as [[_ Hw] Hws]. constructor; [|done].
    split; [done|by constructor].
  - constructor; [|done]. split; [done|by repeat constructor].
Qed.

Lemma join_with_cons sep w ws :
  ws ≠ [] → join_with sep (w :: ws) = w ++ sep ++ join_with sep ws.
Proof. by destruct ws. Qed.

Lemma join_with_cons_cons sep c w ws :
  join_with sep ((c :: w) :: ws) = c :: join_with sep (w :: ws).
Proof. by destruct ws. Qed.

Lemma join_with_nil sep ws :
  Forall (λ w, w ≠ []) ws → join_with sep ws = [] → ws = [].
Proof.
  intros Hws. destruct ws as [|w ws]; [done|]. apply Forall_cons in Hws as [Hw _].
  destruct ws; simpl; [done|]. by destruct w.
Qed.

Lemma words_nonempty s : Forall (λ w, w ≠ []) (words s).
Proof. eapply Forall_impl; [apply words_spec|]. by intros w [? _]. Qed.

Local Open Scope nat_scope.

Lemma rstrip_squeeze_words :
  ∀ t, t = [] ∨ starts_word t = true →
       str_rstrip (re_sub SPACES_RE [SPACE] t) = join_with [SPACE] (words t).
Proof.
  intros t. remember (length t) as n eqn:Hn. revert t Hn.
  induction n as [n IH] using lt_wf_ind. intros [|c s'] Hn Ht; [done|].
  assert (Hc : is_space c = false).
  { destruct Ht as [?|Ht]; [done|]. simpl in Ht. by apply negb_true_iff in Ht. }
  simpl in Hn. rewrite squeeze_cons, Hc, rstrip_cons, Hc, (words_cons_word _ _ Hc).
  destruct (starts_word s') eqn:Hs'.
  - rewrite (IH (length s') ltac:(lia) s' eq_refl (or_intror Hs')).
    pose proof (words_starts s' Hs') as Hne. pose proof (words_nonempty s') as Hws.
    destruct (words s') as [|w ws] eqn:Hw; [done|].
    rewrite join_with_cons_cons.
    destruct (join_with [SPACE] (w :: ws)) eqn:Hj; [|done].
    by apply join_with_nil in Hj.
  - destruct s' as [|d s'']; [done|].
    assert (Hd : is_space d = true).
    { simpl in Hs'. by apply negb_false_iff in Hs'. }
    rewrite squeeze_cons, Hd, rstrip_cons, is_space_SPACE, (words_cons_space _ _ Hd).
    pose proof (length_lstrip s'') as Hlen. simpl in Hn.
    rewrite (IH (length (str_lstrip s'')) ltac:(lia) _ eq_refl (lstrip_starts s'')).
    rewrite words_lstrip. pose proof (words_nonempty s'') as Hws.
    destruct (words s'') as [|w ws] eqn:Hw; [done|].
    destruct (join_with [SPACE] (w :: ws)) eqn:Hj.
    { by apply join_with_nil in Hj. }
    rewrite <- Hj. by rewrite (join_with_cons _ [c]).
Qed.

Lemma strip_squeeze_words s :
  str_strip (re_sub SPACES_RE [SPACE] s) = join_with [SPACE] (words s).
Proof.
  unfold str_strip. rewrite lstrip_squeeze.
  rewrite (rstrip_squeeze_words _ (lstrip_starts s)). by rewrite words_lstrip.
Qed.

(** X3.  [_clean_text] returns the words of the text, its maximal runs of
    characters that are no whitespace, in their order and with one SPACE
    between two of them. *)
Theorem clean_text_joins_words (s : list N) :
  _clean_text s = join_with [SPACE] (words s).
Proof. unfold _clean_text. by rewrite strip_squeeze_words. Qed.

Lemma single_spaced_word w t :
  Forall (λ c, is_space c = false) w → single_spaced t → single_spaced (w ++ t).
Proof.
  induction 1 as [|c w Hc _ IH]; intros Ht; simpl; [done|].
  split; [|by apply IH]. intros Hc'. congruence.
Qed.

Lemma starts_word_app w t :
  w ≠ [] → Forall (λ c, is_space c = false) w → starts_word (w ++ t) = true.
Proof. intros Hne Hw. destruct Hw as [|c w Hc _]; [done|]. simpl. by rewrite Hc. Qed.

Lemma clean_form_join ws :
  Forall (λ w, w ≠ [] ∧ Forall (λ c, is_space c = false) w) ws →
  clean_form (join_with [SPACE] ws).
Proof.
  induction 1 as [|w ws [Hne Hw] Hws IH]; [by split; [left|]|].
  destruct ws as [|w' ws'].
  - simpl. split.
    + right. rewrite <- (app_nil_r w). by apply starts_word_app.
    + rewrite <- (app_nil_r w). by apply single_spaced_word.
  - rewrite join_with_cons by done. destruct IH as [Hstart Hsingle]. split.
    + right. by apply starts_word_app.
    + apply single_spaced_word; [done|]. simpl. split; [|done].
      intros _. split; [done|]. destruct Hstart as [Hnil|?]; [|done].
      apply join_with_nil in Hnil; [done|].
      eapply Forall_impl; [exact Hws|]. by intros ? [? _].
Qed.

(** X4.  The result of [_clean_text] has no whitespace at its start or its
    end, and every whitespace character inside is a single SPACE between two
    characters that are no whitespace. *)
Theorem clean_text_is_clean (s : list N) : clean_form (_clean_text s).
Proof.
  unfold _clean_text. rewrite strip_squeeze_words.
  apply clean_form_join, words_spec.
Qed.

Lemma join_words_clean :
  ∀ t, clean_form t → join_with [SPACE] (words t) = t.
Proof.
  intros t. remember (length t) as n eqn:Hn. revert t Hn.
  induction n as [n IH] using lt_wf_ind. intros [|c s'] Hn [Ht Hsingle]; [done|].
  assert (Hc : is_space c = false).
  { destruct Ht as [?|Ht]; [done|]. simpl in Ht. by apply negb_true_iff in Ht. }
  simpl in Hn. destruct Hsingle as [_ Hsingle]. rewrite (words_cons_word _ _ Hc).
  destruct (starts_word s') eqn:Hs'.
  - pose proof (IH (length s') ltac:(lia) s' eq_refl (conj (or_intror Hs') Hsingle)) as Hj.
    pose proof (words_starts s' Hs') as Hne.
    destruct (words s') as [|w ws]; [done|]. by rewrite join_with_cons_cons, Hj.
  - destruct s' as [|d s'']; [done|].
    assert (Hd : is_space d = true).
    { simpl in Hs'. by apply negb_false_iff in Hs'. }
    destruct Hsingle as [Hspace Hsingle]. destruct (Hspace Hd) as [-> Hs''].
    rewrite (words_cons_space _ _ Hd). simpl in Hn.
    pose proof (IH (length s'') ltac:(lia) s'' eq_refl (conj (or_intror Hs'') Hsingle)) as Hj.
    pose proof (words_starts s'' Hs'') as Hne.
    rewrite join_with_cons by done. by rewrite Hj.
Qed.

(** X5.  The texts that [_clean_text] leaves as they are are the texts in
    clean form; so cleaning twice is cleaning once. *)
Theorem clean_text_fixed_points (s : list N) :
  (_clean_text s = s ↔ clean_form s) ∧
  _clean_text (_clean_text s) = _clean_text s.
Proof.
  assert (Hclean : ∀ t, clean_form (_clean_text t)).
  { intros t. unfold _clean_text. rewrite strip_squeeze_words.
    apply clean_form_join, words_spec. }
  assert (Hfix : ∀ t, clean_form t → _clean_text t = t).
  { intros t Ht. unfold _clean_text. by rewrite strip_squeeze_words, join_words_clean. }
  split; [split|].
  - intros <-. apply Hclean.
  - apply Hfix.
  - apply Hfix, Hclean.
Qed.

Example clean_text_example :
  _clean_text ([SPACE; 9] ++ py "Build" ++ [NEWLINE; 160] ++ py "a  shop" ++ [SPACE])%N
  = py "Build a shop".
Proof. vm_compute. reflexivity. Qed.

(** ** The line comments of a JSON block *)

Local Open Scope nat_scope.

Lemma lazy_to_eol s :
  lazy_star (λ c, negb (c =? NEWLINE)%N) (rmatch [Eol]) s = Some ([], to_eol s).
Proof.
  induction s as [|c s IH]; [done|]. cbn [lazy_star rmatch to_eol].
  destruct (c =? NEWLINE)%N; [done|]. simpl negb. cbv iota. exact IH.
Qed.

Lemma rmatch_comment s :
  rmatch LINE_COMMENT_RE s =
    if starts_comment s then Some ([], to_eol (drop 2 s)) else None.
Proof.
  destruct s as [|c1 [|c2 s2]]; [done| |].
  - unfold LINE_COMMENT_RE. cbn [rmatch starts_comment]. by destruct (c1 =? SLASH)%N.
  - unfold LINE_COMMENT_RE. cbn [rmatch starts_comment drop].
    destruct (c1 =? SLASH)%N; [|done]. destruct (c2 =? SLASH)%N; [|done].
    apply lazy_to_eol.
Qed.

Lemma length_to_eol s : length (to_eol s) ≤ length s.
Proof. induction s as [|c s IH]; simpl; [done|]. destruct (c =? NEWLINE)%N; simpl; lia. Qed.

(** A comment is cut up to the end of its line; any other character stays. *)
Lemma cleaned_cons c s' :
  cleaned (c :: s') =
    if starts_comment (c :: s') then cleaned (to_eol (drop 1 s')) else c :: cleaned s'.
Proof.
  unfold cleaned. rewrite re_sub_cons, rmatch_comment.
  destruct (starts_comment (c :: s')) eqn:Hs; [|done].
  destruct s' as [|c2 s2]; [done|]. cbn [drop]. rewrite !drop_0.
  pose proof (length_to_eol s2) as Hlen.
  destruct (length (to_eol s2) <? _) eqn:Hlt; [done|].
  apply Nat.ltb_ge in Hlt. simpl in Hlt. lia.
Qed.

Lemma cleaned_nil : cleaned [] = [].
Proof. done. Qed.

(** [has_comment] is the occurrence of [//]. *)
Lemma has_comment_occurs s :
  has_comment s = true ↔ occurs_in [SLASH; SLASH] s.
Proof.
  split.
  - induction s as [|c s IH]; [done|]. cbn [has_comment].
    intros [Hs|Hs]%orb_true_iff.
    + destruct s as [|c2 s2]; [done|]. simpl in Hs.
      apply andb_true_iff in Hs as [->%N.eqb_eq ->%N.eqb_eq]. by exists [], s2.
    + destruct (IH Hs) as (pre & post & ->). by exists (c :: pre), post.
  - intros (pre & post & ->). induction pre as [|c pre IH]; [done|].
    change ((c :: pre) ++ [SLASH; SLASH] ++ post)
      with (c :: (pre ++ [SLASH; SLASH] ++ post)).
    cbn [has_comment]. rewrite IH. apply orb_true_r.
Qed.

Lemma has_comment_cleaned :
  ∀ s, has_comment (cleaned s) = false.
Proof.
  intros s. remember (length s) as n eqn:Hn. revert s Hn.
  induction n as [n IH] using lt_wf_ind. intros [|c s'] Hn; [done|].
  simpl in Hn. rewrite cleaned_cons.
  destruct (starts_comment (c :: s')) eqn:Hs.
  - destruct s' as [|c2 s2]; [done|]. cbn [drop]. rewrite drop_0. simpl in Hn.
    pose proof (length_to_eol s2). apply (IH (length (to_eol s2))); [lia|done].
  - cbn [has_comment]. rewrite (IH (length s') ltac:(lia) s' eq_refl), orb_false_r.
    destruct s' as [|c2 s2]; [done|]. rewrite cleaned_cons.
    destruct (starts_comment (c2 :: s2)) eqn:Hs2; [|exact Hs].
    (* the next two characters are a comment, so [c] is no slash *)
    destruct s2 as [|c3 s3]; [done|].
    cbn [starts_comment] in Hs, Hs2. apply andb_true_iff in Hs2 as [Hc2 _].
    rewrite Hc2, andb_true_r in Hs.
    destruct (cleaned (to_eol (drop 1 (c3 :: s3)))) as [|d t]; [done|].
    cbn [starts_comment]. by rewrite Hs.
Qed.

Lemma cleaned_without_comment s : has_comment s = false → cleaned s = s.
Proof.
  induction s as [|c s IH]; [done|]. cbn [has_comment].
  intros [Hs Hc]%orb_false_iff. by rewrite cleaned_cons, Hs, IH.
Qed.

(** X6.  After the line comments are cut, the text holds no [//]. *)
Theorem cleaned_has_no_comment (json_block : list N) :
  has_comment (cleaned json_block) = false ∧
  ¬ occurs_in [SLASH; SLASH] (cleaned json_block).
Proof.
  pose proof (has_comment_cleaned json_block) as Hc. split; [done|].
  intros Hocc%has_comment_occurs. congruence.
Qed.

(** X7.  Cutting the comments changes a text exactly if it holds [//]; so
    cutting twice is cutting once. *)
Theorem cleaned_fixed_points (json_block : list N) :
  (cleaned json_block = json_block ↔ has_comment json_block = false) ∧
  cleaned (cleaned json_block) = cleaned json_block.
Proof.
  split; [split|].
  - intros <-. apply has_comment_cleaned.
  - apply cleaned_without_comment.
  - apply cleaned_without_comment, has_comment_cleaned.
Qed.

Lemma to_eol_line b rest :
  NEWLINE ∉ b → rest = [] ∨ head rest = Some NEWLINE → to_eol (b ++ rest) = rest.
Proof.
  intros Hb Hrest. induction b as [|c b IH]; simpl.
  - destruct Hrest as [->|Hrest]; [done|]. destruct rest as [|d rest]; [done|].
    injection Hrest as ->. done.
  - apply not_elem_of_cons in Hb as [Hc Hb].
    destruct (N.eqb_spec c NEWLINE); [done|]. by apply IH.
Qed.

(** X8.  A [//] is cut with the rest of its line, whatever stands there,
    and the text before the first [//] is kept: from a line that holds a URL
    in a string, the URL is cut from its [//] on. *)
Theorem cleaned_cuts_to_end_of_line (a b rest : list N) :
  has_comment (a ++ [SLASH]) = false →
  NEWLINE ∉ b →
  rest = [] ∨ head rest = Some NEWLINE →
  cleaned (a ++ [SLASH; SLASH] ++ b ++ rest) = a ++ cleaned rest.
Proof.
  intros Ha Hb Hrest. induction a as [|c a IH].
  - cbn [app]. rewrite cleaned_cons. cbn [starts_comment drop].
    rewrite N.eqb_refl, drop_0. simpl andb. cbv iota. by rewrite to_eol_line.
  - cbn [app has_comment] in Ha |- *. apply orb_false_iff in Ha as [Hs Ha].
    rewrite cleaned_cons.
    assert (Hs' : starts_comment (c :: a ++ SLASH :: SLASH :: b ++ rest) = false).
    { destruct a as [|c2 a]; [exact Hs|exact Hs]. }
    rewrite Hs'. f_equal. by apply IH.
Qed.

Lemma cleaned_cuts_to_end_of_line_witness :
  cleaned (py "url: http:" ++ [SLASH; SLASH] ++ py "example.com," ++ NEWLINE :: py "}")
  = py "url: http:" ++ cleaned (NEWLINE :: py "}").
Proof.
  apply (cleaned_cuts_to_end_of_line (py "url: http:") (py "example.com,")
           (NEWLINE :: py "}")).
  - reflexivity.
  - vm_compute. intros H. repeat (apply elem_of_cons in H as [H|H]; [discriminate|]).
    by apply elem_of_nil in H.
  - right. reflexivity.
Defined.

(** ** Regular expressions: what a match looks like *)

Local Open Scope nat_scope.

Lemma rmatch_nil s r : rmatch [] s = Some r → r = ([], s).
Proof. by intros [= <-]. Qed.

Lemma rmatch_Chr c pat s r :
  rmatch (Chr c :: pat) s = Some r ↔ ∃ s', s = c :: s' ∧ rmatch pat s' = Some r.
Proof.
  cbn [rmatch]. split.
  - destruct s as [|x s']; [done|]. destruct (N.eqb_spec x c); [|done].
    subst x. eauto.
  - intros (s' & -> & H). by rewrite N.eqb_refl.
Qed.

Lemma rmatch_Mark pat s marks rest :
  rmatch (Mark :: pat) s = Some (marks, rest) ↔
  ∃ marks', marks = s :: marks' ∧ rmatch pat s = Some (marks', rest).
Proof.
  cbn [rmatch]. split.
  - destruct (rmatch pat s) as [[marks' rest']|]; [|done]. intros [= <- <-]. eauto.
  - intros (marks' & -> & ->). done.
Qed.

(** A star takes a run of characters of its class. *)
Lemma greedy_star_inv p k s r :
  greedy_star p k s = Some r →
  ∃ run s', s = run ++ s' ∧ Forall (λ c, p c = true) run ∧ k s' = Some r.
Proof.
  induction s as [|c s IH]; cbn [greedy_star].
  - intros H. by exists [], [].
  - destruct (p c) eqn:Hc; [|intros H; by exists [], (c :: s)].
    destruct (greedy_star p k s) as [r'|] eqn:Hs.
    + intros [= ->]. destruct (IH eq_refl) as (run & s' & -> & Hrun & Hk).
      exists (c :: run), s'. by repeat split; [constructor|].
    + intros H. by exists [], (c :: s).
Qed.

Lemma lazy_star_inv p k s r :
  lazy_star p k s = Some r →
  ∃ run s', s = run ++ s' ∧ Forall (λ c, p c = true) run ∧ k s' = Some r.
Proof.
  induction s as [|c s IH]; cbn [lazy_star].
  - destruct (k []) eqn:Hk; [|done]. intros [= ->]. by exists [], [].
  - destruct (k (c :: s)) eqn:Hk.
    + intros [= ->]. by exists [], (c :: s).
    + destruct (p c) eqn:Hc; [|done]. intros H.
      destruct (IH H) as (run & s' & -> & Hrun & Hk').
      exists (c :: run), s'. by repeat split; [constructor|].
Qed.

(** A greedy star before a character outside its class takes the whole run. *)
Lemma greedy_star_run p k run s' r :
  Forall (λ c, p c = true) run →
  match s' with c :: _ => p c = false | [] => True end →
  k s' = Some r →
  greedy_star p k (run ++ s') = Some r.
Proof.
  intros Hrun Hs' Hk. induction Hrun as [|c run Hc _ IH]; cbn [app greedy_star].
  - destruct s' as [|c s']; cbn [greedy_star]; [done|]. by rewrite Hs'.
  - by rewrite Hc, IH.
Qed.

(** A greedy star fails when the rest of the pattern fails after each part
    of the run. *)
Lemma greedy_star_none p k s :
  (∀ run s', s = run ++ s' → Forall (λ c, p c = true) run → k s' = None) →
  greedy_star p k s = None.
Proof.
  induction s as [|c s IH]; intros Hk; cbn [greedy_star].
  - by apply (Hk [] []).
  - assert (Hhere : k (c :: s) = None) by by apply (Hk []).
    destruct (p c) eqn:Hc; [|done]. rewrite IH; [done|].
    intros run s' -> Hrun. apply (Hk (c :: run)); [done|by constructor].
Qed.

(** A lazy star stops at the first place where the rest of the pattern
    matches. *)
Lemma lazy_star_first p k run s' r :
  Forall (λ c, p c = true) run →
  (∀ run1 run2, run = run1 ++ run2 → run2 ≠ [] → k (run2 ++ s') = None) →
  k s' = Some r →
  lazy_star p k (run ++ s') = Some r.
Proof.
  intros Hrun. induction Hrun as [|c run Hc _ IH]; intros Hk Hr.
  - cbn [app]. destruct s' as [|c s']; cbn [lazy_star]; by rewrite Hr.
  - pose proof (Hk [] (c :: run) eq_refl ltac:(done)) as Hhere.
    cbn [app] in Hhere |- *. cbn [lazy_star]. rewrite Hhere, Hc.
    apply IH; [|done]. intros run1 run2 -> Hne. by apply (Hk (c :: run1)).
Qed.

(** ** [re.search] *)

Lemma re_search_Some pat s r :
  re_search pat s = Some r →
  ∃ pre s', s = pre ++ s' ∧ rmatch pat s' = Some r.
Proof.
  induction s as [|c s IH]; cbn [re_search].
  - destruct (rmatch pat []) eqn:Hm; [|done]. intros [= ->]. by exists [], [].
  - destruct (rmatch pat (c :: s)) eqn:Hm.
    + intros [= ->]. by exists [], (c :: s).
    + intros H. destruct (IH H) as (pre & s' & -> & Hs'). by exists (c :: pre), s'.
Qed.

Lemma re_search_skip pat pre s :
  (∀ pre1 pre2, pre = pre1 ++ pre2 → pre2 ≠ [] → rmatch pat (pre2 ++ s) = None) →
  re_search pat (pre ++ s) = re_search pat s.
Proof.
  induction pre as [|c pre IH]; intros Hpre; [done|].
  pose proof (Hpre [] (c :: pre) eq_refl ltac:(done)) as Hhere.
  cbn [app] in Hhere |- *. cbn [re_search]. rewrite Hhere.
  apply IH. intros pre1 pre2 -> Hne. by apply (Hpre (c :: pre1)).
Qed.

Lemma re_search_here pat s r : rmatch pat s = Some r → re_search pat s = Some r.
Proof. intros H. destruct s; cbn [re_search]; by rewrite H. Qed.

(** ** [_extract_json_block]: the fenced block *)

Local Open Scope nat_scope.

Lemma rmatch_Greedy p pat s r :
  rmatch (Greedy p :: pat) s = Some r →
  ∃ run s', s = run ++ s' ∧ Forall (λ c, p c = true) run ∧ rmatch pat s' = Some r.
Proof. apply greedy_star_inv. Qed.

Lemma rmatch_Lazy p pat s r :
  rmatch (Lazy p :: pat) s = Some r →
  ∃ run s', s = run ++ s' ∧ Forall (λ c, p c = true) run ∧ rmatch pat s' = Some r.
Proof. apply lazy_star_inv. Qed.

Lemma rmatch_Greedy_eq p pat s :
  rmatch (Greedy p :: pat) s = greedy_star p (rmatch pat) s.
Proof. done. Qed.

Lemma rmatch_Lazy_eq p pat s :
  rmatch (Lazy p :: pat) s = lazy_star p (rmatch pat) s.
Proof. done. Qed.

Lemma FENCED_JSON_RE_eq :
  FENCED_JSON_RE =
    [Chr 96; Chr 96; Chr 96; Chr 106; Chr 115; Chr 111; Chr 110; Greedy is_space; Mark;
     Chr LBRACE; Lazy (λ _, true); Chr RBRACE; Mark; Greedy is_space;
     Chr 96; Chr 96; Chr 96]%N.
Proof. reflexivity. Qed.

Lemma fence_open_eq : py "```json" = [96; 96; 96; 106; 115; 111; 110]%N.
Proof. reflexivity. Qed.

Lemma fence_close_eq : py "```" = [96; 96; 96]%N.
Proof. reflexivity. Qed.

(** What a match of the fenced block looks like. *)
Lemma rmatch_fenced s marks rest :
  rmatch FENCED_JSON_RE s = Some (marks, rest) →
  ∃ ws body ws',
    s = py "```json" ++ ws ++ LBRACE :: body ++ RBRACE :: ws' ++ py "```" ++ rest ∧
    marks = [LBRACE :: body ++ RBRACE :: ws' ++ py "```" ++ rest; ws' ++ py "```" ++ rest] ∧
    Forall (λ c, is_space c = true) ws ∧ Forall (λ c, is_space c = true) ws'.
Proof.
  rewrite FENCED_JSON_RE_eq, fence_open_eq, fence_close_eq. intros H.
  do 7 (apply rmatch_Chr in H as (? & -> & H)).
  apply rmatch_Greedy in H as (ws & s1 & -> & Hws & H).
  apply rmatch_Mark in H as (m1 & -> & H).
  apply rmatch_Chr in H as (s2 & -> & H).
  apply rmatch_Lazy in H as (body & s3 & -> & _ & H).
  apply rmatch_Chr in H as (s4 & -> & H).
  apply rmatch_Mark in H as (m2 & -> & H).
  apply rmatch_Greedy in H as (ws' & s5 & -> & Hws' & H).
  do 3 (apply rmatch_Chr in H as (? & -> & H)).
  apply rmatch_nil in H as [= -> ->].
  by exists ws, body, ws'.
Qed.

Lemma group1_fenced body closed rest :
  group1 ([LBRACE :: body ++ RBRACE :: closed; closed], rest) = LBRACE :: body ++ [RBRACE].
Proof.
  unfold group1. cbn [fst].
  replace (LBRACE :: body ++ RBRACE :: closed)
    with ((LBRACE :: body ++ [RBRACE]) ++ closed) by (simpl; by rewrite <- app_assoc).
  rewrite length_app, Nat.add_sub. apply take_app_length.
Qed.

Lemma rmatch_no_backtick pat c s :
  c ≠ BACKTICK → rmatch (Chr 96%N :: pat) (c :: s) = None.
Proof. intros Hc. cbn [rmatch]. by destruct (N.eqb_spec c 96). Qed.

(** Behind a closing brace inside the block, whitespace does not lead to a
    backtick. *)
Lemma run_before_brace m tail run s' :
  BACKTICK ∉ m → m ++ RBRACE :: tail = run ++ s' →
  Forall (λ c, is_space c = true) run →
  match s' with c :: _ => c ≠ BACKTICK | [] => False end.
Proof.
  intros Hm Heq Hrun. revert m Hm Heq.
  induction Hrun as [|w run Hw _ IH]; intros m Hm Heq.
  - cbn [app] in Heq. subst s'. destruct m as [|c m]; [done|].
    cbn [app]. by apply not_elem_of_cons in Hm as [? _].
  - destruct m as [|c m].
    + injection Heq as <- _. done.
    + injection Heq as <- Heq. apply (IH m); [|done].
      by apply not_elem_of_cons in Hm as [_ ?].
Qed.

(** The block between the fences is found when it holds no backtick. *)
Lemma rmatch_fenced_block ws mid ws' post :
  Forall (λ c, is_space c = true) ws → Forall (λ c, is_space c = true) ws' →
  BACKTICK ∉ mid →
  rmatch FENCED_JSON_RE
    (py "```json" ++ ws ++ LBRACE :: mid ++ RBRACE :: ws' ++ py "```" ++ post)
  = Some ([LBRACE :: mid ++ RBRACE :: ws' ++ py "```" ++ post; ws' ++ py "```" ++ post],
          post).
Proof.
  intros Hws Hws' Hmid.
  rewrite FENCED_JSON_RE_eq, fence_open_eq, fence_close_eq. cbn [app].
  do 7 (apply rmatch_Chr; eexists; split; [reflexivity|]).
  rewrite rmatch_Greedy_eq. apply greedy_star_run; [done|done|].
  apply rmatch_Mark. eexists. split; [reflexivity|].
  apply rmatch_Chr. eexists. split; [reflexivity|].
  rewrite rmatch_Lazy_eq. apply lazy_star_first.
  - by apply Forall_true.
  - intros run1 [|x run2] -> Hne; [done|]. cbn [app rmatch].
    destruct (x =? RBRACE)%N; [|done].
    rewrite greedy_star_none; [done|].
    intros run s' Heq Hrun.
    assert (Hin : BACKTICK ∉ run2).
    { intros Hin. apply Hmid. apply elem_of_app. right. by right. }
    pose proof (run_before_brace _ _ _ _ Hin Heq Hrun) as Hs'.
    destruct s' as [|c s']; [done|]. by destruct (N.eqb_spec c 96).
  - apply rmatch_Chr. eexists. split; [reflexivity|].
    apply rmatch_Mark. eexists. split; [reflexivity|].
    rewrite rmatch_Greedy_eq. apply greedy_star_run; [done|done|].
    do 3 (apply rmatch_Chr; eexists; split; [reflexivity|]). done.
Qed.

Lemma re_search_no_backtick pre s :
  BACKTICK ∉ pre → re_search FENCED_JSON_RE (pre ++ s) = re_search FENCED_JSON_RE s.
Proof.
  intros Hpre. apply re_search_skip. intros pre1 [|c pre2] -> Hne; [done|].
  rewrite FENCED_JSON_RE_eq. cbn [app]. apply rmatch_no_backtick.
  intros ->. apply Hpre. apply elem_of_app. right. left.
Qed.

(** Without the opening fence there is no fenced block. *)
Lemma re_search_no_fence text :
  ¬ occurs_in (py "```json") text → re_search FENCED_JSON_RE text = None.
Proof.
  intros Hno. destruct (re_search FENCED_JSON_RE text) as [[marks rest]|] eqn:Hm; [|done].
  exfalso. apply Hno. apply re_search_Some in Hm as (pre & s' & -> & Hm).
  apply rmatch_fenced in Hm as (ws & body & ws' & -> & _). by eexists pre, _.
Qed.

(** ** [_extract_json_block]: the first object *)

Lemma from_first_brace_Some text s :
  from_first_brace text = Some s →
  ∃ pre s', text = pre ++ s ∧ s = LBRACE :: s' ∧ LBRACE ∉ pre.
Proof.
  induction text as [|c text IH]; [done|]. cbn [from_first_brace].
  destruct (N.eqb_spec c LBRACE) as [->|Hc].
  - intros [= <-]. exists [], text. split_and!; [done|done|apply not_elem_of_nil].
  - intros H. destruct (IH H) as (pre & s' & -> & -> & Hpre).
    exists (c :: pre), s'. split_and!; [done|done|].
    apply not_elem_of_cons. split; [done|done].
Qed.

Lemma from_first_brace_app pre s' :
  LBRACE ∉ pre → from_first_brace (pre ++ LBRACE :: s') = Some (LBRACE :: s').
Proof.
  induction pre as [|c pre IH]; intros Hpre; cbn [app from_first_brace].
  - by rewrite N.eqb_refl.
  - apply not_elem_of_cons in Hpre as [Hc Hpre].
    destruct (N.eqb_spec c LBRACE); [done|]. by apply IH.
Qed.

Lemma brace_depth_cons c s :
  brace_depth (c :: s) =
    ((if (c =? LBRACE)%N then 1 else if (c =? RBRACE)%N then -1 else 0) + brace_depth s)%Z.
Proof. done. Qed.

(** The loop returns at the first closing brace that takes the depth to 0. *)
Lemma scan_braces_Some s :
  ∀ depth n, (1 <= depth)%Z → scan_braces depth s = Some n →
    1 ≤ n ≤ length s ∧ last (take n s) = Some RBRACE ∧
    (depth + brace_depth (take n s) = 0)%Z ∧
    ∀ k, k < n → (0 < depth + brace_depth (take k s))%Z.
Proof.
  induction s as [|c s IH]; intros depth n Hd; [done|]. cbn [scan_braces].
  assert (Hstep : ∀ d' m, (1 <= d')%Z → scan_braces d' s = Some m →
            (d' = depth + (if (c =? LBRACE)%N then 1 else if (c =? RBRACE)%N then -1 else 0))%Z →
            1 ≤ S m ≤ length (c :: s) ∧ last (take (S m) (c :: s)) = Some RBRACE ∧
            (depth + brace_depth (take (S m) (c :: s)) = 0)%Z ∧
            ∀ k, k < S m → (0 < depth + brace_depth (take k (c :: s)))%Z).
  { intros d' m Hd' Hm Heq. destruct (IH d' m Hd' Hm) as (Hlen & Hlast & Hzero & Hpos).
    cbn [take length]. split_and!.
    - lia.
    - lia.
    - by rewrite last_cons, Hlast.
    - rewrite brace_depth_cons. lia.
    - intros [|k] Hk; cbn [take]; [simpl; lia|].
      rewrite brace_depth_cons. specialize (Hpos k ltac:(lia)). lia. }
  destruct (c =? LBRACE)%N eqn:Hl.
  - destruct (scan_braces (depth + 1) s) as [m|] eqn:Hm; [|done].
    intros [= <-]. apply (Hstep (depth + 1)%Z); [lia|done|done].
  - destruct (c =? RBRACE)%N eqn:Hr.
    + destruct (Z.eqb_spec (depth - 1) 0) as [Hz|Hz].
      * intros [= <-]. apply N.eqb_eq in Hr as ->. cbn [take length].
        split_and!; [lia|lia|done|simpl; lia|]. intros k Hk. replace k with 0 by lia.
        simpl. lia.
      * destruct (scan_braces (depth - 1) s) as [m|] eqn:Hm; [|done].
        intros [= <-]. apply (Hstep (depth - 1)%Z); [lia|done|done].
    + destruct (scan_braces depth s) as [m|] eqn:Hm; [|done].
      intros [= <-]. apply (Hstep depth); [lia|done|lia].
Qed.

(** The loop finds the end of a text that closes its braces at its end. *)
Lemma scan_braces_finds r post :
  ∀ depth, (1 <= depth)%Z → (depth + brace_depth r = 0)%Z →
    (∀ k, k < length r → (0 < depth + brace_depth (take k r))%Z) →
    scan_braces depth (r ++ post) = Some (length r).
Proof.
  induction r as [|c r IH]; intros depth Hd Hzero Hpos.
  - simpl in Hzero. lia.
  - rewrite brace_depth_cons in Hzero. cbn [app scan_braces length].
    assert (Hnext : ∀ d', (1 <= d')%Z →
              (d' = depth + (if (c =? LBRACE)%N then 1
                             else if (c =? RBRACE)%N then -1 else 0))%Z →
              scan_braces d' (r ++ post) = Some (length r)).
    { intros d' Hd' Heq. apply IH; [done|lia|]. intros k Hk.
      specialize (Hpos (S k) ltac:(simpl; lia)). cbn [take] in Hpos.
      rewrite brace_depth_cons in Hpos. lia. }
    destruct (c =? LBRACE)%N eqn:Hl.
    + by rewrite (Hnext (depth + 1)%Z) by lia.
    + destruct (c =? RBRACE)%N eqn:Hr.
      * destruct (Z.eqb_spec (depth - 1) 0) as [Hz|Hz].
        -- destruct r as [|c' r]; [done|]. exfalso.
           specialize (Hpos 1 ltac:(simpl; lia)). cbn [take] in Hpos.
           rewrite brace_depth_cons, Hl, Hr in Hpos. simpl in Hpos. lia.
        -- by rewrite (Hnext (depth - 1)%Z) by lia.
      * by rewrite (Hnext depth) by lia.
Qed.

(** ** [_extract_json_block] *)

Local Open Scope nat_scope.

(** X9.  What [_extract_json_block] returns is a part of the text that
    starts with an opening brace and ends with a closing brace. *)
Theorem extract_json_block_is_braced_part (text r : list N) :
  _extract_json_block text = Some r →
  (∃ pre post, text = pre ++ r ++ post) ∧ head r = Some LBRACE ∧ last r = Some RBRACE.
Proof.
  unfold _extract_json_block.
  destruct (re_search FENCED_JSON_RE text) as [[marks rest]|] eqn:Hm.
  - intros [= <-]. apply re_search_Some in Hm as (pre & s' & -> & Hm).
    apply rmatch_fenced in Hm as (ws & body & ws' & -> & -> & _).
    rewrite group1_fenced. split_and!.
    + exists (pre ++ py "```json" ++ ws), (ws' ++ py "```" ++ rest).
      rewrite <- !app_assoc. cbn [app]. by rewrite <- !app_assoc.
    + done.
    + by rewrite last_cons, last_snoc.
  - destruct (from_first_brace text) as [s|] eqn:Hs; [|done].
    apply from_first_brace_Some in Hs as (pre & s' & -> & -> & _).
    destruct (scan_braces 0 (LBRACE :: s')) as [n|] eqn:Hn; [|done].
    intros [= <-]. cbn [scan_braces] in Hn. rewrite N.eqb_refl in Hn.
    destruct (scan_braces (0 + 1) s') as [m|] eqn:Hscan; [|done]. injection Hn as <-.
    destruct (scan_braces_Some s' (0 + 1)%Z m ltac:(lia) Hscan) as (Hlen & Hlast & _).
    cbn [take]. split_and!.
    + exists pre, (drop m s'). cbn [app]. by rewrite take_drop.
    + done.
    + by rewrite last_cons, Hlast.
Qed.

Lemma extract_json_block_is_braced_part_witness :
  (∃ pre post, fenced_reply = pre ++ py "{tasks: [{id: T1}]}" ++ post) ∧
  head (py "{tasks: [{id: T1}]}") = Some LBRACE ∧
  last (py "{tasks: [{id: T1}]}") = Some RBRACE.
Proof.
  apply (extract_json_block_is_braced_part fenced_reply (py "{tasks: [{id: T1}]}")).
  vm_compute. reflexivity.
Defined.

(** X10.  A block between [```json] and [```] that holds no backtick is
    returned as it stands, whatever braces the text before the fence holds
    and whatever follows the fence. *)
Theorem extract_json_block_fenced (pre ws mid ws' post : list N) :
  BACKTICK ∉ pre → BACKTICK ∉ mid →
  Forall (λ c, is_space c = true) ws → Forall (λ c, is_space c = true) ws' →
  _extract_json_block
    (pre ++ py "```json" ++ ws ++ LBRACE :: mid ++ RBRACE :: ws' ++ py "```" ++ post)
  = Some (LBRACE :: mid ++ [RBRACE]).
Proof.
  intros Hpre Hmid Hws Hws'. unfold _extract_json_block.
  rewrite (re_search_no_backtick _ _ Hpre).
  rewrite (re_search_here _ _ _ (rmatch_fenced_block _ _ _ post Hws Hws' Hmid)).
  by rewrite group1_fenced.
Qed.

Lemma extract_json_block_fenced_witness :
  _extract_json_block
    (py "Plan: {draft} " ++ py "```json" ++ [NEWLINE] ++ LBRACE :: py "tasks: [{id: T1}]"
     ++ RBRACE :: [NEWLINE] ++ py "```" ++ py " done")
  = Some (LBRACE :: py "tasks: [{id: T1}]" ++ [RBRACE]).
Proof.
  apply (extract_json_block_fenced (py "Plan: {draft} ") [NEWLINE] (py "tasks: [{id: T1}]")
           [NEWLINE] (py " done")).
  - apply (bool_decide_unpack _). vm_compute. exact I.
  - apply (bool_decide_unpack _). vm_compute. exact I.
  - by repeat constructor.
  - by repeat constructor.
Defined.

(** X11.  When no fenced block is found, the result is the first object of
    the text: the part that starts at the first opening brace and ends where
    that brace is closed; there is no result if it is never closed. *)
Theorem extract_json_block_first_object (text r : list N) :
  re_search FENCED_JSON_RE text = None →
  (_extract_json_block text = Some r ↔
   ∃ pre post, text = pre ++ r ++ post ∧ (LBRACE ∉ pre) ∧ balanced_object r).
Proof.
  intros Hno. unfold _extract_json_block. rewrite Hno. split.
  - destruct (from_first_brace text) as [s|] eqn:Hs; [|done].
    apply from_first_brace_Some in Hs as (pre & s' & -> & -> & Hpre).
    destruct (scan_braces 0 (LBRACE :: s')) as [n|] eqn:Hn; [|done].
    intros [= <-]. cbn [scan_braces] in Hn. rewrite N.eqb_refl in Hn.
    destruct (scan_braces (0 + 1) s') as [m|] eqn:Hscan; [|done]. injection Hn as <-.
    destruct (scan_braces_Some s' (0 + 1)%Z m ltac:(lia) Hscan) as (Hlen & _ & Hzero & Hpos).
    exists pre, (drop m s'). cbn [take]. split; [|split; [done|split_and!]].
    + cbn [app]. by rewrite take_drop.
    + done.
    + rewrite brace_depth_cons, N.eqb_refl. lia.
    + intros k. cbn [length]. rewrite length_take. intros Hk.
      destruct k as [|k]; [lia|]. cbn [take]. rewrite take_take.
      rewrite brace_depth_cons, N.eqb_refl.
      replace (k `min` m) with k by lia. specialize (Hpos k ltac:(lia)). lia.
  - intros (pre & post & -> & Hpre & Hhead & Hzero & Hpos).
    destruct r as [|c r]; [done|]. injection Hhead as ->.
    cbn [app]. rewrite (from_first_brace_app _ _ Hpre). cbn [scan_braces].
    rewrite N.eqb_refl. rewrite brace_depth_cons, N.eqb_refl in Hzero.
    rewrite (scan_braces_finds r post (0 + 1)%Z); [| lia | lia |].
    + cbn [fmap option_fmap option_map take]. by rewrite take_app_length.
    + intros k Hk. specialize (Hpos (S k) ltac:(simpl; lia)). cbn [take] in Hpos.
      rewrite brace_depth_cons, N.eqb_refl in Hpos. lia.
Qed.

Lemma extract_json_block_first_object_witness :
  _extract_json_block bare_reply = Some (py "{a{b}c}") ↔
  ∃ pre post, bare_reply = pre ++ py "{a{b}c}" ++ post ∧ (LBRACE ∉ pre) ∧
              balanced_object (py "{a{b}c}").
Proof.
  apply (extract_json_block_first_object bare_reply (py "{a{b}c}")).
  vm_compute. reflexivity.
Defined.

Lemma extract_no_brace text :
  LBRACE ∉ text ∨ RBRACE ∉ text → _extract_json_block text = None.
Proof.
  intros Hno. unfold _extract_json_block.
  destruct (re_search FENCED_JSON_RE text) as [[marks rest]|] eqn:Hm.
  - exfalso. apply re_search_Some in Hm as (pre & s' & -> & Hm).
    apply rmatch_fenced in Hm as (ws & body & ws' & -> & _).
    destruct Hno as [Hno|Hno]; apply Hno; set_solver.
  - destruct (from_first_brace text) as [s|] eqn:Hs; [|done].
    apply from_first_brace_Some in Hs as (pre & s' & -> & -> & _).
    destruct Hno as [Hno|Hno].
    { exfalso. apply Hno. set_solver. }
    destruct (scan_braces 0 (LBRACE :: s')) as [n|] eqn:Hn; [|done]. exfalso.
    cbn [scan_braces] in Hn. rewrite N.eqb_refl in Hn.
    destruct (scan_braces (0 + 1) s') as [m|] eqn:Hscan; [|done].
    destruct (scan_braces_Some s' (0 + 1)%Z m ltac:(lia) Hscan) as (_ & Hlast & _).
    apply last_Some_elem_of in Hlast. apply (subseteq_take m s') in Hlast.
    apply Hno. set_solver.
Qed.

(** ** The reply of the model *)

(** X12.  A reply without an opening or without a closing brace is refused
    with [ValueError], whatever [json.loads] would do. *)
Theorem parse_reply_needs_braces {J : Type} (json_loads : list N → option J)
    (raw_response : list N) :
  LBRACE ∉ raw_response ∨ RBRACE ∉ raw_response →
  parse_reply json_loads raw_response = Raise ValueError.
Proof. intros Hno. unfold parse_reply. by rewrite (extract_no_brace _ Hno). Qed.

Lemma parse_reply_needs_braces_witness :
  parse_reply (λ _, Some 0%Z) (py "I cannot plan this. }") = Raise ValueError.
Proof.
  apply (parse_reply_needs_braces (λ _, Some 0%Z) (py "I cannot plan this. }")).
  left. apply (bool_decide_unpack _). vm_compute. exact I.
Defined.

(** X13.  A reply that holds its JSON in a fenced block without backticks is
    parsed to the value of that block, whatever prose stands before and
    after the fence. *)
Theorem parse_reply_fenced {J : Type} (json_loads : list N → option J)
    (pre ws mid ws' post : list N) (parsed : J) :
  BACKTICK ∉ pre → BACKTICK ∉ mid →
  Forall (λ c, is_space c = true) ws → Forall (λ c, is_space c = true) ws' →
  json_loads (LBRACE :: mid ++ [RBRACE]) = Some parsed →
  parse_reply json_loads
    (pre ++ py "```json" ++ ws ++ LBRACE :: mid ++ RBRACE :: ws' ++ py "```" ++ post)
  = Return parsed.
Proof.
  intros Hpre Hmid Hws Hws' Hparsed. unfold parse_reply, _extract_json_block.
  rewrite (re_search_no_backtick _ _ Hpre).
  rewrite (re_search_here _ _ _ (rmatch_fenced_block _ _ _ post Hws Hws' Hmid)).
  by rewrite group1_fenced, Hparsed.
Qed.

Lemma parse_reply_fenced_witness :
  parse_reply (λ s, Some (length s))
    (py "Plan: " ++ py "```json" ++ [NEWLINE] ++ LBRACE :: py "tasks: []"
     ++ RBRACE :: [NEWLINE] ++ py "```" ++ py " done")
  = Return 11.
Proof.
  apply (parse_reply_fenced (λ s, Some (length s)) (py "Plan: ") [NEWLINE]
           (py "tasks: []") [NEWLINE] (py " done") 11).
  - apply (bool_decide_unpack _). vm_compute. exact I.
  - apply (bool_decide_unpack _). vm_compute. exact I.
  - by repeat constructor.
  - by repeat constructor.
  - reflexivity.
Defined.

Example extract_lazy_block :
  _extract_json_block (py "```json {a: {b: 1}} ``` and ```json {c} ```") = Some (py "{a: {b: 1}}").
Proof. vm_compute. reflexivity. Qed.

Example extract_broken_fence :
  _extract_json_block (py "```json x {a} ``` {b}") = Some (py "{a}").
Proof. vm_compute. reflexivity. Qed.

Example extract_unclosed : _extract_json_block (py "so: {a: {b: 1}") = None.
Proof. vm_compute. reflexivity. Qed.

Local Open Scope Z_scope.

(** ** Dates as text *)

Lemma format_date_length dt : String.length (_format_date dt) = 10%nat.
Proof. unfold _format_date. by destruct (civil_of_ordinal (ordinal dt)) as [[y m] d]. Qed.

(** X14.  A date of a four-digit year that is written by [_format_date] is
    read back by [strptime] as the midnight of the same day; the text has
    ten characters. *)
Theorem format_date_round_trip (dt : datetime) :
  valid_datetime dt →
  strptime (_format_date dt) = Return (mkdt (ordinal dt) 0) ∧
  String.length (_format_date dt) = 10%nat.
Proof.
  intros Hvalid. split; [|apply format_date_length].
  apply strptime_format. by apply valid_datetime_range.
Qed.

Lemma format_date_round_trip_witness :
  strptime (_format_date afternoon_2024_01_01)
    = Return (mkdt (ordinal afternoon_2024_01_01) 0) ∧
  String.length (_format_date afternoon_2024_01_01) = 10%nat.
Proof.
  apply (format_date_round_trip afternoon_2024_01_01).
  vm_compute. repeat split; discriminate.
Defined.

(** X15.  Two dates of four-digit years are written alike exactly if they
    fall on the same day. *)
Theorem format_date_same_day_iff (a b : datetime) :
  valid_datetime a → valid_datetime b →
  (_format_date a = _format_date b ↔ same_day a b).
Proof.
  intros Ha%valid_datetime_range Hb%valid_datetime_range. split.
  - intros Heq. pose proof (strptime_format a Ha) as Hpa.
    rewrite Heq, (strptime_format b Hb) in Hpa. by injection Hpa.
  - unfold same_day, _format_date. by intros ->.
Qed.

Lemma format_date_same_day_iff_witness :
  _format_date afternoon_2024_01_01 = _format_date midnight_2024_01_01 ↔
  same_day afternoon_2024_01_01 midnight_2024_01_01.
Proof.
  apply (format_date_same_day_iff afternoon_2024_01_01 midnight_2024_01_01).
  - vm_compute. repeat split; discriminate.
  - vm_compute. repeat split; discriminate.
Defined.

(** ** The cost estimate *)

Lemma cost_step_Return rates acc t c :
  cost_step rates acc t = Return c →
  c = CostEstimate.mk (CostEstimate.breakdown acc ++ [line_of rates t])
                      (CostEstimate.total acc + CostLine.cost (line_of rates t)) ∧
  Task.hours t ≠ Null ∧ is_Some (rates !! "default"%string).
Proof.
  unfold cost_step. intros H. inv_bind H. injection H as <-.
  apply int_hours_Return in Hx as [-> Hnull]. apply subscript_Return in Hx0.
  split_and!; [|done|by rewrite Hx0].
  unfold line_of, resolved_rate, get_role. rewrite Hx0. simpl.
  destruct (Task.role t); simpl; [done|by rewrite Hx0].
Qed.

Lemma cost_step_acc rates acc acc' t c :
  cost_step rates acc t = Return c →
  cost_step rates acc' t =
    Return (CostEstimate.mk (CostEstimate.breakdown acc' ++ [line_of rates t])
              (CostEstimate.total acc' + CostLine.cost (line_of rates t))).
Proof.
  intros H. apply cost_step_Return in H as (_ & Hnull & [fb Hfb]).
  destruct (cost_step_line rates fb acc' t Hfb Hnull) as (l & Hl & _).
  destruct (cost_step_Return _ _ _ _ Hl) as (Heq & _). by rewrite Hl, Heq.
Qed.

(** The loop of [estimate_cost] from any accumulator. *)
Lemma cost_fold_Return rates tasks :
  ∀ acc c, foldM (cost_step rates) acc tasks = Return c →
    ∀ acc', foldM (cost_step rates) acc' tasks =
      Return (CostEstimate.mk (CostEstimate.breakdown acc' ++ (line_of rates <$> tasks))
                (CostEstimate.total acc' + sum_costs (line_of rates <$> tasks))).
Proof.
  induction tasks as [|t tasks IH]; intros acc c Hrun acc'; simpl in *.
  - rewrite app_nil_r, Z.add_0_r. by destruct acc'.
  - inv_bind Hrun. rewrite (cost_step_acc _ _ acc' _ _ Hx). simpl.
    rewrite (IH _ _ Hrun). simpl. rewrite <- app_assoc. simpl.
    f_equal. f_equal. symmetry. apply Z.add_assoc.
Qed.

Lemma estimate_cost_Return tasks rates c :
  estimate_cost tasks rates = Return c →
  c = CostEstimate.mk (line_of (default DEFAULT_RATES_PER_HOUR rates) <$> tasks)
        (sum_costs (line_of (default DEFAULT_RATES_PER_HOUR rates) <$> tasks)).
Proof.
  unfold estimate_cost. intros H.
  pose proof (cost_fold_Return _ _ _ _ H (CostEstimate.mk [] 0)) as H'.
  rewrite H in H'. by injection H'.
Qed.






(** X18.  [rates["default"]] is looked up at every task, also when the role
    of the task has a rate: with a table that has no [default] entry, the
    estimate of a list that is not empty ends in [KeyError], and the one of
    the empty list is the empty estimate. *)
Theorem estimate_cost_needs_default_rate (tasks : list Task.t) (rates : gmap string Z) :
  rates !! "default"%string = None →
  Forall (λ t, Task.hours t ≠ Null) tasks →
  estimate_cost tasks (Some rates) =
    match tasks with
    | [] => Return (CostEstimate.mk [] 0)
    | _ :: _ => Raise KeyError
    end.
Proof.
  intros Hnone Hhours. destruct Hhours as [|t tasks Ht _]; [done|].
  unfold estimate_cost. simpl. unfold cost_step at 1.
  destruct (int_hours t) as [h| |] eqn:Hh; simpl.
  - by rewrite Hnone.
  - unfold int_hours in Hh. by destruct (Task.hours t).
  - unfold int_hours in Hh. by destruct (Task.hours t).
Qed.

Lemma estimate_cost_needs_default_rate_witness :
  estimate_cost two_backend_tasks (Some {[ "backend"%string := 700 ]}) = Raise KeyError.
Proof.
  apply (estimate_cost_needs_default_rate two_backend_tasks {[ "backend"%string := 700 ]}).
  - reflexivity.
  - repeat constructor; discriminate.
Defined.

(** ** More on the timeline *)

(** What a returned timeline is made of. *)
Lemma estimate_timeline_parts set_iter tasks project_start cap tl :
  iterates_members set_iter →
  MINORD <= ordinal project_start <= MAXORD →
  estimate_timeline set_iter tasks project_start cap = Return tl →
  ∃ ks ord st,
    Forall (λ t, is_Some (Task.id t)) tasks ∧
    Forall2 (λ k t, task_with_id tasks k = Some t) ks ord ∧ NoDup ks ∧
    (∀ k, k ∈ ks ↔ k ∈ input_ids tasks) ∧
    sched_inv project_start cap ord st ∧ dict_keys (dates_for_id st) = ks ∧
    summarize project_start (dates_for_id st) = Return tl.
Proof.
  intros Hiter Hrange Hrun. unfold estimate_timeline, estimate_timeline_fuel in Hrun.
  inv_bind Hrun. rename x into ord, x0 into st, Hx into Hord, Hx0 into Hsched.
  destruct (topological_order_spec set_iter Hiter _ _ _ (le_n _) Hord)
    as (ks & Hks & Hnd & Hin & _).
  destruct (schedule_inv project_start cap ks ord st Hrange) as [Hinv Hkeys]; [|done|done|].
  { eapply Forall2_impl; [exact Hks|]. intros k t Hk. by apply task_with_id_Some in Hk as [? _]. }
  exists ks, ord, st. split_and!; try done.
  unfold topological_order in Hord. inv_bind Hord.
  by apply build_id_map_spec in Hx as (_ & _ & Hids & _).
Qed.

Lemma summarize_project_end project_start dates tl :
  Forall (well_dated project_start) (dict_values dates) →
  dict_values dates ≠ [] →
  summarize project_start dates = Return tl →
  ∃ e, e ∈ dict_values dates ∧ Timeline.project_end tl = Scheduled.end_date e ∧
       ∀ e', e' ∈ dict_values dates →
             day_of (Scheduled.end_date e') <= day_of (Scheduled.end_date e).
Proof.
  intros Hdated Hne. unfold summarize.
  assert (Hp : Forall (λ e, parses (Scheduled.end_date e)) (dict_values dates)).
  { eapply Forall_impl; [exact Hdated|]. by intros e (_ & He & _). }
  destruct (dict_values dates) as [|v vs] eqn:Hv; [done|].
  rewrite (parse_ends_spec _ Hp). simpl.
  match goal with
  | |- context [dt_max_list ?a ?b] =>
      pose proof (dt_max_list_in a b) as Hin;
      pose proof (dt_max_list_upper a b) as Hup;
      set (pe := dt_max_list a b) in *
  end.
  assert (Hpe : ∃ e, e ∈ v :: vs ∧ pe = mkdt (day_of (Scheduled.end_date e)) 0).
  { apply elem_of_cons in Hin as [Hin|Hin].
    - exists v. split; [left|done].
    - apply list_elem_of_fmap in Hin as (e & -> & He). exists e. split; [by right|done]. }
  destruct Hpe as (e & He & Hpe). intros [= <-]. simpl.
  rewrite Forall_forall in Hdated.
  destruct (Hdated e He) as (_ & _ & _ & _ & _ & _ & Hfmt).
  exists e. split_and!; [done|by rewrite Hpe, <- Hfmt|].
  intros e' He'. rewrite Hpe in Hup. simpl in Hup.
  apply (Hup (mkdt (day_of (Scheduled.end_date e')) 0)).
  apply elem_of_cons in He' as [->|He']; [left|right].
  apply list_elem_of_fmap. by exists e'.
Qed.

Lemma total_span_duration cap ord es :
  Forall2 (entry_of cap) ord es → total_span cap ord = total_duration es.
Proof.
  induction 1 as [|t e ord es (_ & _ & _ & _ & _ & Hdur & _) _ IH]; simpl; [done|].
  by rewrite IH, Hdur.
Qed.

(** X19.  Without tasks the timeline is the day of the project start alone:
    no entries, one work day, whatever the capacity is. *)
Theorem estimate_timeline_of_no_tasks
    (set_iter : list string → list string) (project_start : datetime) (cap : Z) :
  estimate_timeline set_iter [] project_start cap =
    Return (Timeline.mk (_format_date project_start) (_format_date project_start) 1 [] []).
Proof.
  unfold estimate_timeline, estimate_timeline_fuel, topological_order. simpl.
  unfold summarize. simpl. unfold sub_days. by rewrite !Z.sub_diag.
Qed.

(** X20.  A capacity of zero hours a day ends in [ZeroDivisionError] as soon
    as there is a task to place. *)
Theorem zero_capacity_raises
    (set_iter : list string → list string) (tasks : list Task.t)
    (project_start : datetime) :
  iterates_members set_iter →
  Forall well_formed tasks →
  tasks ≠ [] →
  estimate_timeline set_iter tasks project_start 0 = Raise ZeroDivisionError.
Proof.
  intros Hiter Hwf Hne.
  destruct (well_formed_Forall _ Hwf) as (Hids & Hhours & Hdeps).
  destruct (topological_order_returns set_iter Hiter (length tasks) tasks (le_n _) Hids Hdeps)
    as [ord Hord].
  destruct (topological_order_spec set_iter Hiter _ _ _ (le_n _) Hord)
    as (ks & Hks & _ & Hin & _).
  unfold estimate_timeline, estimate_timeline_fuel. rewrite Hord. simpl.
  destruct Hks as [|k t ks ord Hk _].
  - destruct tasks as [|t tasks]; [done|]. apply Forall_cons in Hids as [[k Hk] _].
    exfalso. apply (not_elem_of_nil k), Hin. unfold input_ids. simpl. rewrite Hk. left.
  - apply task_with_id_Some in Hk as [_ Ht]. rewrite Forall_forall in Hhours.
    specialize (Hhours t Ht). unfold schedule. simpl. unfold place at 1.
    unfold int_hours. destruct (Task.hours t); done.
Qed.

Lemma zero_capacity_raises_witness :
  estimate_timeline reverse tangled_tasks afternoon_2024_01_01 0 = Raise ZeroDivisionError.
Proof.
  apply (zero_capacity_raises reverse tangled_tasks afternoon_2024_01_01).
  - exact reverse_iterates.
  - exact tangled_well_formed.
  - discriminate.
Defined.

(** X21.  Every entry of the schedule lies within the project: it starts no
    earlier than [project_start], ends no earlier than it starts and no
    later than [project_end]; [project_end] is the end of one of the
    entries, or [project_start] if there is none. *)
Theorem schedule_lies_within_project
    (set_iter : list string → list string) (tasks : list Task.t)
    (project_start : datetime) (cap : Z) (tl : Timeline.t) :
  iterates_members set_iter →
  valid_datetime project_start →
  estimate_timeline set_iter tasks project_start cap = Return tl →
  (∀ e, e ∈ Timeline.task_schedule tl →
        date_not_after (Timeline.project_start tl) (Scheduled.start_date e) ∧
        date_not_after (Scheduled.start_date e) (Scheduled.end_date e) ∧
        date_not_after (Scheduled.end_date e) (Timeline.project_end tl)) ∧
  (Timeline.task_schedule tl ≠ [] →
   ∃ e, e ∈ Timeline.task_schedule tl ∧ Scheduled.end_date e = Timeline.project_end tl) ∧
  (Timeline.task_schedule tl = [] → Timeline.project_end tl = Timeline.project_start tl).
Proof.
  intros Hiter Hvalid Hrun. pose proof (valid_datetime_range _ Hvalid) as Hrange.
  destruct (estimate_timeline_parts _ _ _ _ _ Hiter Hrange Hrun)
    as (ks & ord & st & _ & _ & _ & _ & Hinv & _ & Hsum).
  destruct (summarize_Return _ _ _ Hsum) as (Hsched & Hstart & _).
  pose proof (inv_dated _ _ _ _ Hinv) as Hdated. rewrite Hsched, Hstart.
  split_and!.
  - intros e He.
    assert (Hne : dict_values (dates_for_id st) ≠ []) by (intros Hnil; rewrite Hnil in He; by apply elem_of_nil in He).
    destruct (summarize_project_end _ _ _ Hdated Hne Hsum) as (em & Hem & Hend & Hmax).
    rewrite Forall_forall in Hdated.
    pose proof (Hdated e He) as Hwd. pose proof (Hdated em Hem) as Hwdm.
    split_and!.
    + destruct Hwd as (Hs & _ & Hle & _). unfold parses in Hs.
      eexists _, _. split_and!; [by apply strptime_format|exact Hs|exact Hle].
    + by apply (well_dated_range project_start).
    + destruct Hwd as (_ & He' & _). destruct Hwdm as (_ & Hem' & _).
      unfold parses in He', Hem'. rewrite Hend.
      eexists _, _. split_and!; [exact He'|exact Hem'|]. simpl. by apply Hmax.
  - intros Hne. destruct (summarize_project_end _ _ _ Hdated Hne Hsum) as (em & Hem & Hend & _).
    by exists em.
  - intros Hnil. unfold summarize in Hsum. rewrite Hnil in Hsum. simpl in Hsum.
    by injection Hsum as <-.
Qed.

Lemma schedule_lies_within_project_witness :
  (∀ e, e ∈ Timeline.task_schedule tangled_timeline →
        date_not_after (Timeline.project_start tangled_timeline) (Scheduled.start_date e) ∧
        date_not_after (Scheduled.start_date e) (Scheduled.end_date e) ∧
        date_not_after (Scheduled.end_date e) (Timeline.project_end tangled_timeline)) ∧
  (Timeline.task_schedule tangled_timeline ≠ [] →
   ∃ e, e ∈ Timeline.task_schedule tangled_timeline ∧
        Scheduled.end_date e = Timeline.project_end tangled_timeline) ∧
  (Timeline.task_schedule tangled_timeline = [] →
   Timeline.project_end tangled_timeline = Timeline.project_start tangled_timeline).
Proof.
  apply (schedule_lies_within_project reverse tangled_tasks afternoon_2024_01_01 6
           tangled_timeline).
  - exact reverse_iterates.
  - exact valid_afternoon.
  - exact tangled_run.
Defined.

(** X22.  No task waits without a reason: an entry starts on the day of the
    project start, or on the day after the end of an earlier entry that has
    its role or that it lists as a dependency. *)
Theorem no_task_waits_without_reason
    (set_iter : list string → list string) (tasks : list Task.t)
    (project_start : datetime) (cap : Z) (tl : Timeline.t) :
  iterates_members set_iter →
  valid_datetime project_start →
  estimate_timeline set_iter tasks project_start cap = Return tl →
  ∀ j ej, Timeline.task_schedule tl !! j = Some ej →
    Scheduled.start_date ej = Timeline.project_start tl ∨
    ∃ i ei, (i < j)%nat ∧ Timeline.task_schedule tl !! i = Some ei ∧
            (Scheduled.role ei = Scheduled.role ej ∨
             Scheduled.id ei ∈ Scheduled.depends_on ej) ∧
            date_next (Scheduled.end_date ei) (Scheduled.start_date ej).
Proof.
  intros Hiter Hvalid Hrun j ej Hj. pose proof (valid_datetime_range _ Hvalid) as Hrange.
  destruct (estimate_timeline_parts _ _ _ _ _ Hiter Hrange Hrun)
    as (ks & ord & st & _ & _ & _ & _ & Hinv & _ & Hsum).
  destruct (summarize_Return _ _ _ Hsum) as (Hsched & Hstart & _).
  rewrite Hsched in Hj |- *. rewrite Hstart.
  pose proof (inv_dated _ _ _ _ Hinv) as Hdated. rewrite Forall_forall in Hdated.
  pose proof (Hdated ej (list_elem_of_lookup_2 _ _ _ Hj)) as (Hsj & _ & _ & _ & _ & Hfmt & _).
  destruct (inv_tight _ _ _ _ Hinv j ej Hj) as [Hday|(i & ei & Hlt & Hi & Hwhy & Hday)].
  - left. by rewrite Hfmt, Hday.
  - right. exists i, ei. split_and!; [done|done|done|].
    pose proof (Hdated ei (list_elem_of_lookup_2 _ _ _ Hi)) as (_ & Hei & _).
    unfold parses in Hsj, Hei. eexists _, _. split_and!; [exact Hei|exact Hsj|done].
Qed.

Lemma no_task_waits_without_reason_witness :
  ∃ j ej, Timeline.task_schedule tangled_timeline !! j = Some ej ∧
    (Scheduled.start_date ej = Timeline.project_start tangled_timeline ∨
     ∃ i ei, (i < j)%nat ∧ Timeline.task_schedule tangled_timeline !! i = Some ei ∧
             (Scheduled.role ei = Scheduled.role ej ∨
              Scheduled.id ei ∈ Scheduled.depends_on ej) ∧
             date_next (Scheduled.end_date ei) (Scheduled.start_date ej)).
Proof.
  exists 3%nat, tangled_T2. split; [reflexivity|].
  apply (no_task_waits_without_reason reverse tangled_tasks afternoon_2024_01_01 6
           tangled_timeline).
  - exact reverse_iterates.
  - exact valid_afternoon.
  - exact tangled_run.
  - reflexivity.
Defined.

(** ** Days per role, and the length of the project *)

Lemma days_of_role_notin r es :
  r ∉ Scheduled.role <$> es → days_of_role r es = 0.
Proof.
  induction es as [|e es IH]; [done|]. rewrite fmap_cons.
  intros [Hne Hnin]%not_elem_of_cons. cbn [days_of_role].
  rewrite decide_False by done. by rewrite IH.
Qed.

Lemma role_days_fold r es :
  ∀ rd, dict_get (fold_left add_role_days es rd) r =
        if decide (r ∈ Scheduled.role <$> es)
        then Some (default 0 (dict_get rd r) + days_of_role r es)
        else dict_get rd r.
Proof.
  induction es as [|e es IH]; intros rd.
  - cbn [fold_left]. case_decide as Hin; [|done]. by apply elem_of_nil in Hin.
  - cbn [fold_left days_of_role]. rewrite IH, fmap_cons. unfold add_role_days.
    rewrite dict_get_set.
    destruct (decide (r = Scheduled.role e)) as [->|Hne].
    + rewrite (decide_True (P := Scheduled.role e = Scheduled.role e)) by done.
      rewrite (decide_True (P := Scheduled.role e ∈ Scheduled.role e :: _)) by left.
      cbn [default]. case_decide as Hin; f_equal; unfold id; [lia|].
      rewrite (days_of_role_notin _ _ Hin). lia.
    + rewrite (decide_False (P := Scheduled.role e = r)) by done.
      case_decide as Hin.
      * rewrite decide_True by by right. f_equal.
      * rewrite decide_False; [done|]. by intros [?|?]%elem_of_cons.
Qed.

Lemma role_days_NoDup es : ∀ rd, NoDup (dict_keys rd) → NoDup (dict_keys (fold_left add_role_days es rd)).
Proof.
  induction es as [|e es IH]; intros rd Hrd; [done|]. simpl. apply IH.
  by apply dict_keys_set_NoDup.
Qed.

Lemma estimate_timeline_summarize set_iter tasks project_start cap tl :
  estimate_timeline set_iter tasks project_start cap = Return tl →
  ∃ dates, summarize project_start dates = Return tl.
Proof.
  unfold estimate_timeline, estimate_timeline_fuel. intros Hrun. inv_bind Hrun. eauto.
Qed.

(** X23.  [role_days] has one key for every role that occurs in the
    schedule, none twice, and holds for it the sum of the [duration_days] of
    the entries of that role. *)
Theorem role_days_sum_durations
    (set_iter : list string → list string) (tasks : list Task.t)
    (project_start : datetime) (cap : Z) (tl : Timeline.t) :
  estimate_timeline set_iter tasks project_start cap = Return tl →
  NoDup (dict_keys (Timeline.role_days tl)) ∧
  ∀ r, dict_get (Timeline.role_days tl) r =
         if decide (r ∈ Scheduled.role <$> Timeline.task_schedule tl)
         then Some (days_of_role r (Timeline.task_schedule tl))
         else None.
Proof.
  intros Hrun. apply estimate_timeline_summarize in Hrun as [dates Hsum].
  apply summarize_Return in Hsum as (-> & _ & ->). split.
  - apply role_days_NoDup. constructor.
  - intros r. rewrite role_days_fold. simpl. by destruct (decide _).
Qed.

Lemma role_days_sum_durations_witness :
  NoDup (dict_keys (Timeline.role_days tangled_timeline)) ∧
  ∀ r, dict_get (Timeline.role_days tangled_timeline) r =
         if decide (r ∈ Scheduled.role <$> Timeline.task_schedule tangled_timeline)
         then Some (days_of_role r (Timeline.task_schedule tangled_timeline))
         else None.
Proof.
  apply (role_days_sum_durations reverse tangled_tasks afternoon_2024_01_01 6).
  exact tangled_run.
Defined.

(** X24.  A project with tasks takes no more work days than its tasks laid
    end to end: [total_work_days] lies between 0 and the sum of the
    [duration_days] of the schedule. *)
Theorem project_is_no_longer_than_its_tasks
    (set_iter : list string → list string) (tasks : list Task.t)
    (project_start : datetime) (cap : Z) (tl : Timeline.t) :
  iterates_members set_iter →
  valid_datetime project_start →
  estimate_timeline set_iter tasks project_start cap = Return tl →
  Timeline.task_schedule tl ≠ [] →
  0 <= Timeline.total_work_days tl <= total_duration (Timeline.task_schedule tl).
Proof.
  intros Hiter Hvalid Hrun Hne. pose proof (valid_datetime_range _ Hvalid) as Hrange.
  destruct Hvalid as [_ Hmicros].
  destruct (estimate_timeline_parts _ _ _ _ _ Hiter Hrange Hrun)
    as (ks & ord & st & _ & _ & _ & _ & Hinv & _ & Hsum).
  destruct (summarize_Return _ _ _ Hsum) as (Hsched & _).
  rewrite Hsched in Hne |- *.
  pose proof (inv_dated _ _ _ _ Hinv) as Hdated.
  destruct (summarize_total _ _ _ Hmicros Hdated Hne Hsum) as (_ & ->).
  destruct (summarize_project_end _ _ _ Hdated Hne Hsum) as (e & He & -> & _).
  pose proof (inv_bound _ _ _ _ Hinv e He) as Hbound.
  rewrite (total_span_duration _ _ _ (inv_entries _ _ _ _ Hinv)) in Hbound.
  rewrite Forall_forall in Hdated. destruct (Hdated e He) as (_ & _ & Hs & Hlen & Hpos & _).
  destruct (micros project_start =? 0); lia.
Qed.

Lemma project_is_no_longer_than_its_tasks_witness :
  0 <= Timeline.total_work_days tangled_timeline
    <= total_duration (Timeline.task_schedule tangled_timeline).
Proof.
  apply (project_is_no_longer_than_its_tasks reverse tangled_tasks afternoon_2024_01_01 6).
  - exact reverse_iterates.
  - exact valid_afternoon.
  - exact tangled_run.
  - discriminate.
Defined.

(** X25.  Of the records that carry the same id the last one counts: an
    entry of the schedule has the title, the hours, the role and the
    dependencies of the last record of the task list with its id. *)
Theorem schedule_keeps_last_record
    (set_iter : list string → list string) (tasks : list Task.t)
    (project_start : datetime) (cap : Z) (tl : Timeline.t) :
  iterates_members set_iter →
  valid_datetime project_start →
  estimate_timeline set_iter tasks project_start cap = Return tl →
  ∀ e, e ∈ Timeline.task_schedule tl →
    ∃ t, last (filter (λ t, Task.id t = Some (Scheduled.id e)) tasks) = Some t ∧
         Scheduled.title e = Task.title t ∧
         Scheduled.hours e = hours_or_zero t ∧
         Scheduled.role e = get_role t ∧
         Scheduled.depends_on e = listed_deps t.
Proof.
  intros Hiter Hvalid Hrun e He. pose proof (valid_datetime_range _ Hvalid) as Hrange.
  destruct (estimate_timeline_parts _ _ _ _ _ Hiter Hrange Hrun)
    as (ks & ord & st & _ & Hks & _ & _ & Hinv & Hkeys & Hsum).
  destruct (summarize_Return _ _ _ Hsum) as (Hsched & _). rewrite Hsched in He.
  apply list_elem_of_lookup in He as [i Hi].
  pose proof (inv_entries _ _ _ _ Hinv) as Hentries.
  destruct (Forall2_lookup_r _ _ _ _ _ Hentries Hi) as (t & Ht & Hte).
  destruct (Forall2_lookup_r _ _ _ _ _ Hks Ht) as (k & Hk & Hkt).
  assert (k = Scheduled.id e) as ->.
  { rewrite <- Hkeys, (inv_keys _ _ _ _ Hinv), list_lookup_fmap, Hi in Hk. by injection Hk. }
  destruct Hte as (_ & Htitle & Hrole & Hhours & Hdeps & _).
  exists t. by split_and!.
Qed.

Lemma schedule_keeps_last_record_witness :
  ∃ t, last (filter (λ t, Task.id t = Some (Scheduled.id tangled_T1)) tangled_tasks) = Some t ∧
       Scheduled.title tangled_T1 = Task.title t ∧
       Scheduled.hours tangled_T1 = hours_or_zero t ∧
       Scheduled.role tangled_T1 = get_role t ∧
       Scheduled.depends_on tangled_T1 = listed_deps t.
Proof.
  apply (schedule_keeps_last_record reverse tangled_tasks afternoon_2024_01_01 6
           tangled_timeline).
  - exact reverse_iterates.
  - exact valid_afternoon.
  - exact tangled_run.
  - right. left.
Defined.

(** X26.  More hours never make a task shorter: for a positive capacity the
    days of a task and its days with the buffer grow with its hours. *)
Theorem more_hours_take_no_fewer_days (cap h1 h2 d1 d2 : Z) :
  0 < cap → h1 <= h2 →
  hours_to_days cap h1 = Return d1 →
  hours_to_days cap h2 = Return d2 →
  d1 <= d2 ∧ buffer_days d1 <= buffer_days d2 ∧
  d1 + buffer_days d1 <= d2 + buffer_days d2.
Proof.
  intros Hcap Hle [_ ->]%hours_to_days_Return [_ ->]%hours_to_days_Return.
  assert (Hdiv : (h1 + cap - 1) / cap <= (h2 + cap - 1) / cap)
    by (apply Z.div_le_mono; lia).
  revert Hdiv. generalize ((h1 + cap - 1) / cap) ((h2 + cap - 1) / cap). intros q1 q2 Hq.
  assert (Hd : Z.max 1 q1 <= Z.max 1 q2) by lia.
  revert Hd. generalize (Z.max 1 q1) (Z.max 1 q2). intros a b Hab.
  assert (Hbuf : buffer_days a <= buffer_days b).
  { unfold buffer_days. assert ((2 * a + 5) / 10 <= (2 * b + 5) / 10)
      by (apply Z.div_le_mono; lia). lia. }
  lia.
Qed.

Lemma more_hours_take_no_fewer_days_witness :
  2 <= 5 ∧ buffer_days 2 <= buffer_days 5 ∧ 2 + buffer_days 2 <= 5 + buffer_days 5.
Proof.
  apply (more_hours_take_no_fewer_days 6 8 30 2 5); [lia|lia|reflexivity|reflexivity].
Defined.

(** ** The analysis *)

Lemma input_ids_length tasks :
  Forall (λ t, is_Some (Task.id t)) tasks → length (input_ids tasks) = length tasks.
Proof.
  induction 1 as [|t tasks [k Hk] _ IH]; [done|]. unfold input_ids in *.
  cbn [omap list_omap]. rewrite Hk. cbn [length]. by rewrite IH.
Qed.

(** X27.  In an analysis the cost estimate has a line for every record of
    the task list, and the schedule an entry for every id: every entry has a
    cost line of the same task, with the same title, role and hours; with
    ids that are all different there are as many entries as lines. *)
Theorem analysis_lines_and_entries
    (set_iter : list string → list string) (tasks : list Task.t)
    (started generated : datetime) (a : Analysis.t) :
  iterates_members set_iter →
  valid_datetime started →
  analyze_tasks set_iter tasks started generated = Return a →
  let lines := CostEstimate.breakdown (Analysis.cost_estimate a) in
  let entries := Timeline.task_schedule (Analysis.timeline_estimate a) in
  length lines = length tasks ∧
  (length entries ≤ length lines)%nat ∧
  (∀ e, e ∈ entries → ∃ l, l ∈ lines ∧ same_task l e) ∧
  (NoDup (input_ids tasks) → length entries = length lines).
Proof.
  intros Hiter Hvalid Hrun. pose proof (valid_datetime_range _ Hvalid) as Hrange.
  unfold analyze_tasks in Hrun. inv_bind Hrun. injection Hrun as <-. simpl.
  rename x into cost, x0 into tl, Hx into Hcost, Hx0 into Htl.
  apply estimate_cost_Return in Hcost as ->. simpl.
  destruct (estimate_timeline_parts _ _ _ _ _ Hiter Hrange Htl)
    as (ks & ord & st & Hids & Hks & Hnd & Hin & Hinv & Hkeys & Hsum).
  destruct (summarize_Return _ _ _ Hsum) as (Hsched & _). rewrite Hsched.
  assert (Hlen : length (dict_values (dates_for_id st)) = length ks).
  { by rewrite <- Hkeys, (inv_keys _ _ _ _ Hinv), length_fmap. }
  assert (Hsub : (length ks ≤ length (input_ids tasks))%nat).
  { apply submseteq_length, NoDup_submseteq; [done|]. intros k. apply Hin. }
  rewrite length_fmap, Hlen. rewrite (input_ids_length _ Hids) in Hsub.
  split_and!; [done|done| |].
  - intros e [i Hi]%list_elem_of_lookup.
    destruct (Forall2_lookup_r _ _ _ _ _ (inv_entries _ _ _ _ Hinv) Hi) as (t & Ht & Hte).
    destruct (Forall2_lookup_r _ _ _ _ _ Hks Ht) as (k & _ & [_ Hkt]%task_with_id_Some).
    exists (line_of DEFAULT_RATES_PER_HOUR t). split.
    + apply list_elem_of_fmap. by exists t.
    + destruct Hte as (Hid & Htitle & Hrole & Hhours & _). unfold same_task. simpl.
      by rewrite Hid, Htitle, Hrole, Hhours.
  - intros Hnd'. rewrite <- (input_ids_length _ Hids).
    apply Permutation_length, NoDup_Permutation; [done|done|]. intros k. apply Hin.
Qed.

Lemma analysis_lines_and_entries_witness :
  ∃ a, analyze_tasks reverse tangled_tasks afternoon_2024_01_01 afternoon_2024_01_01
         = Return a ∧
    let lines := CostEstimate.breakdown (Analysis.cost_estimate a) in
    let entries := Timeline.task_schedule (Analysis.timeline_estimate a) in
    length lines = length tangled_tasks ∧
    (length entries ≤ length lines)%nat ∧
    (∀ e, e ∈ entries → ∃ l, l ∈ lines ∧ same_task l e) ∧
    (NoDup (input_ids tangled_tasks) → length entries = length lines).
Proof.
  eexists. split; [vm_compute; reflexivity|].
  apply (analysis_lines_and_entries reverse tangled_tasks afternoon_2024_01_01
           afternoon_2024_01_01).
  - exact reverse_iterates.
  - exact valid_afternoon.
  - vm_compute. reflexivity.
Defined.

(** ** Lines, records without an id, and the analysis of well-formed tasks *)

Lemma newlines_to_eol s :
  length (filter (λ c, c = NEWLINE) (to_eol s)) = length (filter (λ c, c = NEWLINE) s).
Proof.
  induction s as [|c s IH]; [done|]. cbn [to_eol].
  destruct (N.eqb_spec c NEWLINE) as [->|Hc]; [done|].
  by rewrite filter_cons_False.
Qed.

(** X28.  Cutting the line comments keeps every line break: the text has as
    many lines after as before. *)
Theorem cleaned_keeps_lines (json_block : list N) :
  length (filter (λ c, c = NEWLINE) (cleaned json_block))
  = length (filter (λ c, c = NEWLINE) json_block).
Proof.
  remember (length json_block) as n eqn:Hn. revert json_block Hn.
  induction n as [n IH] using lt_wf_ind. intros [|c s'] Hn; [done|].
  simpl in Hn. rewrite cleaned_cons.
  destruct (starts_comment (c :: s')) eqn:Hs.
  - destruct s' as [|c2 s2]; [done|]. cbn [drop]. rewrite drop_0. simpl in Hn.
    pose proof (length_to_eol s2).
    rewrite (IH (length (to_eol s2)) ltac:(lia) _ eq_refl), newlines_to_eol.
    cbn [starts_comment] in Hs. apply andb_true_iff in Hs as [->%N.eqb_eq ->%N.eqb_eq].
    by rewrite !filter_cons_False.
  - destruct (decide (c = NEWLINE)) as [->|Hc].
    + rewrite !filter_cons_True by done. cbn [length]. f_equal.
      by apply (IH (length s') ltac:(lia)).
    + rewrite !filter_cons_False by done. by apply (IH (length s') ltac:(lia)).
Qed.

Lemma build_id_map_KeyError tasks :
  ∀ m t, t ∈ tasks → Task.id t = None →
    foldM (λ m t, do k <- subscript (Task.id t); Return (dict_set m k t)) m tasks
    = Raise KeyError.
Proof.
  induction tasks as [|t' tasks IH]; intros m t Ht Hid; [by apply elem_of_nil in Ht|].
  cbn [foldM]. destruct (Task.id t') as [k|] eqn:Hk; [|done]. simpl.
  apply elem_of_cons in Ht as [->|Ht]; [congruence|]. by apply (IH _ t).
Qed.

(** X29.  A record without an id ends [estimate_timeline] in [KeyError],
    whatever else the task list holds. *)
Theorem record_without_id_raises_key_error
    (set_iter : list string → list string) (tasks : list Task.t)
    (project_start : datetime) (cap : Z) (t : Task.t) :
  t ∈ tasks → Task.id t = None →
  estimate_timeline set_iter tasks project_start cap = Raise KeyError.
Proof.
  intros Ht Hid.
  unfold estimate_timeline, estimate_timeline_fuel, topological_order, build_id_map.
  by rewrite (build_id_map_KeyError tasks [] t Ht Hid).
Qed.

Lemma record_without_id_raises_key_error_witness :
  estimate_timeline reverse sample_tasks afternoon_2024_01_01 6 = Raise KeyError.
Proof.
  apply (record_without_id_raises_key_error reverse sample_tasks afternoon_2024_01_01 6
           (Task.mk None (Some "Untitled") (Val 3) None (Val ["T1"]))%string).
  - do 2 right. left.
  - reflexivity.
Defined.


